(** * Similarity-graph export of the alignment-graph pipeline

    A shallow embedding of [aisafety_pipeline/export_graph.py]
    ([export_json_graph] and its nested helpers [_cluster_mst],
    [_emit_edge] and [_spread]) together with the properties the design
    document states about the neighbor builder, the per-cluster spanning
    tree, the edge de-duplication, the layout fallback, the coordinate
    normalisation, the declutter pass and the assembled payload.

    Conventions of the embedding.
    - Python floats (and NumPy float32 cells) are idealised as rationals
      [Q]; the only non-finite value the code creates itself, the
      [-np.inf] diagonal mask, is kept apart in the type [ext].
    - Row indices are [nat]; caller-supplied integers that may be
      negative (top_k, canvas sizes, seeds) are [Z].
    - Exceptions are values of [error] carried by the [result] monad.
    - Dictionaries whose iteration order matters ([by_cluster],
      [buckets]) are association lists in insertion order; sets whose
      order never matters ([seen], [in_tree]) are [gset]s.
    - Third-party code (NumPy selection and sorting, the four layout
      back-ends) is taken through the interfaces [NumPy] and [Backends]. *)

Set Warnings "-register-all,-abstract-large-number,-clear-no-such-hyp".
From Stdlib Require Import QArith Qround Qminmax Lqa Lia ZArith List Permutation Ascii.
From stdpp Require Import base gmap sets list strings sorting pretty.

(* ================================================================== *)
(** * Part I: the program                                               *)
(* ================================================================== *)

(** ** Exceptions and results *)

Inductive error : Type :=
| RuntimeError_no_rows            (* "No kept/clustered papers ..." *)
| RuntimeError_missing (n : nat)  (* "<n> papers missing embeddings ..." *)
| RuntimeError_networkx           (* "coords_method='fa2'/'fr' requires networkx" *)
| ValueError_frombuffer           (* np.frombuffer: buffer too small / bad count *)
| ValueError_vstack               (* np.vstack on rows of unequal length *)
| BackendError (name : string)    (* an exception escaping a layout back-end *)
| FloatToIntError                 (* int(np.floor(x / 0.0)) *)
| IndexError.

Inductive result (A : Type) : Type :=
| Ok (a : A)
| Raise (e : error).
Arguments Ok {A} a.
Arguments Raise {A} e.

#[global] Instance result_ret : MRet result := λ A a, Ok a.
#[global] Instance result_bind : MBind result := λ A B k m,
  match m with
  | Ok a => k a
  | Raise e => Raise e
  end.

Fixpoint rmapM {A B} (f : A → result B) (l : list A) : result (list B) :=
  match l with
  | [] => Ok []
  | a :: l' => b ← f a; bs ← rmapM f l'; Ok (b :: bs)
  end.

(** ** Numbers *)

Definition Qltb (x y : Q) : bool := negb (Qle_bool y x).

(** A float that may be an infinity: similarities are finite except for
    the masked diagonal, and [-sims] is handed to [argsort]. *)
Inductive ext : Type :=
| NegInf
| Fin (q : Q)
| PosInf.

Definition ext_leb (a b : ext) : bool :=
  match a, b with
  | NegInf, _ => true
  | _, PosInf => true
  | Fin x, Fin y => Qle_bool x y
  | _, _ => false
  end.

Definition ext_neg (a : ext) : ext :=
  match a with
  | NegInf => PosInf
  | Fin q => Fin (- q)
  | PosInf => NegInf
  end.

Abbreviation vec := (list Q).
Abbreviation matrix := (list (list Q)).

(** [a @ b] for two vectors. *)
Definition dot (a b : vec) : Q :=
  fold_right Qplus 0%Q (zip_with Qmult a b).

(** [X[j]]. *)
Definition row (X : matrix) (j : nat) : vec := nth j X [].

(** [a[i]] on an array of floats. *)
Definition getx (a : list ext) (i : nat) : ext := nth i a NegInf.

(** ** Insertion-ordered dictionaries of lists
    ([defaultdict(list)] and [dict.setdefault(k, []).append(v)]) *)

Fixpoint od_append {K V : Type} `{EqDecision K}
    (k : K) (v : V) (d : list (K * list V)) : list (K * list V) :=
  match d with
  | [] => [(k, [v])]
  | (k', vs) :: d' =>
      if decide (k = k') then (k', vs ++ [v]) :: d'
      else (k', vs) :: od_append k v d'
  end.

Fixpoint od_get {K V : Type} `{EqDecision K}
    (k : K) (d : list (K * list V)) : list V :=
  match d with
  | [] => []
  | (k', vs) :: d' => if decide (k = k') then vs else od_get k d'
  end.

(** [for i, c in enumerate(cids): d[c].append(i)], starting at index [i0]. *)
Fixpoint group_from (i0 : nat) (cids : list Z) (d : list (Z * list nat))
    : list (Z * list nat) :=
  match cids with
  | [] => d
  | c :: cs => group_from (S i0) cs (od_append c i0 d)
  end.

Definition group_by_cid (cids : list Z) : list (Z * list nat) :=
  group_from 0 cids [].

(** ** The NumPy routines the export relies on *)

Class NumPy : Type := {
  (** [np.argpartition(a, kth)] *)
  np_argpartition : list ext → Z → list nat;
  (** [np.argsort(a)] *)
  np_argsort : list ext → list nat;
  (** [np.sqrt] (also inside [np.linalg.norm]) *)
  np_sqrt : Q → Q
}.

(** A negative [kth] counts from the end. *)
Definition norm_kth (n : nat) (kth : Z) : Z :=
  if (kth <? 0)%Z then (kth + Z.of_nat n)%Z else kth.

(** What NumPy documents: both return a permutation of the positions;
    [argpartition] puts position [kth] where a full sort would and
    everything smaller before, everything not smaller behind it, in no
    particular order; [argsort] (default kind, not stable) orders the
    values, saying nothing about equal ones. *)
Class NumPyContract (np : NumPy) : Prop := {
  argpartition_perm : ∀ a kth,
    (0 ≤ norm_kth (length a) kth < Z.of_nat (length a))%Z →
    Permutation (np_argpartition a kth) (seq 0 (length a));
  argpartition_pivot : ∀ a kth p,
    (0 ≤ norm_kth (length a) kth < Z.of_nat (length a))%Z →
    p < length a →
    let r := np_argpartition a kth in
    let k := Z.to_nat (norm_kth (length a) kth) in
    (p ≤ k → ext_leb (getx a (nth p r 0)) (getx a (nth k r 0)) = true) ∧
    (k ≤ p → ext_leb (getx a (nth k r 0)) (getx a (nth p r 0)) = true);
  argsort_perm : ∀ a, Permutation (np_argsort a) (seq 0 (length a));
  argsort_sorted : ∀ a p q,
    p ≤ q → q < length a →
    ext_leb (getx a (nth p (np_argsort a) 0))
            (getx a (nth q (np_argsort a) 0)) = true
}.

(** ** Step 5: top-k neighbors per row *)

Section Neighbors.
Context `{NumPy}.

(** [top_idx = argpartition(sims, -k_eff)[-k_eff:]] followed by
    [top_idx = top_idx[argsort(-sims[top_idx])]]. *)
Definition top_indices (sims : list ext) (k_eff : Z) : list nat :=
  let part := np_argpartition sims (- k_eff)%Z in
  let top_idx := drop (length part - Z.to_nat k_eff) part in
  let order := np_argsort (map ext_neg (map (getx sims) top_idx)) in
  map (λ p, nth p top_idx 0) order.

(** The inner [for j in top_idx] loop: entries below the floor are
    skipped ([-inf < min_sim] for the masked entry); [gidx] maps a
    position of [sims] to the row index that is recorded.  No entry of
    [sims] is [+inf] ([sims_row_no_posinf], [sims_cluster_no_posinf]). *)
Definition emit_pairs (min_sim : Q) (sims : list ext) (gidx : nat → nat)
    (top_idx : list nat) : list (nat * Q) :=
  flat_map (λ jj,
    match getx sims jj with
    | Fin sim => if Qltb sim min_sim then [] else [(gidx jj, sim)]
    | _ => []
    end) top_idx.

(** One row of the global search:
    [sims_row = X[i] @ X.T; sims_row[i] = -inf; k_eff = min(top_k, N-1)]. *)
Definition sims_row (X : matrix) (i : nat) : list ext :=
  <[i := NegInf]> (map (λ xj, Fin (dot (row X i) xj)) X).

Definition row_neighbors (X : matrix) (top_k : Z) (min_sim : Q) (i : nat)
    : list (nat * Q) :=
  let sims := sims_row X i in
  let k_eff := Z.min top_k (Z.of_nat (length X) - 1) in
  if (0 <? k_eff)%Z
  then emit_pairs min_sim sims id (top_indices sims k_eff)
  else [].

(** One row of the same-cluster search:
    [sims = X[i] @ X[indices].T; sims[gidx == i] = -inf;
     k_eff = min(top_k, sims.size)]. *)
Definition sims_cluster (X : matrix) (indices : list nat) (i : nat)
    : list ext :=
  map (λ g, if decide (g = i) then NegInf
            else Fin (dot (row X i) (row X g))) indices.

Definition row_neighbors_cluster (X : matrix) (indices : list nat)
    (top_k : Z) (min_sim : Q) (i : nat) : list (nat * Q) :=
  let sims := sims_cluster X indices i in
  let k_eff := Z.min top_k (Z.of_nat (length sims)) in
  if (0 <? k_eff)%Z
  then emit_pairs min_sim sims (λ jj, nth jj indices 0)
         (top_indices sims k_eff)
  else [].

Definition BATCH (N : nat) : nat := if 20000 <? N then 1024 else 4096.

(** [range(0, N, BATCH)] *)
Definition batch_starts (N : nat) : list nat :=
  map (λ b, b * BATCH N) (seq 0 ((N + BATCH N - 1) / BATCH N)).

(** [neigh_pairs] after step 5. *)
Definition neighbors (X : matrix) (cids : list Z) (top_k : Z) (min_sim : Q)
    (same_cluster_only : bool) : list (list (nat * Q)) :=
  let N := length X in
  if 1 <? N then
    if same_cluster_only then
      let cluster_to_indices := group_by_cid cids in
      map (λ i, row_neighbors_cluster X
                  (od_get (nth i cids 0%Z) cluster_to_indices)
                  top_k min_sim i) (seq 0 N)
    else
      flat_map (λ start,
        let stop := Nat.min (start + BATCH N) N in
        map (λ r, row_neighbors X top_k min_sim (start + r))
            (seq 0 (stop - start))) (batch_starts N)
  else replicate N [].
End Neighbors.

(** ** Step 6: per-cluster spanning tree (Prim with a binary heap) *)

(** A heap entry [(1.0 - sim, u, v, sim)]. *)
Abbreviation heap_item := (Q * nat * nat * Q)%type.

(** Python's tuple order, field by field. *)
Definition item_leb (a b : heap_item) : bool :=
  let '(da, ua, va, sa) := a in
  let '(db, ub, vb, sb) := b in
  match (da ?= db)%Q with
  | Lt => true
  | Gt => false
  | Eq =>
      match ua ?= ub with
      | Lt => true
      | Gt => false
      | Eq =>
          match va ?= vb with
          | Lt => true
          | Gt => false
          | Eq => Qle_bool sa sb
          end
      end
  end.

(** [heapq] is used through its interface only: a bag of tuples of which
    [heappop] removes a smallest one.  The bag is kept as a list. *)
Definition heappush (h : list heap_item) (x : heap_item) : list heap_item :=
  x :: h.

Fixpoint heappop (h : list heap_item)
    : option (heap_item * list heap_item) :=
  match h with
  | [] => None
  | x :: h' =>
      match heappop h' with
      | None => Some (x, [])
      | Some (m, r) =>
          if item_leb x m then Some (x, h') else Some (m, x :: r)
      end
  end.

Abbreviation edge := (nat * nat * Q)%type.

(** [for w in indices: if w in in_tree: continue; heappush(...)] *)
Definition push_frontier (X : matrix) (indices : list nat)
    (in_tree : gset nat) (v : nat) (edges : list heap_item)
    : list heap_item :=
  fold_left (λ h w,
    if decide (w ∈ in_tree) then h
    else let sw := dot (row X v) (row X w) in
         heappush h ((1 - sw)%Q, v, w, sw)) indices edges.

(** The [while len(in_tree) < len(indices) and edges] loop.  [fuel]
    bounds the number of pops; [_cluster_mst] supplies enough of it
    for the loop to stop by its own condition
    ([cluster_mst_fuel_irrelevant]). *)
Fixpoint mst_loop (fuel : nat) (X : matrix) (indices : list nat)
    (in_tree : gset nat) (edges : list heap_item) (mst : list edge)
    : list edge :=
  match fuel with
  | 0 => mst
  | S fuel' =>
      if size in_tree <? length indices then
        match heappop edges with
        | None => mst
        | Some ((_, u, v, sim), edges') =>
            if decide (v ∈ in_tree) then
              mst_loop fuel' X indices in_tree edges' mst
            else
              let in_tree' := {[v]} ∪ in_tree in
              mst_loop fuel' X indices in_tree'
                (push_frontier X indices in_tree' v edges')
                (mst ++ [(u, v, sim)])
        end
      else mst
  end.

Definition mst_start (X : matrix) (i0 : nat) (rest : list nat)
    : list heap_item :=
  fold_left (λ h j,
    let sim := dot (row X i0) (row X j) in
    heappush h ((1 - sim)%Q, i0, j, sim)) rest [].

Definition mst_fuel (indices : list nat) : nat :=
  length indices * length indices.

Definition _cluster_mst (X : matrix) (indices : list nat) : list edge :=
  match indices with
  | [] | [_] => []
  | i0 :: rest =>
      mst_loop (mst_fuel indices) X indices {[i0]} (mst_start X i0 rest) []
  end.

(** [for idxs in by_cluster.values(): mst_edges.extend(_cluster_mst(idxs))] *)
Definition cluster_mst_edges (X : matrix) (cids : list Z)
    (add_cluster_mst : bool) : list edge :=
  if add_cluster_mst
  then flat_map (λ kv, _cluster_mst X kv.2) (group_by_cid cids)
  else [].

(** ** Step 7: de-duplication *)

Abbreviation dedup_state := (gset (nat * nat) * list edge)%type.

Definition _emit_edge (st : dedup_state) (u v : nat) (sim : Q)
    : dedup_state :=
  let '(a, b) := if u <? v then (u, v) else (v, u) in
  if decide ((a, b) ∈ st.1) then st
  else ({[(a, b)]} ∪ st.1, st.2 ++ [(a, b, sim)]).

(** [for i, lst in enumerate(neigh_pairs): for j, sim in lst: ...] *)
Definition emit_neighbors (neigh_pairs : list (list (nat * Q)))
    (st : dedup_state) : dedup_state :=
  fold_left (λ st il,
    fold_left (λ st js, _emit_edge st il.1 js.1 js.2) il.2 st)
    (imap (λ i lst, (i, lst)) neigh_pairs) st.

(** [for (u, v, sim) in mst_edges: if sim >= min_sim * 0.5: ...] *)
Definition emit_mst (min_sim : Q) (mst_edges : list edge)
    (st : dedup_state) : dedup_state :=
  fold_left (λ st e,
    let '(u, v, sim) := e in
    if Qle_bool (min_sim * (1 # 2)) sim then _emit_edge st u v sim else st)
    mst_edges st.

Definition dedup_edges (neigh_pairs : list (list (nat * Q)))
    (mst_edges : list edge) (min_sim : Q) : list edge :=
  (emit_mst min_sim mst_edges (emit_neighbors neigh_pairs (∅, []))).2.

(** ** Configuration (the keyword arguments of [export_json_graph]) *)

Record Config : Type := {
  out_path : string;
  compact : bool;
  include_summaries : bool;
  max_summary_len : Z;
  top_k : Z;
  min_sim : Q;
  same_cluster_only : bool;
  include_coords : bool;
  coords_method : string;
  fa2_iterations : Z;
  fa2_scaling : Q;
  fa2_gravity : Q;
  fr_iterations : Z;
  fr_seed : Z;
  umap_n_neighbors : Z;
  umap_min_dist : Q;
  umap_random_state : Z;
  pca_random_state : Z;
  canvas_w : Z;
  canvas_h : Z;
  canvas_pad : Z;
  add_cluster_mst : bool;
  gzip_out : bool
}.

(** ** Step 8: layout back-ends and their selection *)

Abbreviation point := (Q * Q)%type.

(** The [networkx] graph handed to the force layouts. *)
Record Graph : Type := {
  g_nodes : nat;
  g_edges : list edge
}.

(** [G.add_nodes_from(range(N))] and
    [if u != v and w > 0: G.add_edge(u, v, weight=w)]. *)
Definition build_graph (N : nat) (edge_list : list edge) : Graph :=
  {| g_nodes := N;
     g_edges := List.filter (λ e : edge,
                  negb (e.1.1 =? e.1.2) && Qltb 0 e.2) edge_list |}.

(** The four optional packages, each call with exactly the arguments the
    export passes.  [None] stands for any exception (a missing package
    included).  [spring_layout], [UMAP] and [PCA] receive a seed;
    [ForceAtlas2] is called with [pos=None] and no seed, so what it
    returns may depend on [Ambient], the state of the interpreter's
    global random generator, which the export neither sets nor reads. *)
Class Backends : Type := {
  Ambient : Type;
  networkx_available : bool;
  (** [ForceAtlas2(scalingRatio, gravity, ...).forceatlas2_networkx_layout
        (G, pos=None, iterations)] *)
  fa2_layout : Graph → Z → Q → Q → Ambient → option (list point);
  (** [nx.spring_layout(G, dim=2, weight="weight", iterations, seed)] *)
  spring_layout : Graph → Z → Z → option (list point);
  (** [UMAP(n_components=2, n_neighbors, min_dist, metric="cosine",
        random_state).fit_transform(X)] *)
  umap_fit_transform : matrix → Z → Q → Z → option (list point);
  (** [PCA(n_components=2, random_state).fit_transform(X)] *)
  pca_fit_transform : matrix → Z → option (list point)
}.

Definition lower_ascii (c : ascii) : ascii :=
  let n := nat_of_ascii c in
  if (65 <=? n) && (n <=? 90) then ascii_of_nat (n + 32) else c.

(** [str.lower()], on the ASCII range. *)
Fixpoint lower (s : string) : string :=
  match s with
  | EmptyString => EmptyString
  | String c s' => String (lower_ascii c) (lower s')
  end.

(** [np.vstack([pos[i] for i in range(N)])]: a [KeyError] when a node
    has no position. *)
Definition gather_pos (N : nat) (pos : list point) : option (list point) :=
  if length pos <? N then None else Some (take N pos).

Section Layout.
Context `{Backends}.

(** The mutable triple [(method_req, coords_arr, method_used)]. *)
Abbreviation layout_state := (string * option (list point) * string)%type.

(** Lines 253-292: the force family. *)
Definition force_branch (cfg : Config) (N : nat) (edge_list : list edge)
    (amb : Ambient) (method_req : string) : result layout_state :=
  if negb networkx_available then Raise RuntimeError_networkx
  else
    let G := build_graph N edge_list in
    let st : layout_state :=
      if decide (method_req = "fa2") then
        match fa2_layout G (fa2_iterations cfg) (fa2_scaling cfg)
                (fa2_gravity cfg) amb ≫= gather_pos N with
        | Some c => ("fa2", Some c, "fa2")
        | None => ("fr", None, "none")          (* except Exception *)
        end
      else (method_req, None, "none") in
    let '(method_req, coords_arr, method_used) := st in
    if decide (method_req = "fr") then
      match coords_arr with
      | None =>
          match spring_layout G (fr_iterations cfg) (fr_seed cfg)
                  ≫= gather_pos N with
          | Some c => Ok ("fr", Some c, "fr")
          | None => Raise (BackendError "fr")   (* not caught *)
          end
      | Some _ => Ok st
      end
    else Ok st.

(** Lines 294-305: the neighbor embedding. *)
Definition umap_branch (cfg : Config) (X : matrix) : layout_state :=
  match umap_fit_transform X (umap_n_neighbors cfg) (umap_min_dist cfg)
          (umap_random_state cfg) with
  | Some c => ("umap", Some c, "umap")
  | None => ("pca", None, "none")               (* except Exception *)
  end.

(** Lines 249-311: [(coords_arr, method_used)]. *)
Definition select_layout (cfg : Config) (X : matrix)
    (edge_list : list edge) (amb : Ambient)
    : result (option (list point) * string) :=
  let method_req := lower (coords_method cfg) in
  st ← (if decide (method_req = "fa2" ∨ method_req = "fr")
        then force_branch cfg (length X) edge_list amb method_req
        else if decide (method_req = "umap")
        then Ok (umap_branch cfg X)
        else Ok (method_req, None, "none"));
  let '(method_req, coords_arr, method_used) := st in
  match coords_arr with
  | None =>
      if decide (method_req = "pca") then
        match pca_fit_transform X (pca_random_state cfg) with
        | Some c => Ok (Some c, "pca")
        | None => Raise (BackendError "pca")    (* not caught *)
        end
      else Ok (None, method_used)
  | Some _ => Ok (coords_arr, method_used)
  end.
End Layout.

(** ** Normalisation to the unit square (lines 313-316) *)

(** [a.min()] and [a.max()] of a column; the code only takes them of
    [N >= 2] values. *)
Definition col_min (l : list Q) : Q :=
  match l with
  | [] => 0
  | x :: xs => fold_left Qmin xs x
  end.

Definition col_max (l : list Q) : Q :=
  match l with
  | [] => 0
  | x :: xs => fold_left Qmax xs x
  end.

Definition range_floor : Q := 1 # 1000000000.    (* 1e-9 *)

(** [rng = np.maximum(maxs - mins, 1e-9)] for one axis. *)
Definition axis_rng (l : list Q) : Q :=
  Qmax (col_max l - col_min l)%Q range_floor.

Definition normalize (coords_arr : list point) : list point :=
  let xs := map fst coords_arr in
  let ys := map snd coords_arr in
  map (λ p : point,
         ((p.1 - col_min xs) / axis_rng xs,
          (p.2 - col_min ys) / axis_rng ys)%Q) coords_arr.

(** ** The declutter pass [_spread] (lines 318-344) *)

Definition tiny : Q := 1 # 1000000000000.        (* 1e-12 *)

(** [(int(np.floor(x / cell)), int(np.floor(y / cell)))] *)
Definition cell_of (cell : Q) (p : point) : Z * Z :=
  (Qfloor (p.1 / cell), Qfloor (p.2 / cell)).

(** [for i, (x, y) in enumerate(P): buckets.setdefault(key, []).append(i)] *)
Definition build_buckets (cell : Q) (P : list point)
    : list ((Z * Z) * list nat) :=
  fold_left (λ d ip, od_append (cell_of cell ip.2) ip.1 d)
            (imap (λ i p, (i, p)) P) [].

(** [[(gx+dx, gy+dy) for dx in (-1,0,1) for dy in (-1,0,1)]] *)
Definition neigh_keys (g : Z * Z) : list (Z * Z) :=
  flat_map (λ dx, map (λ dy, (g.1 + dx, g.2 + dy)%Z) [-1; 0; 1]%Z)
           [-1; 0; 1]%Z.

(** [hot = set(); for k in neigh_keys: hot.update(buckets.get(k, ()))] *)
Definition hot_set (buckets : list ((Z * Z) * list nat)) (g : Z * Z)
    : gset nat :=
  fold_left (λ hot k, hot ∪ list_to_set (od_get k buckets))
            (neigh_keys g) ∅.

(** [list(hot)].  The order in which CPython walks a set of ints is an
    artefact of its hash table; the members are listed here in
    increasing order.  Within one [ii] the pushes read the saved
    [(xi, yi)] and touch pairwise different rows [jj], so in exact
    arithmetic the order does not change the outcome. *)
Definition hot_list (n : nat) (hot : gset nat) : list nat :=
  List.filter (λ j, bool_decide (j ∈ hot)) (seq 0 n).

Section Spread.
Context `{NumPy}.

(** The body of [for jj in hot], with [(xi, yi)] read before the loop. *)
Definition push_pair (r_min xi yi : Q) (ii : nat) (P : list point)
    (jj : nat) : list point :=
  if jj <=? ii then P
  else
    match P !! jj with
    | None => P
    | Some pj =>
        let dx := (xi - pj.1)%Q in
        let dy := (yi - pj.2)%Q in
        let d2 := (dx * dx + dy * dy)%Q in
        if Qltb d2 (r_min * r_min) && Qltb tiny d2 then
          let d := np_sqrt d2 in
          let push := ((1 # 2) * (r_min - d) / d)%Q in
          let P1 := alter (λ p : point,
                      (p.1 + dx * push, p.2 + dy * push)%Q) ii P in
          alter (λ p : point,
                   (p.1 - dx * push, p.2 - dy * push)%Q) jj P1
        else P
    end.

(** [for ii in idxs: xi, yi = P[ii]; for jj in hot: ...] *)
Definition relax_point (r_min : Q) (hot : list nat) (P : list point)
    (ii : nat) : list point :=
  match P !! ii with
  | None => P
  | Some pi => fold_left (push_pair r_min pi.1 pi.2 ii) hot P
  end.

(** [for (gx, gy), idxs in buckets.items(): ...] *)
Definition relax_bucket (r_min : Q) (buckets : list ((Z * Z) * list nat))
    (P : list point) (b : (Z * Z) * list nat) : list point :=
  let hot := hot_list (length P) (hot_set buckets b.1) in
  fold_left (relax_point r_min hot) b.2 P.

(** One iteration of [for _ in range(iters)].  With [r_min = 0] the
    quotient [x / cell] is infinite or NaN and [int(...)] raises. *)
Definition spread_pass (r_min : Q) (P : list point)
    : result (list point) :=
  match P with
  | _ :: _ =>
      if Qeq_bool r_min 0 then Raise FloatToIntError
      else
        let buckets := build_buckets r_min P in
        Ok (fold_left (relax_bucket r_min buckets) buckets P)
  | [] => Ok P
  end.

Fixpoint _spread (points : list point) (r_min : Q) (iters : nat)
    : result (list point) :=
  match iters with
  | 0 => Ok points
  | S n => P ← spread_pass r_min points; _spread P r_min n
  end.

(** Lines 313-347: normalise, then declutter the force layouts only. *)
Definition normalize_and_spread (coords_arr : list point)
    (method_used : string) : result (list point) :=
  let norm := normalize coords_arr in
  if decide (method_used = "fa2" ∨ method_used = "fr")
  then _spread norm (1 # 100) 1
  else Ok norm.
End Spread.

(** ** Canvas mapping (lines 349-350) *)

(** [.astype(np.int32)] drops the fraction; values outside the int32
    range are not modelled. *)
Definition trunc (q : Q) : Z :=
  if Qle_bool 0 q then Qfloor q else Qceiling q.

Definition to_canvas (pad size : Z) (t : Q) : Z :=
  trunc (inject_Z pad + t * inject_Z (size - 2 * pad)).

Definition canvas_xs (cfg : Config) (norm : list point) : list Z :=
  map (λ p : point, to_canvas (canvas_pad cfg) (canvas_w cfg) p.1) norm.

Definition canvas_ys (cfg : Config) (norm : list point) : list Z :=
  map (λ p : point, to_canvas (canvas_pad cfg) (canvas_h cfg) p.2) norm.

(** ** The database as the export reads it *)

(** A row of the first [SELECT] (kept papers with a cluster, as the
    database returns them). *)
Record PaperRow : Type := {
  p_id : string;
  p_title : option string;
  p_authors : option string;
  p_published : option string;
  p_summary : option string;
  p_link : option string;
  p_cid : Z;
  p_domain_tag : option string
}.

Record MetaRow : Type := {
  m_cluster_id : Z;
  m_method : string;
  m_label : option string
}.

(** A row of [embeddings]; the blob is given as the float32 words it
    holds. *)
Record EmbRow : Type := {
  e_paper_id : string;
  e_model : string;
  e_dim : Z;
  e_vector : list Q
}.

Record Database : Type := {
  db_rows : list PaperRow;
  db_cluster_meta : option (list MetaRow);  (* None: no such table *)
  db_embeddings : list EmbRow
}.

Definition EMB_MODEL : string := "specter2".
Definition EMB_DIMS : Z := 768.

(** ** JSON values *)

Inductive json : Type :=
| JNull
| JBool (b : bool)
| JInt (z : Z)
| JFloat (q : Q)
| JStr (s : string)
| JList (l : list json)
| JDict (l : list (string * json)).

Definition JOptStr (o : option string) : json :=
  match o with
  | Some s => JStr s
  | None => JNull
  end.

(** ** Text helpers *)

(** [x or d] on an optional string. *)
Definition or_str (o : option string) (d : string) : string :=
  match o with
  | Some (String c s) => String c s
  | _ => d
  end.

Definition is_space (c : ascii) : bool :=
  let n := nat_of_ascii c in
  ((9 <=? n) && (n <=? 13)) || ((28 <=? n) && (n <=? 32)).

Fixpoint lstrip (s : string) : string :=
  match s with
  | String c s' => if is_space c then lstrip s' else s
  | EmptyString => EmptyString
  end.

Fixpoint rstrip (s : string) : string :=
  match s with
  | EmptyString => EmptyString
  | String c s' =>
      match rstrip s' with
      | EmptyString => if is_space c then EmptyString else String c EmptyString
      | r => String c r
      end
  end.

(** [s[:m]] *)
Definition slice_to (s : string) (m : Z) : string :=
  let n := Z.of_nat (String.length s) in
  let stop := if (m <? 0)%Z then Z.max 0 (n + m) else Z.min m n in
  String.substring 0 (Z.to_nat stop) s.

Definition _trim (s : option string) (max_len : Z) : option string :=
  match s with
  | None => None
  | Some s =>
      let s := rstrip (lstrip s) in
      if (max_len <? Z.of_nat (String.length s))%Z
      then Some (slice_to s max_len +:+ "…")
      else Some s
  end.

(** [round(float(w), 6)]: to the nearest multiple of 1e-6, halves to the
    even neighbour. *)
Definition round6 (w : Q) : Q :=
  let s := (w * 1000000)%Q in
  let f := Qfloor s in
  let r := (s - inject_Z f)%Q in
  let n := if Qltb r (1 # 2) then f
           else if Qltb (1 # 2) r then (f + 1)%Z
           else if Z.even f then f else (f + 1)%Z in
  (n # 1000000)%Q.

(** ** Steps 1-4: rows, labels, paper records, embeddings *)

Record Paper : Type := {
  aid : string;
  t : string;
  au : string;
  pd : string;
  dm : string;
  sm : option string;
  ln : string;
  cid : Z
}.

Definition make_paper (cfg : Config) (r : PaperRow) : Paper :=
  {| aid := p_id r;
     t := or_str (p_title r) "";
     au := or_str (p_authors r) "";
     pd := or_str (p_published r) "";
     dm := or_str (p_domain_tag r) "unknown";
     sm := if include_summaries cfg
           then _trim (p_summary r) (max_summary_len cfg) else None;
     ln := or_str (p_link r) (p_id r);
     cid := p_cid r |}.

(** Step 2: [labels_by_cid], only the label of which is used. *)
Definition labels_by_cid (db : Database) : gmap Z (option string) :=
  match db_cluster_meta db with
  | None => ∅                                   (* OperationalError: pass *)
  | Some [] => ∅
  | Some rows =>
      let have_default :=
        existsb (λ r, bool_decide (m_method r = "default")) rows in
      let lab_rows :=
        if have_default
        then List.filter (λ r, bool_decide (m_method r = "default")) rows
        else rows in
      fold_left (λ m r, <[m_cluster_id r := m_label r]> m) lab_rows ∅
  end.

(** [np.frombuffer(blob, dtype=np.float32, count=dim)] *)
Definition vec_from_bytes (blob : list Q) (dim : Z) : result vec :=
  if (dim =? -1)%Z then Ok blob
  else if (dim <? -1)%Z then Raise ValueError_frombuffer
  else if (Z.of_nat (length blob) <? dim)%Z then Raise ValueError_frombuffer
  else Ok (take (Z.to_nat dim) blob).

Fixpoint rfoldl {A B} (f : A → B → result A) (l : list B) (a : A)
    : result A :=
  match l with
  | [] => Ok a
  | b :: l' => a' ← f a b; rfoldl f l' a'
  end.

(** [np.vstack]: all rows must have one length. *)
Definition vstack (rows : list vec) : result matrix :=
  match rows with
  | [] => Raise ValueError_vstack
  | r :: rs =>
      if forallb (λ r', length r' =? length r) rs then Ok rows
      else Raise ValueError_vstack
  end.

Section Embeddings.
Context `{NumPy}.

(** [v /= (np.linalg.norm(v) + 1e-12)] *)
Definition unit_norm (v : vec) : vec :=
  let n := (np_sqrt (dot v v) + tiny)%Q in
  map (λ x, (x / n)%Q) v.

(** The [SELECT ... WHERE model=? AND paper_id IN (...)] and the loop
    filling [vec_by_id] and [dim]. *)
Definition load_embeddings (db : Database) (ids : list string)
    : result (gmap string vec * option Z) :=
  let emb_rows :=
    List.filter (λ e, bool_decide (e_model e = EMB_MODEL)
                      && bool_decide (e_paper_id e ∈ ids))
                (db_embeddings db) in
  rfoldl (λ (st : gmap string vec * option Z) e,
    v ← vec_from_bytes (e_vector e) (e_dim e);
    Ok (<[e_paper_id e := unit_norm v]> st.1, Some (e_dim e)))
    emb_rows (∅, None).

(** Lines 144-149: the coverage check and the stacked matrix. *)
Definition embedding_matrix (vec_by_id : gmap string vec)
    (ids : list string) : result matrix :=
  let missing := List.filter (λ pid, bool_decide (vec_by_id !! pid = None))
                             ids in
  match missing with
  | _ :: _ => Raise (RuntimeError_missing (length missing))
  | [] => vstack (map (λ pid, default [] (vec_by_id !! pid)) ids)
  end.
End Embeddings.

(** ** Steps 8-11: coordinates, nodes, links, legend, payload *)

Section ExportGraph.
Context `{NumPy} `{Backends}.

(** Step 8: [(xs, ys)] (or [None]) and [layout_method_used]. *)
Definition compute_coords (cfg : Config) (X : matrix)
    (edge_list : list edge) (amb : Ambient)
    : result (option (list Z * list Z) * string) :=
  if include_coords cfg && (2 <=? length X)
     && negb (bool_decide (lower (coords_method cfg) = "none"))
  then
    cm ← select_layout cfg X edge_list amb;
    match cm.1 with
    | Some coords_arr =>
        norm ← normalize_and_spread coords_arr cm.2;
        Ok (Some (canvas_xs cfg norm, canvas_ys cfg norm), cm.2)
    | None => Ok (None, cm.2)
    end
  else Ok (None, "none").

(** [nd["x"] = int(xs[i]); nd["y"] = int(ys[i])] when coordinates exist. *)
Definition node_xy (xy : option (list Z * list Z)) (i : nat)
    : result (list (string * json)) :=
  match xy with
  | None => Ok []
  | Some (xs, ys) =>
      match xs !! i, ys !! i with
      | Some x, Some y => Ok [("x", JInt x); ("y", JInt y)]
      | _, _ => Raise IndexError
      end
  end.

(** Step 9, one node. *)
Definition make_node (cfg : Config) (xy : option (list Z * list Z))
    (i : nat) (p : Paper) : result json :=
  c ← node_xy xy i;
  if compact cfg then
    Ok (JDict ([("id", JInt (Z.of_nat i)); ("aid", JStr (aid p));
                ("t", JStr (t p)); ("au", JStr (au p));
                ("pd", JStr (pd p)); ("dm", JStr (dm p));
                ("ln", JStr (ln p)); ("cid", JInt (cid p))]
               ++ (if include_summaries cfg
                   then match sm p with
                        | Some s => [("sm", JStr s)]
                        | None => []
                        end
                   else [])
               ++ c))
  else
    Ok (JDict ([("id", JStr (aid p)); ("title", JStr (t p));
                ("authors", JStr (au p)); ("published", JStr (pd p));
                ("domain", JStr (dm p)); ("summary", JOptStr (sm p));
                ("link", JStr (ln p)); ("cid", JInt (cid p))]
               ++ c)).

(** Step 10, one link; [ids[a]] exists for every emitted edge. *)
Definition make_link (cfg : Config) (ids : list string) (e : edge) : json :=
  if compact cfg then
    JDict [("s", JInt (Z.of_nat e.1.1)); ("t", JInt (Z.of_nat e.1.2));
           ("w", JFloat (round6 e.2))]
  else
    JDict [("source", JStr (nth e.1.1 ids "")); 
           ("target", JStr (nth e.1.2 ids ""));
           ("weight", JFloat (round6 e.2))].

(** Step 11: [for cid in sorted(set(cluster_ids))]. *)
Definition make_clusters (labels : gmap Z (option string))
    (cluster_ids : list Z) : list (string * json) :=
  map (λ c,
    (pretty c,
     JDict [("label", JOptStr (default None (labels !! c)));
            ("size", JInt (Z.of_nat
               (length (List.filter (Z.eqb c) cluster_ids))))]))
    (merge_sort Z.le (remove_dups cluster_ids)).

Definition make_meta (cfg : Config) (dim : option Z) (generated_at : string)
    (included : bool) (layout_method_used : string) : json :=
  JDict [
    ("model", JStr EMB_MODEL);
    ("embedding_dim",
       JInt (match dim with
             | Some d => if (d =? 0)%Z then EMB_DIMS else d
             | None => EMB_DIMS
             end));
    ("generated_at", JStr generated_at);
    ("neighbors", JDict [("top_k", JInt (top_k cfg));
                         ("min_sim", JFloat (min_sim cfg));
                         ("same_cluster_only",
                            JBool (same_cluster_only cfg))]);
    ("coords", JDict [("included", JBool included);
                      ("method", JStr layout_method_used);
                      ("canvas", JDict [("w", JInt (canvas_w cfg));
                                        ("h", JInt (canvas_h cfg));
                                        ("pad", JInt (canvas_pad cfg))])]);
    ("compact", JBool (compact cfg))].

(** Step 7 applied to steps 5 and 6: [edge_list]. *)
Definition build_edges (cfg : Config) (X : matrix) (cluster_ids : list Z)
    : list edge :=
  dedup_edges
    (neighbors X cluster_ids (top_k cfg) (min_sim cfg)
               (same_cluster_only cfg))
    (cluster_mst_edges X cluster_ids (add_cluster_mst cfg))
    (min_sim cfg).

(** Everything [export_json_graph] computes before it opens the
    output file.  [generated_at] is the clock reading. *)
Definition build_payload (db : Database) (cfg : Config) (amb : Ambient)
    (generated_at : string) : result json :=
  match db_rows db with
  | [] => Raise RuntimeError_no_rows
  | rows =>
      let labels := labels_by_cid db in
      let papers := map (make_paper cfg) rows in
      let ids := map p_id rows in
      let cluster_ids := map p_cid rows in
      ve ← load_embeddings db ids;
      X ← embedding_matrix ve.1 ids;
      let edge_list := build_edges cfg X cluster_ids in
      xm ← compute_coords cfg X edge_list amb;
      nodes ← rmapM (λ ip : nat * Paper, make_node cfg xm.1 ip.1 ip.2)
                    (imap (λ i p, (i, p)) papers);
      let links := map (make_link cfg ids) edge_list in
      Ok (JDict [
        ("meta", make_meta cfg ve.2 generated_at
                   (bool_decide (is_Some xm.1)) xm.2);
        ("clusters", JDict (make_clusters labels cluster_ids));
        ("nodes", JList nodes);
        ("links", JList links)])
  end.

(** The file system: path to the JSON document stored there (the
    gzip variant stores the same document, compressed). *)
Definition export_json_graph (db : Database) (cfg : Config)
    (amb : Ambient) (generated_at : string) (fs : gmap string json)
    : gmap string json * result string :=
  match build_payload db cfg amb generated_at with
  | Raise e => (fs, Raise e)
  | Ok payload =>
      let path := if gzip_out cfg then out_path cfg +:+ ".gz"
                  else out_path cfg in
      (<[path := payload]> fs, Ok path)
  end.
End ExportGraph.

(* ================================================================== *)
(** * Part II: vocabulary of the properties                             *)
(* ================================================================== *)

(** ** Edge lists *)

(** [a, b = (u, v) if u < v else (v, u)] *)
Definition canon (u v : nat) : nat * nat :=
  if u <? v then (u, v) else (v, u).

(** Two index pairs that are one undirected pair. *)
Definition same_pair (p q : nat * nat) : Prop :=
  (p.1 = q.1 ∧ p.2 = q.2) ∨ (p.1 = q.2 ∧ p.2 = q.1).

(** The proposals in the order the export makes them: the pairs of
    [neigh_pairs] row by row, then the spanning-tree edges that pass the
    half-floor test. *)
Definition neighbor_stream (neigh_pairs : list (list (nat * Q))) : list edge :=
  flat_map (λ il : nat * list (nat * Q),
              map (λ js : nat * Q, (il.1, js.1, js.2)) il.2)
           (imap (λ i lst, (i, lst)) neigh_pairs).

Definition mst_stream (min_sim : Q) (mst_edges : list edge) : list edge :=
  List.filter (λ e : edge, Qle_bool (min_sim * (1 # 2)) e.2) mst_edges.

Definition proposals (neigh_pairs : list (list (nat * Q)))
    (mst_edges : list edge) (min_sim : Q) : list edge :=
  neighbor_stream neigh_pairs ++ mst_stream min_sim mst_edges.

(** What a run of [_emit_edge] over a stream appends, given [seen]. *)
Fixpoint dedup_from (seen : gset (nat * nat)) (s : list edge) : list edge :=
  match s with
  | [] => []
  | e :: s' =>
      let k := canon e.1.1 e.1.2 in
      if decide (k ∈ seen) then dedup_from seen s'
      else (k, e.2) :: dedup_from ({[k]} ∪ seen) s'
  end.

(** ** Clusters *)

(** The members of cluster [c], as [enumerate] meets them from [i0] on. *)
Fixpoint members_from (i0 : nat) (c : Z) (cids : list Z) : list nat :=
  match cids with
  | [] => []
  | c' :: cs =>
      (if decide (c = c') then [i0] else []) ++ members_from (S i0) c cs
  end.

(** ** Neighbor lists *)

(** "Ties broken by row index ascending": of two entries with equal
    similarity the one listed first has the smaller row index. *)
Definition ties_by_index (lst : list (nat * Q)) : Prop :=
  ∀ p q a b, p < q → lst !! p = Some a → lst !! q = Some b →
             (a.2 == b.2)%Q → a.1 < b.1.

(** The rows that may be returned for row [i]: any other row whose
    similarity reaches the floor. *)
Definition candidates (X : matrix) (min_sim : Q) (i : nat) : list nat :=
  List.filter (λ j, negb (j =? i)
                    && Qle_bool min_sim (dot (row X i) (row X j)))
              (seq 0 (length X)).

(** ** Undirected graphs given by an edge list *)

Definition adjacent (E : list edge) (x y : nat) : Prop :=
  ∃ w, (x, y, w) ∈ E.

(** Joined by a walk that may use every edge in either direction. *)
Definition connected (E : list edge) : nat → nat → Prop :=
  rtsc (adjacent E).

(** [x] is an end of some edge. *)
Definition touches (E : list edge) (x : nat) : Prop :=
  ∃ y w, (x, y, w) ∈ E ∨ (y, x, w) ∈ E.

(** No cycle: taking any one edge out disconnects its two ends. *)
Definition acyclic (E : list edge) : Prop :=
  ∀ E1 e E2, E = E1 ++ e :: E2 → ¬ connected (E1 ++ E2) e.1.1 e.1.2.

(** A spanning tree of the rows [indices] of [X], weighted by
    similarity. *)
Definition spanning_tree (X : matrix) (indices : list nat) (E : list edge)
    : Prop :=
  length E + 1 = length indices ∧
  (∀ u v w, (u, v, w) ∈ E →
            u ∈ indices ∧ v ∈ indices ∧ w = dot (row X u) (row X v)) ∧
  (∀ x y, x ∈ indices → y ∈ indices → connected E x y) ∧
  acyclic E.

(** What holds whenever the [while] condition is evaluated: the edges
    chosen so far form a tree on [in_tree]; every heap entry leaves the
    tree with its true similarity; every row still outside has an entry
    waiting. *)
Definition mst_inv (X : matrix) (indices : list nat) (i0 : nat)
    (T : gset nat) (heap : list heap_item) (mst : list edge) : Prop :=
  i0 ∈ T ∧ T ⊆ list_to_set indices ∧
  size T = length mst + 1 ∧
  (∀ u v w, (u, v, w) ∈ mst →
            u ∈ T ∧ v ∈ T ∧ w = dot (row X u) (row X v)) ∧
  (∀ x, x ∈ T → connected mst i0 x) ∧
  acyclic mst ∧
  (∀ d u v s, (d, u, v, s) ∈ heap →
              u ∈ T ∧ v ∈ indices ∧ s = dot (row X u) (row X v)) ∧
  (∀ w, w ∈ indices → w ∉ T → ∃ d u s, (d, u, w, s) ∈ heap).

(** ** Distances in a layout *)

(** Squared distance, as the code computes [d2]. *)
Definition dist2 (p q : point) : Q :=
  ((p.1 - q.1) * (p.1 - q.1) + (p.2 - q.2) * (p.2 - q.2))%Q.

(** The test [d2 < r_min*r_min and d2 > 1e-12] of the inner loop. *)
Definition pushable (r_min : Q) (p q : point) : bool :=
  Qltb (dist2 p q) (r_min * r_min) && Qltb tiny (dist2 p q).

(** No pair of the layout passes the test. *)
Definition settled (r_min : Q) (P : list point) : Prop :=
  ∀ i j pi pj, i < j → P !! i = Some pi → P !! j = Some pj →
               pushable r_min pi pj = false.

(** ** Reading the payload *)

Fixpoint assoc (k : string) (l : list (string * json)) : option json :=
  match l with
  | [] => None
  | (k', v) :: l' => if decide (k = k') then Some v else assoc k l'
  end.

(** [payload[k]] *)
Definition jfield (k : string) (j : json) : option json :=
  match j with
  | JDict l => assoc k l
  | _ => None
  end.

(** [payload["meta"]["coords"][k]] *)
Definition meta_coords (k : string) (payload : json) : option json :=
  (jfield "meta" payload ≫= jfield "coords") ≫= jfield k.

(** ** A reference NumPy

    One implementation that meets [NumPyContract], used to run the
    export on concrete inputs.  Selection and sorting are insertion
    sorts of the positions by value; among equal values the selection
    happens to leave the larger position first and the sort keeps the
    order it is given, both of which the contract allows.  [np_sqrt] is
    exact on squares of rationals and rounds down the numerator and
    denominator otherwise. *)

Definition ext_ltb (a b : ext) : bool := negb (ext_leb b a).

Definition pos_leb (desc : bool) (a : list ext) (i j : nat) : bool :=
  ext_ltb (getx a i) (getx a j)
  || (ext_leb (getx a i) (getx a j) && (if desc then j <=? i else i <=? j)).

Fixpoint insert_pos (leb : nat → nat → bool) (x : nat) (l : list nat)
    : list nat :=
  match l with
  | [] => [x]
  | y :: l' => if leb x y then x :: y :: l' else y :: insert_pos leb x l'
  end.

Definition sort_pos (leb : nat → nat → bool) (l : list nat) : list nat :=
  foldr (insert_pos leb) [] l.

Definition sqrt_ref (q : Q) : Q :=
  let r := Qred q in
  (Z.sqrt (Qnum r) # Pos.sqrt (Qden r))%Q.

Definition np_ref : NumPy := {|
  np_argpartition a kth := sort_pos (pos_leb true a) (seq 0 (length a));
  np_argsort a := sort_pos (pos_leb false a) (seq 0 (length a));
  np_sqrt := sqrt_ref
|}.

(** ** Sample inputs *)

(** Rows 0 and 1 name each other; the tree proposes the same pair
    again, a weak edge and a fresh one. *)
Definition neigh_sample : list (list (nat * Q)) :=
  [[(1, (9 # 10)%Q)]; [(0, (9 # 10)%Q)]].

Definition mst_sample : list edge :=
  [(0, 1, (8 # 10)%Q); (1, 2, (3 # 10)%Q); (2, 3, (5 # 10)%Q)].

(** Three unit vectors, the last two equally similar to the first. *)
Definition X_tie : matrix :=
  [[1; 0]; [3 # 5; 4 # 5]; [3 # 5; -(4 # 5)]]%Q.

Definition cfg_default : Config := {|
  out_path := "force_graph.json";
  compact := true;
  include_summaries := false;
  max_summary_len := 400;
  top_k := 8;
  min_sim := 17 # 20;
  same_cluster_only := false;
  include_coords := true;
  coords_method := "fr";
  fa2_iterations := 800;
  fa2_scaling := 2;
  fa2_gravity := 1;
  fr_iterations := 300;
  fr_seed := 42;
  umap_n_neighbors := 15;
  umap_min_dist := 1 # 10;
  umap_random_state := 42;
  pca_random_state := 42;
  canvas_w := 1000;
  canvas_h := 700;
  canvas_pad := 24;
  add_cluster_mst := true;
  gzip_out := false
|}.

Definition with_method (cfg : Config) (m : string) : Config := {|
  out_path := out_path cfg;
  compact := compact cfg;
  include_summaries := include_summaries cfg;
  max_summary_len := max_summary_len cfg;
  top_k := top_k cfg;
  min_sim := min_sim cfg;
  same_cluster_only := same_cluster_only cfg;
  include_coords := include_coords cfg;
  coords_method := m;
  fa2_iterations := fa2_iterations cfg;
  fa2_scaling := fa2_scaling cfg;
  fa2_gravity := fa2_gravity cfg;
  fr_iterations := fr_iterations cfg;
  fr_seed := fr_seed cfg;
  umap_n_neighbors := umap_n_neighbors cfg;
  umap_min_dist := umap_min_dist cfg;
  umap_random_state := umap_random_state cfg;
  pca_random_state := pca_random_state cfg;
  canvas_w := canvas_w cfg;
  canvas_h := canvas_h cfg;
  canvas_pad := canvas_pad cfg;
  add_cluster_mst := add_cluster_mst cfg;
  gzip_out := gzip_out cfg
|}.

Definition paper_row (id : string) (c : Z) : PaperRow := {|
  p_id := id;
  p_title := Some ("Paper " +:+ id);
  p_authors := None;
  p_published := Some "2024-01-01";
  p_summary := None;
  p_link := None;
  p_cid := c;
  p_domain_tag := None
|}.

Definition emb_row (id : string) (v : list Q) : EmbRow := {|
  e_paper_id := id;
  e_model := EMB_MODEL;
  e_dim := Z.of_nat (length v);
  e_vector := v
|}.

(** One kept paper with its embedding. *)
Definition db_one : Database := {|
  db_rows := [paper_row "a" 0];
  db_cluster_meta := None;
  db_embeddings := [emb_row "a" [1; 0]%Q]
|}.

(** Two kept papers of one cluster. *)
Definition db_two : Database := {|
  db_rows := [paper_row "a" 0; paper_row "b" 0];
  db_cluster_meta := None;
  db_embeddings := [emb_row "a" [1; 0]%Q; emb_row "b" [3 # 5; 4 # 5]%Q]
|}.

(** Two kept papers, the second without an embedding. *)
Definition db_gap : Database := {|
  db_rows := [paper_row "a" 0; paper_row "b" 0];
  db_cluster_meta := None;
  db_embeddings := [emb_row "a" [1; 0]%Q]
|}.

(** Positions on a diagonal, one per node. *)
Definition diagonal (n : nat) : list point :=
  map (λ i, (inject_Z (Z.of_nat i), inject_Z (Z.of_nat i))) (seq 0 n).

(** Every package installed and working. *)
Definition backends_ok : Backends := {|
  Ambient := unit;
  networkx_available := true;
  fa2_layout G _ _ _ _ := Some (diagonal (g_nodes G));
  spring_layout G _ _ := Some (diagonal (g_nodes G));
  umap_fit_transform X _ _ _ := Some (diagonal (length X));
  pca_fit_transform X _ := Some (diagonal (length X))
|}.

(** The force layouts raise; UMAP and PCA work. *)
Definition backends_force_broken : Backends := {|
  Ambient := unit;
  networkx_available := true;
  fa2_layout _ _ _ _ _ := None;
  spring_layout _ _ _ := None;
  umap_fit_transform X _ _ _ := Some (diagonal (length X));
  pca_fit_transform X _ := Some (diagonal (length X))
|}.

(** ForceAtlas2 and UMAP raise (say, they are not installed); the
    spring layout and PCA work. *)
Definition backends_first_choice_broken : Backends := {|
  Ambient := unit;
  networkx_available := true;
  fa2_layout _ _ _ _ _ := None;
  spring_layout G _ _ := Some (diagonal (g_nodes G));
  umap_fit_transform _ _ _ _ := None;
  pca_fit_transform X _ := Some (diagonal (length X))
|}.

(** networkx is not installed; UMAP and PCA work. *)
Definition backends_no_networkx : Backends := {|
  Ambient := unit;
  networkx_available := false;
  fa2_layout _ _ _ _ _ := None;
  spring_layout _ _ _ := None;
  umap_fit_transform X _ _ _ := Some (diagonal (length X));
  pca_fit_transform X _ := Some (diagonal (length X))
|}.

(** A ForceAtlas2 that starts from the positions the global random
    generator hands out: here the ambient state is the offset of the
    start positions and the layout keeps it. *)
Definition backends_fa2_random : Backends := {|
  Ambient := Z;
  networkx_available := true;
  fa2_layout G _ _ _ amb :=
    Some (map (λ i, (inject_Z (amb * Z.of_nat i), inject_Z (Z.of_nat i)))
              (seq 0 (g_nodes G)));
  spring_layout G _ _ := Some (diagonal (g_nodes G));
  umap_fit_transform X _ _ _ := Some (diagonal (length X));
  pca_fit_transform X _ := Some (diagonal (length X))
|}.

(** ** The rest of the module, its callers, and further vocabulary *)

(** ** Partial trees *)

(** The rows a partial tree grown from [i0] has reached: the start row
    and the far end of every edge chosen so far ([in_tree]). *)
Definition reached (i0 : nat) (E : list edge) : gset nat :=
  {[i0]} ∪ list_to_set (map (λ e : edge, e.1.2) E).

(** What the heap of [_cluster_mst] holds whenever the [while] condition
    is evaluated: every entry leaves the tree and carries the distance
    [1 - sim] of its pair, and every pair of a row in the tree and a row
    of the cluster outside of it has its entry. *)
Definition frontier_inv (X : matrix) (indices : list nat) (T : gset nat)
    (heap : list heap_item) : Prop :=
  (∀ d u v s, (d, u, v, s) ∈ heap →
     u ∈ T ∧ v ∈ indices ∧ s = dot (row X u) (row X v) ∧ d = (1 - s)%Q) ∧
  (∀ u' w, u' ∈ T → w ∈ indices → w ∉ T →
     ((1 - dot (row X u') (row X w))%Q, u', w,
      dot (row X u') (row X w)) ∈ heap).

(** ** Sums of coordinates *)

(** [a.sum()] of a column. *)
Definition Qsum (l : list Q) : Q := fold_right Qplus 0%Q l.

(** What a declutter pass keeps of a layout: the number of points and
    the sums of both coordinates. *)
Definition same_mass (P P' : list point) : Prop :=
  length P' = length P ∧
  (Qsum (map fst P') == Qsum (map fst P))%Q ∧
  (Qsum (map snd P') == Qsum (map snd P))%Q.

(** ** The command line ([utils.build_parser], [cmd_export_graph]) *)

(** The namespace [argparse] hands to [cmd_export_graph]: the options of
    the [export-graph] sub-command. *)
Record Args : Type := {
  arg_db : string;
  arg_out : string;
  arg_top_k : Z;
  arg_min_sim : Q;
  arg_same_cluster_only : bool;
  arg_no_mst : bool;
  arg_coords : string;
  arg_umap_n_neighbors : Z;
  arg_umap_min_dist : Q;
  arg_umap_rand : Z;
  arg_pca_rand : Z;
  arg_canvas_w : Z;
  arg_canvas_h : Z;
  arg_canvas_pad : Z;
  arg_include_summaries : bool;
  arg_max_summary_len : Z;
  arg_verbose : bool;
  arg_gzip : bool
}.

(** [--coords choices=["umap","pca","none","fr"]]: [argparse] exits on
    any other value before [cmd_export_graph] is called. *)
Definition coords_choices : list string := ["umap"; "pca"; "none"; "fr"].

(** The keyword arguments [cmd_export_graph] passes; the ForceAtlas2 and
    spring-layout parameters are not passed and keep the defaults of
    [export_json_graph]. *)
Definition args_config (args : Args) : Config := {|
  out_path := arg_out args;
  compact := negb (arg_verbose args);
  include_summaries := arg_include_summaries args;
  max_summary_len := arg_max_summary_len args;
  top_k := arg_top_k args;
  min_sim := arg_min_sim args;
  same_cluster_only := arg_same_cluster_only args;
  include_coords := negb (bool_decide (arg_coords args = "none"));
  coords_method := arg_coords args;
  fa2_iterations := 800;
  fa2_scaling := 2;
  fa2_gravity := 1;
  fr_iterations := 300;
  fr_seed := 42;
  umap_n_neighbors := arg_umap_n_neighbors args;
  umap_min_dist := arg_umap_min_dist args;
  umap_random_state := arg_umap_rand args;
  pca_random_state := arg_pca_rand args;
  canvas_w := arg_canvas_w args;
  canvas_h := arg_canvas_h args;
  canvas_pad := arg_canvas_pad args;
  add_cluster_mst := negb (arg_no_mst args);
  gzip_out := arg_gzip args
|}.

Section Command.
Context `{NumPy} `{Backends}.

(** [connect] gives the database stored under a path. *)
Definition cmd_export_graph (connect : string → Database) (args : Args)
    (amb : Ambient) (generated_at : string) (fs : gmap string json)
    : gmap string json * result string :=
  export_json_graph (connect (arg_db args)) (args_config args) amb
    generated_at fs.
End Command.

(** The namespace of [export-graph --out <out>] with every other option
    left at the default of the parser. *)
Definition default_args (db out : string) : Args := {|
  arg_db := db;
  arg_out := out;
  arg_top_k := 5;
  arg_min_sim := 17 # 20;
  arg_same_cluster_only := false;
  arg_no_mst := false;
  arg_coords := "fr";
  arg_umap_n_neighbors := 15;
  arg_umap_min_dist := 1 # 10;
  arg_umap_rand := 42;
  arg_pca_rand := 42;
  arg_canvas_w := 1000;
  arg_canvas_h := 700;
  arg_canvas_pad := 24;
  arg_include_summaries := false;
  arg_max_summary_len := 400;
  arg_verbose := false;
  arg_gzip := false
|}.

(** ** Reading the legend *)

(** [clusters[k]["size"]] *)
Definition legend_size (entry : json) : Z :=
  match jfield "size" entry with
  | Some (JInt z) => z
  | _ => 0%Z
  end.

Definition Zsum (l : list Z) : Z := fold_right Z.add 0%Z l.

(** ** [_to_jsonable] (lines 17-30) *)

(** A NumPy array of numbers, by its nesting: [tolist] turns it into
    nested lists of native numbers. *)
Inductive ndarray : Type :=
| NdInt (z : Z)
| NdFloat (q : Q)
| NdArr (items : list ndarray).

(** A dictionary key: a string, or an integer such as a cluster id. *)
Inductive pykey : Type :=
| KStr (s : string)
| KInt (z : Z).

#[global] Instance pykey_eq_dec : EqDecision pykey.
Proof. solve_decision. Defined.

(** The objects [_to_jsonable] tells apart; a dictionary is the list of
    its items in insertion order. *)
Inductive pyval : Type :=
| PNone
| PBool (b : bool)
| PInt (z : Z)
| PFloat (q : Q)
| PStr (s : string)
| PList (l : list pyval)
| PTuple (l : list pyval)
| PDict (items : list (pykey * pyval))
| NpInteger (z : Z)
| NpFloating (q : Q)
| NpArray (a : ndarray).

(** [str(k)] *)
Definition key_str (k : pykey) : string :=
  match k with
  | KStr s => s
  | KInt z => pretty z
  end.

(** [d[k] = v]: a key already present keeps its place and takes the new
    value. *)
Fixpoint dict_set (k : pykey) (v : pyval) (d : list (pykey * pyval))
    : list (pykey * pyval) :=
  match d with
  | [] => [(k, v)]
  | (k', v') :: d' =>
      if decide (k = k') then (k', v) :: d' else (k', v') :: dict_set k v d'
  end.

(** [{k: v for k, v in items}] *)
Definition dict_of (items : list (pykey * pyval)) : list (pykey * pyval) :=
  fold_left (λ d kv, dict_set kv.1 kv.2 d) items [].

(** [ndarray.tolist()] *)
Fixpoint tolist (a : ndarray) : pyval :=
  match a with
  | NdInt z => PInt z
  | NdFloat q => PFloat q
  | NdArr items => PList (map tolist items)
  end.

Fixpoint _to_jsonable (obj : pyval) : pyval :=
  match obj with
  | PDict items =>
      PDict (dict_of (map (λ kv : pykey * pyval,
                             (KStr (key_str kv.1), _to_jsonable kv.2)) items))
  | PList l => PList (map _to_jsonable l)
  | PTuple l => PList (map _to_jsonable l)
  | NpInteger z => PInt z
  | NpFloating q => PFloat q
  | NpArray a => tolist a
  | _ => obj
  end.

(** What [json.dump] accepts and writes back as it is: native scalars,
    lists, and dictionaries with string keys, each key once. *)
Fixpoint native (v : pyval) : Prop :=
  match v with
  | PNone | PBool _ | PInt _ | PFloat _ | PStr _ => True
  | PList l => foldr (λ x P, native x ∧ P) True l
  | PDict items =>
      NoDup items.*1 ∧
      foldr (λ kv P, (∃ s, kv.1 = KStr s) ∧ native kv.2 ∧ P) True items
  | _ => False
  end.

(** The payload as the Python object that is handed to [_to_jsonable]. *)
Fixpoint py_of_json (j : json) : pyval :=
  match j with
  | JNull => PNone
  | JBool b => PBool b
  | JInt z => PInt z
  | JFloat q => PFloat q
  | JStr s => PStr s
  | JList l => PList (map py_of_json l)
  | JDict items =>
      PDict (map (λ kv : string * json, (KStr kv.1, py_of_json kv.2)) items)
  end.

(* ================================================================== *)
(** * Part III: proofs                                                  *)
(* ================================================================== *)

(** ** EdgeDeduplicator *)

Lemma canon_le (u v : nat) : (canon u v).1 ≤ (canon u v).2.
Proof. unfold canon. destruct (Nat.ltb_spec u v); simpl; lia. Qed.

Lemma canon_same_pair (u v : nat) : same_pair (canon u v) (u, v).
Proof.
  unfold canon, same_pair. destruct (Nat.ltb_spec u v); simpl; auto.
Qed.

Lemma canon_of_same_pair (p q : nat * nat) :
  same_pair p q → canon p.1 p.2 = canon q.1 q.2.
Proof.
  destruct p as [a b], q as [c d]. unfold same_pair, canon. simpl.
  intros [[-> ->]|[-> ->]]; [done|].
  destruct (Nat.ltb_spec d c), (Nat.ltb_spec c d); try lia; try done.
  assert (c = d) by lia. by subst.
Qed.

Lemma canon_idem (u v : nat) :
  canon (canon u v).1 (canon u v).2 = canon u v.
Proof.
  unfold canon. destruct (Nat.ltb_spec u v) as [Hlt|Hge]; simpl.
  - by apply Nat.ltb_lt in Hlt as ->.
  - destruct (Nat.ltb_spec v u); [done|]. by replace u with v by lia.
Qed.

Lemma emit_fold_dedup_from (s : list edge) (st : dedup_state) :
  (fold_left (λ st (e : edge), _emit_edge st e.1.1 e.1.2 e.2) s st).2
  = st.2 ++ dedup_from st.1 s.
Proof.
  revert st. induction s as [|[[u v] w] s IH]; intros [seen out]; simpl.
  - by rewrite app_nil_r.
  - rewrite IH. unfold _emit_edge, canon. simpl.
    destruct (u <? v); simpl; case_decide; simpl; try done;
      by rewrite <- app_assoc.
Qed.

Lemma emit_fold_app (s : list edge) (st : dedup_state) :
  (fold_left (λ st (e : edge), _emit_edge st e.1.1 e.1.2 e.2) s st).1
  = st.1 ∪ list_to_set (map (λ e : edge, canon e.1.1 e.1.2) s).
Proof.
  revert st. induction s as [|[[u v] w] s IH]; intros [seen out]; simpl.
  - set_solver.
  - rewrite IH. unfold _emit_edge, canon. simpl.
    destruct (u <? v); simpl; case_decide; simpl; set_solver.
Qed.

Lemma emit_neighbors_stream (neigh_pairs : list (list (nat * Q)))
    (st : dedup_state) :
  emit_neighbors neigh_pairs st
  = fold_left (λ st (e : edge), _emit_edge st e.1.1 e.1.2 e.2)
              (neighbor_stream neigh_pairs) st.
Proof.
  unfold emit_neighbors, neighbor_stream.
  generalize (imap (λ i (lst : list (nat * Q)), (i, lst)) neigh_pairs).
  intros l. revert st. induction l as [|[i lst] l IH]; intros st; [done|].
  simpl. rewrite fold_left_app, IH. f_equal.
  clear. revert st. induction lst as [|[j w] lst IH]; intros st; [done|].
  simpl. by rewrite IH.
Qed.

Lemma emit_mst_stream (min_sim : Q) (mst_edges : list edge)
    (st : dedup_state) :
  emit_mst min_sim mst_edges st
  = fold_left (λ st (e : edge), _emit_edge st e.1.1 e.1.2 e.2)
              (mst_stream min_sim mst_edges) st.
Proof.
  unfold emit_mst, mst_stream. revert st.
  induction mst_edges as [|[[u v] w] l IH]; intros st; [done|].
  simpl. destruct (Qle_bool _ w); simpl; by rewrite IH.
Qed.

Lemma dedup_edges_unfold (neigh_pairs : list (list (nat * Q)))
    (mst_edges : list edge) (min_sim : Q) :
  dedup_edges neigh_pairs mst_edges min_sim
  = dedup_from ∅ (proposals neigh_pairs mst_edges min_sim).
Proof.
  unfold dedup_edges, proposals.
  rewrite emit_mst_stream, emit_neighbors_stream, <- fold_left_app.
  by rewrite emit_fold_dedup_from.
Qed.

Lemma dedup_from_first_seen (s : list edge) (seen : gset (nat * nat))
    (k : nat * nat) (w : Q) :
  (k, w) ∈ dedup_from seen s →
  (k ∉ seen) ∧
  (∃ s1 e s2, s = s1 ++ e :: s2 ∧ canon e.1.1 e.1.2 = k ∧ e.2 = w ∧
              ∀ e', e' ∈ s1 → canon e'.1.1 e'.1.2 ≠ k).
Proof.
  revert seen. induction s as [|e s IH]; intros seen Hin; simpl in Hin.
  - by apply elem_of_nil in Hin.
  - case_decide as Hk.
    + destruct (IH _ Hin) as (Hns & s1 & e0 & s2 & -> & Hc & Hw & Hfst).
      split; [done|]. exists (e :: s1), e0, s2. repeat split; try done.
      intros e' [->|He']%elem_of_cons; [congruence | by apply Hfst].
    + apply elem_of_cons in Hin as [Heq|Hin].
      * inversion Heq; subst. split; [done|].
        exists [], e, s. repeat split; try done.
        intros e' He'. by apply elem_of_nil in He'.
      * destruct (IH _ Hin) as (Hns & s1 & e0 & s2 & -> & Hc & Hw & Hfst).
        split; [set_solver|]. exists (e :: s1), e0, s2.
        repeat split; try done.
        intros e' [->|He']%elem_of_cons; [set_solver | by apply Hfst].
Qed.

Lemma dedup_from_nodup (s : list edge) (seen : gset (nat * nat)) :
  NoDup (dedup_from seen s).*1.
Proof.
  revert seen. induction s as [|e s IH]; intros seen; simpl.
  - constructor.
  - case_decide; [apply IH|]. simpl. constructor; [|apply IH].
    intros Hin. apply list_elem_of_fmap in Hin as [[k w] [Hk Hin]].
    simpl in Hk. subst k.
    apply dedup_from_first_seen in Hin as [Hns _]. set_solver.
Qed.

Lemma dedup_from_length (s : list edge) (seen : gset (nat * nat)) :
  length (dedup_from seen s) ≤ length s.
Proof.
  revert seen. induction s as [|e s IH]; intros seen; simpl; [done|].
  case_decide; simpl;
    [specialize (IH seen)
    |specialize (IH ({[canon e.1.1 e.1.2]} ∪ seen))]; lia.
Qed.

Lemma dedup_from_complete (s : list edge) (seen : gset (nat * nat))
    (e : edge) :
  e ∈ s → canon e.1.1 e.1.2 ∉ seen →
  ∃ w, (canon e.1.1 e.1.2, w) ∈ dedup_from seen s.
Proof.
  revert seen. induction s as [|e0 s IH]; intros seen Hin Hns.
  - by apply elem_of_nil in Hin.
  - simpl. apply elem_of_cons in Hin as [->|Hin].
    + case_decide; [done|]. exists e0.2. apply elem_of_cons. by left.
    + case_decide as Hk.
      * by apply IH.
      * destruct (decide (canon e.1.1 e.1.2 = canon e0.1.1 e0.1.2)) as [Heq|Hne].
        -- exists e0.2. rewrite Heq. apply elem_of_cons. by left.
        -- destruct (IH ({[canon e0.1.1 e0.1.2]} ∪ seen) Hin) as [w Hw];
             [set_solver|].
           exists w. apply elem_of_cons. by right.
Qed.

Lemma dedup_from_canonical (s : list edge) (seen : gset (nat * nat))
    (k : nat * nat) (w : Q) :
  (k, w) ∈ dedup_from seen s → canon k.1 k.2 = k.
Proof.
  intros (_ & s1 & e & s2 & _ & <- & _)%dedup_from_first_seen.
  apply canon_idem.
Qed.

Lemma elem_of_neighbor_stream (neigh_pairs : list (list (nat * Q)))
    (e : edge) :
  e ∈ neighbor_stream neigh_pairs ↔
  ∃ lst, neigh_pairs !! e.1.1 = Some lst ∧ (e.1.2, e.2) ∈ lst.
Proof.
  unfold neighbor_stream. rewrite list_elem_of_In, in_flat_map. split.
  - intros ([i lst] & Hil & Hin).
    apply list_elem_of_In, elem_of_lookup_imap in Hil
      as (i' & lst' & Heq & Hlk). inversion Heq; subst i' lst'.
    simpl in Hin. apply in_map_iff in Hin as ([j w] & <- & Hjw).
    simpl. exists lst. split; [done|]. by apply list_elem_of_In.
  - intros (lst & Hlk & Hin). exists (e.1.1, lst). split.
    + apply list_elem_of_In, elem_of_lookup_imap. by exists e.1.1, lst.
    + simpl. apply in_map_iff. exists (e.1.2, e.2). split.
      * by destruct e as [[??]?].
      * by apply list_elem_of_In.
Qed.

Lemma neighbor_stream_length (neigh_pairs : list (list (nat * Q))) :
  length (neighbor_stream neigh_pairs) = length (concat neigh_pairs).
Proof.
  unfold neighbor_stream.
  assert (∀ (l : list (list (nat * Q))) (g : nat → nat),
    length (flat_map (λ il : nat * list (nat * Q),
                        map (λ js : nat * Q, (il.1, js.1, js.2)) il.2)
             (imap (λ i lst, (g i, lst)) l)) = length (concat l)) as Hgen.
  { induction l as [|lst l IH]; intros g; [done|].
    simpl. rewrite !length_app, length_map. f_equal.
    apply (IH (g ∘ S)). }
  apply (Hgen neigh_pairs id).
Qed.

Lemma mst_stream_length (min_sim : Q) (mst_edges : list edge) :
  length (mst_stream min_sim mst_edges) ≤ length mst_edges.
Proof. apply List.filter_length_le. Qed.

(** C5.  The merged edge list has no two entries for one unordered
    pair; every entry has its smaller index first (the two are equal
    only when a source proposed a self pair); an entry carries the weight
    of the first proposal of its pair, the neighbor pairs being proposed
    before the spanning-tree edges; an entry comes from a neighbor pair
    or from a spanning-tree edge of similarity at least [min_sim * 0.5];
    every proposal's pair is present; and the list is no longer than the
    two inputs together. *)
Theorem dedup_edges_correct (neigh_pairs : list (list (nat * Q)))
    (mst_edges : list edge) (min_sim : Q) :
  let out := dedup_edges neigh_pairs mst_edges min_sim in
  let props := proposals neigh_pairs mst_edges min_sim in
  (∀ i j e1 e2, out !! i = Some e1 → out !! j = Some e2 →
                same_pair e1.1 e2.1 → i = j) ∧
  (∀ a b w, (a, b, w) ∈ out →
            a ≤ b ∧ (a = b → ∃ w', (a, a, w') ∈ props)) ∧
  (∀ a b w, (a, b, w) ∈ out →
            ∃ s1 e s2, props = s1 ++ e :: s2 ∧ same_pair e.1 (a, b) ∧
                       e.2 = w ∧
                       ∀ e', e' ∈ s1 → ¬ same_pair e'.1 (a, b)) ∧
  (∀ a b w, (a, b, w) ∈ out →
            (∃ i j lst, neigh_pairs !! i = Some lst ∧ (j, w) ∈ lst ∧
                        same_pair (i, j) (a, b)) ∨
            (∃ u v, (u, v, w) ∈ mst_edges ∧
                    (min_sim * (1 # 2) <= w)%Q ∧ same_pair (u, v) (a, b))) ∧
  (∀ e, e ∈ props → ∃ w, (canon e.1.1 e.1.2, w) ∈ out) ∧
  length out ≤ length (concat neigh_pairs) + length mst_edges.
Proof.
  intros out props. subst out. rewrite dedup_edges_unfold. fold props.
  assert (Hfs : ∀ a b w, (a, b, w) ∈ dedup_from ∅ props →
            ∃ s1 e s2, props = s1 ++ e :: s2 ∧ same_pair e.1 (a, b) ∧
                       e.2 = w ∧
                       ∀ e', e' ∈ s1 → ¬ same_pair e'.1 (a, b)).
  { intros a b w Hin.
    pose proof (dedup_from_canonical _ _ _ _ Hin) as Hcan. simpl in Hcan.
    apply dedup_from_first_seen in Hin
      as (_ & s1 & e & s2 & Hs & Hc & Hw & Hfst).
    exists s1, e, s2. repeat split; try done.
    - rewrite <- Hc. destruct (canon_same_pair e.1.1 e.1.2) as [[? ?]|[? ?]];
        destruct e as [[u v] ?]; simpl in *; unfold same_pair; simpl; auto.
    - intros e' He' Hsp. apply (Hfst e' He').
      destruct e' as [[u' v'] w']. simpl in *.
      pose proof (canon_of_same_pair (u', v') (a, b) Hsp) as Hc'.
      simpl in Hc'. congruence. }
  repeat split.
  - intros i j [k1 w1] [k2 w2] H1 H2 Hsp. simpl in Hsp.
    pose proof (list_elem_of_lookup_2 _ _ _ H1) as Hin1.
    pose proof (list_elem_of_lookup_2 _ _ _ H2) as Hin2.
    apply dedup_from_canonical in Hin1, Hin2.
    apply canon_of_same_pair in Hsp. rewrite Hin1, Hin2 in Hsp. subst k2.
    eapply NoDup_lookup; [apply (dedup_from_nodup props ∅)| |].
    + rewrite list_lookup_fmap, H1. done.
    + rewrite list_lookup_fmap, H2. done.
  - apply dedup_from_canonical in H. simpl in H.
    pose proof (canon_le a b) as Hle. rewrite H in Hle. done.
  - intros ->. destruct (Hfs _ _ _ H) as (s1 & [[u v] w0] & s2 & Hs & Hsp & Hw & _).
    simpl in *. exists w0. rewrite Hs. apply elem_of_app. right.
    apply elem_of_cons. left.
    destruct Hsp as [[? ?]|[? ?]]; simpl in *; by subst.
  - apply Hfs.
  - intros a b w Hin.
    destruct (Hfs _ _ _ Hin) as (s1 & [[u v] w0] & s2 & Hs & Hsp & Hw & _).
    simpl in *. subst w0.
    assert (Hmem : (u, v, w) ∈ props).
    { rewrite Hs. apply elem_of_app. right. apply elem_of_cons. by left. }
    apply elem_of_app in Hmem as [Hn|Hm].
    + left. apply elem_of_neighbor_stream in Hn as (lst & Hlk & Hjw).
      by exists u, v, lst.
    + right. unfold mst_stream in Hm.
      apply list_elem_of_In, filter_In in Hm as [Hm Hq]. simpl in Hq.
      exists u, v. repeat split; try done.
      * by apply list_elem_of_In.
      * by apply Qle_bool_iff.
  - intros e He. by apply dedup_from_complete.
  - etrans; [apply dedup_from_length|]. unfold props, proposals.
    rewrite length_app, neighbor_stream_length.
    pose proof (mst_stream_length min_sim mst_edges). lia.
Qed.

Lemma dedup_edges_correct_witness :
  dedup_edges neigh_sample mst_sample (17 # 20)
  = [(0, 1, (9 # 10)%Q); (2, 3, (5 # 10)%Q)] ∧
  length (dedup_edges neigh_sample mst_sample (17 # 20)) ≤ 2 + 3.
Proof.
  split; [reflexivity|].
  apply (dedup_edges_correct neigh_sample mst_sample (17 # 20)).
Defined.

(** ** NeighborGraphBuilder *)

Lemma Qle_bool_false (x y : Q) : Qle_bool x y = false ↔ (y < x)%Q.
Proof.
  split; intros Hxy.
  - apply Qnot_le_lt. intros Hle. apply Qle_bool_iff in Hle. congruence.
  - apply not_true_is_false. intros Hle%Qle_bool_iff. lra.
Qed.

(** Order of [ext] and its mirror under negation. *)
Lemma ext_leb_neg (a b : ext) :
  ext_leb (ext_neg a) (ext_neg b) = ext_leb b a.
Proof.
  destruct a as [|x|], b as [|y|]; simpl; try done.
  apply eq_true_iff_eq. rewrite !Qle_bool_iff. split; intros; lra.
Qed.

Lemma ext_leb_refl (a : ext) : ext_leb a a = true.
Proof. destruct a; simpl; try done. apply Qle_bool_iff. lra. Qed.

Lemma ext_leb_trans (a b c : ext) :
  ext_leb a b = true → ext_leb b c = true → ext_leb a c = true.
Proof.
  destruct a as [|x|], b as [|y|], c as [|z|]; simpl; try done.
  rewrite !Qle_bool_iff. lra.
Qed.

(** The similarities handed to the selection are finite or the mask. *)
Lemma sims_row_no_posinf (X : matrix) (i j : nat) :
  getx (sims_row X i) j ≠ PosInf.
Proof.
  unfold getx, sims_row. rewrite nth_lookup.
  destruct (decide (j = i)) as [->|Hne].
  - destruct (decide (i < length X)) as [Hi|Hi].
    + by rewrite list_lookup_insert_eq by (by rewrite length_map).
    + by rewrite (lookup_ge_None_2 _ i)
        by (rewrite length_insert, length_map; lia).
  - rewrite list_lookup_insert_ne by done. rewrite list_lookup_fmap.
    by destruct (X !! j).
Qed.

Lemma sims_cluster_no_posinf (X : matrix) (indices : list nat) (i j : nat) :
  getx (sims_cluster X indices i) j ≠ PosInf.
Proof.
  unfold getx, sims_cluster. rewrite nth_lookup, list_lookup_fmap.
  destruct (indices !! j) as [g|]; simpl; [|done]. by case_decide.
Qed.

Lemma map_nth_seq {A} (l : list A) (d : A) :
  map (λ p, nth p l d) (seq 0 (length l)) = l.
Proof.
  induction l as [|x l IH]; [done|].
  simpl. f_equal. rewrite <- seq_shift, map_map. apply IH.
Qed.

Lemma sorted_of_positions {A} (R : A → A → Prop) (l : list A) (d : A) :
  (∀ p q, p < q → q < length l → R (nth p l d) (nth q l d)) →
  StronglySorted R l.
Proof.
  induction l as [|x l IH]; intros Hpq; constructor.
  - apply IH. intros p q Hlt Hq. apply (Hpq (S p) (S q)); simpl; lia.
  - apply Forall_forall. intros y Hy.
    apply list_elem_of_In, (In_nth _ _ d) in Hy as (q & Hq & <-).
    apply (Hpq 0 (S q)); simpl; lia.
Qed.

Lemma sorted_flat_map {A B} (R : A → A → Prop) (R' : B → B → Prop)
    (f : A → list B) (l : list A) :
  (∀ x, length (f x) ≤ 1) →
  (∀ x y a b, R x y → a ∈ f x → b ∈ f y → R' a b) →
  StronglySorted R l → StronglySorted R' (flat_map f l).
Proof.
  intros Hone Hrel. induction 1 as [|x l Hs IH Hall]; simpl; [constructor|].
  pose proof (Hone x) as Hx.
  destruct (f x) as [|a [|? ?]] eqn:Hfx; simpl in *; [done| |lia].
  constructor; [done|]. apply Forall_forall. intros b Hb.
  apply list_elem_of_In, in_flat_map in Hb as (y & Hy & Hb).
  apply (Hrel x y); [|rewrite Hfx; apply list_elem_of_here
                    |by apply list_elem_of_In].
  rewrite Forall_forall in Hall. apply Hall. by apply list_elem_of_In.
Qed.

Section NeighborProofs.
Context `{NumPyContract}.

(** The selection keeps [k_eff] distinct positions of [sims], by
    decreasing value. *)
Lemma top_indices_spec (sims : list ext) (k_eff : Z) :
  (0 < k_eff ≤ Z.of_nat (length sims))%Z →
  let ti := top_indices sims k_eff in
  NoDup ti ∧ length ti = Z.to_nat k_eff ∧
  (∀ j, j ∈ ti → j < length sims) ∧
  StronglySorted
    (λ j1 j2, ext_leb (getx sims j2) (getx sims j1) = true) ti.
Proof.
  intros Hk. unfold top_indices.
  set (part := np_argpartition sims (- k_eff)).
  set (top_idx := drop (length part - Z.to_nat k_eff) part).
  set (a := map ext_neg (map (getx sims) top_idx)).
  assert (Hperm : part ≡ₚ seq 0 (length sims)).
  { apply argpartition_perm. unfold norm_kth.
    destruct (Z.ltb_spec (- k_eff) 0); lia. }
  assert (Hlen : length part = length sims).
  { by rewrite Hperm, length_seq. }
  assert (Hnd : NoDup part) by (rewrite Hperm; apply NoDup_seq).
  assert (Hndt : NoDup top_idx).
  { unfold top_idx. rewrite <- (take_drop (length part - Z.to_nat k_eff) part)
      in Hnd. by apply NoDup_app in Hnd as (_ & _ & ?). }
  assert (Hlt : length top_idx = Z.to_nat k_eff).
  { unfold top_idx. rewrite length_drop. lia. }
  assert (Hla : length a = length top_idx).
  { unfold a. by rewrite !length_map. }
  assert (Hord : np_argsort a ≡ₚ seq 0 (length top_idx)).
  { rewrite <- Hla. apply argsort_perm. }
  assert (Hti : map (λ p, nth p top_idx 0) (np_argsort a) ≡ₚ top_idx).
  { rewrite Hord. by rewrite map_nth_seq. }
  simpl. repeat split.
  - by rewrite Hti.
  - by rewrite Hti.
  - intros j Hj. rewrite Hti in Hj. unfold top_idx in Hj.
    apply subseteq_drop in Hj. rewrite <- Hlen.
    assert (j ∈ seq 0 (length sims)) as Hs by (by rewrite <- Hperm).
    apply elem_of_seq in Hs. lia.
  - apply (sorted_of_positions _ _ 0). intros p q Hpq Hq.
    rewrite length_map in Hq.
    assert (Hlo : length (np_argsort a) = length top_idx).
    { by rewrite Hord, length_seq. }
    assert (Hrange : ∀ r, r < length (np_argsort a) →
                          nth r (np_argsort a) 0 < length top_idx).
    { intros r Hr.
      assert (nth r (np_argsort a) 0 ∈ seq 0 (length top_idx)) as Hs.
      { rewrite <- Hord. apply list_elem_of_In, nth_In. done. }
      apply elem_of_seq in Hs. lia. }
    assert (Hget : ∀ o, o < length top_idx →
              getx a o = ext_neg (getx sims (nth o top_idx 0))).
    { intros o Ho. unfold getx at 1, a.
      rewrite (nth_indep _ NegInf (ext_neg (getx sims 0)))
        by (rewrite !length_map; lia).
      rewrite map_map.
      by rewrite (map_nth (λ x, ext_neg (getx sims x)) top_idx 0 o). }
    pose proof (argsort_sorted a p q ltac:(lia) ltac:(lia)) as Hs.
    rewrite !Hget in Hs by (apply Hrange; lia).
    rewrite ext_leb_neg in Hs.
    rewrite !(nth_indep (map _ _) 0 ((λ p, nth p top_idx 0) 0))
      by (rewrite length_map; lia).
    by rewrite !(map_nth (λ p, nth p top_idx 0)).
Qed.
End NeighborProofs.

Lemma elem_of_emit_pairs (min_sim : Q) (sims : list ext) (gidx : nat → nat)
    (ti : list nat) (j : nat) (s : Q) :
  (j, s) ∈ emit_pairs min_sim sims gidx ti ↔
  ∃ jj, jj ∈ ti ∧ getx sims jj = Fin s ∧ Qltb s min_sim = false ∧ j = gidx jj.
Proof.
  unfold emit_pairs. rewrite list_elem_of_In, in_flat_map. split.
  - intros (jj & Hjj & Hin). exists jj. apply list_elem_of_In in Hjj.
    destruct (getx sims jj) as [|q|]; simpl in Hin; try done.
    destruct (Qltb q min_sim) eqn:Hq; simpl in Hin; [done|].
    destruct Hin as [Heq|[]]. by inversion Heq; subst.
  - intros (jj & Hjj & Hg & Hq & ->). exists jj.
    split; [by apply list_elem_of_In|]. rewrite Hg, Hq. by left.
Qed.

Lemma emit_pairs_one (min_sim : Q) (sims : list ext) (gidx : nat → nat)
    (jj : nat) :
  length (match getx sims jj with
          | Fin sim => if Qltb sim min_sim then [] else [(gidx jj, sim)]
          | _ => []
          end) ≤ 1.
Proof.
  destruct (getx sims jj) as [|q|]; simpl; try lia.
  destruct (Qltb q min_sim); simpl; lia.
Qed.

Lemma emit_pairs_length (min_sim : Q) (sims : list ext) (gidx : nat → nat)
    (ti : list nat) :
  length (emit_pairs min_sim sims gidx ti) ≤ length ti.
Proof.
  unfold emit_pairs. induction ti as [|jj ti IH]; simpl; [done|].
  rewrite length_app. pose proof (emit_pairs_one min_sim sims gidx jj). lia.
Qed.

Lemma emit_pairs_sorted (min_sim : Q) (sims : list ext) (gidx : nat → nat)
    (ti : list nat) :
  StronglySorted (λ j1 j2, ext_leb (getx sims j2) (getx sims j1) = true) ti →
  StronglySorted (λ a b : nat * Q, (b.2 <= a.2)%Q)
                 (emit_pairs min_sim sims gidx ti).
Proof.
  apply sorted_flat_map.
  - intros jj. apply emit_pairs_one.
  - intros x y [j1 s1] [j2 s2] Hle H1 H2. simpl.
    destruct (getx sims x) as [|q1|] eqn:Hx; try by apply elem_of_nil in H1.
    destruct (getx sims y) as [|q2|] eqn:Hy; try by apply elem_of_nil in H2.
    destruct (Qltb q1 min_sim); [by apply elem_of_nil in H1|].
    destruct (Qltb q2 min_sim); [by apply elem_of_nil in H2|].
    apply list_elem_of_singleton in H1, H2. inversion H1; inversion H2; subst.
    simpl in Hle. by apply Qle_bool_iff.
Qed.

Lemma emit_pairs_nodup (min_sim : Q) (sims : list ext) (gidx : nat → nat)
    (ti : list nat) :
  NoDup ti →
  (∀ x y, x ∈ ti → y ∈ ti → gidx x = gidx y → x = y) →
  NoDup (emit_pairs min_sim sims gidx ti).*1.
Proof.
  induction 1 as [|jj ti Hni Hnd IH]; intros Hinj; [constructor|].
  replace (emit_pairs min_sim sims gidx (jj :: ti))
    with (emit_pairs min_sim sims gidx [jj]
          ++ emit_pairs min_sim sims gidx ti)
    by (unfold emit_pairs; simpl; by rewrite app_nil_r).
  rewrite fmap_app. apply NoDup_app. repeat split.
  - pose proof (emit_pairs_length min_sim sims gidx [jj]) as Hl.
    destruct (emit_pairs min_sim sims gidx [jj]) as [|? [|? ?]];
      simpl in *; try lia; [constructor|apply NoDup_singleton].
  - intros j H1 H2.
    apply list_elem_of_fmap in H1 as ([j1 s1] & -> & H1).
    apply list_elem_of_fmap in H2 as ([j2 s2] & Heq & H2). simpl in Heq.
    apply elem_of_emit_pairs in H1 as (x & Hx & _ & _ & ->).
    apply elem_of_emit_pairs in H2 as (y & Hy & _ & _ & ->).
    apply list_elem_of_singleton in Hx as ->.
    assert (jj = y) as ->; [|done].
    apply Hinj; [apply list_elem_of_here | by apply list_elem_of_further | done].
  - apply IH. intros x y Hx Hy. apply Hinj; by apply list_elem_of_further.
Qed.

Lemma getx_sims_row (X : matrix) (i j : nat) :
  getx (sims_row X i) j =
  if decide (j = i) then NegInf
  else if decide (j < length X) then Fin (dot (row X i) (row X j))
  else NegInf.
Proof.
  unfold getx, sims_row. rewrite nth_lookup.
  destruct (decide (j = i)) as [->|Hne].
  - destruct (decide (i < length X)) as [Hi|Hi].
    + rewrite list_lookup_insert_eq by (by rewrite length_map). done.
    + rewrite list_insert_ge by (rewrite length_map; lia).
      rewrite (lookup_ge_None_2 _ i) by (rewrite length_map; lia). done.
  - rewrite list_lookup_insert_ne by done. rewrite list_lookup_fmap.
    case_decide as Hj.
    + destruct (lookup_lt_is_Some_2 X j Hj) as [x Hx]. rewrite Hx. simpl.
      unfold row. by rewrite (nth_lookup_Some _ _ _ _ Hx).
    + rewrite (lookup_ge_None_2 X j) by lia. done.
Qed.

Lemma getx_sims_cluster (X : matrix) (indices : list nat) (i jj : nat) :
  jj < length indices →
  getx (sims_cluster X indices i) jj =
  if decide (nth jj indices 0 = i) then NegInf
  else Fin (dot (row X i) (row X (nth jj indices 0))).
Proof.
  intros Hjj. unfold getx, sims_cluster.
  rewrite (nth_indep _ NegInf
    ((λ g, if decide (g = i) then NegInf
           else Fin (dot (row X i) (row X g))) 0))
    by (by rewrite length_map).
  by rewrite (map_nth (λ g, if decide (g = i) then NegInf
                           else Fin (dot (row X i) (row X g)))).
Qed.

Lemma od_get_append {K V : Type} `{EqDecision K} (k c : K) (v : V)
    (d : list (K * list V)) :
  od_get c (od_append k v d)
  = if decide (c = k) then od_get c d ++ [v] else od_get c d.
Proof.
  induction d as [|[k' vs] d IH]; simpl.
  - by repeat case_decide.
  - destruct (decide (k = k')) as [->|Hkk]; simpl.
    + by repeat case_decide.
    + rewrite IH. repeat case_decide; try done; congruence.
Qed.

Lemma od_get_group_from (c : Z) (cids : list Z) (i0 : nat)
    (d : list (Z * list nat)) :
  od_get c (group_from i0 cids d) = od_get c d ++ members_from i0 c cids.
Proof.
  revert i0 d. induction cids as [|c' cs IH]; intros i0 d; simpl.
  - by rewrite app_nil_r.
  - rewrite IH, od_get_append. case_decide; simpl; [|done].
    by rewrite <- app_assoc.
Qed.

Lemma elem_of_members_from (c : Z) (cids : list Z) (i0 j : nat) :
  j ∈ members_from i0 c cids ↔
  i0 ≤ j ∧ j < i0 + length cids ∧ nth (j - i0) cids 0%Z = c.
Proof.
  revert i0. induction cids as [|c' cs IH]; intros i0; simpl.
  - split; [by intros ?%elem_of_nil | lia].
  - rewrite elem_of_app, IH. split.
    + intros [Hj|(? & ? & Hn)].
      * case_decide; [|by apply elem_of_nil in Hj].
        apply list_elem_of_singleton in Hj as ->.
        rewrite Nat.sub_diag. split; [lia|]. split; [lia|done].
      * split; [lia|]. split; [lia|].
        by replace (j - i0) with (S (j - S i0)) by lia.
    + intros (Hle & Hlt & Hn). destruct (decide (j = i0)) as [->|Hne].
      * left. rewrite Nat.sub_diag in Hn. subst c'.
        case_decide; [apply list_elem_of_here | done].
      * right. split; [lia|]. split; [lia|].
        by replace (j - i0) with (S (j - S i0)) in Hn by lia.
Qed.

Lemma members_from_nodup (c : Z) (cids : list Z) (i0 : nat) :
  NoDup (members_from i0 c cids).
Proof.
  revert i0. induction cids as [|c' cs IH]; intros i0; simpl; [constructor|].
  case_decide; simpl; [|apply IH]. constructor; [|apply IH].
  rewrite elem_of_members_from. lia.
Qed.

Lemma map_seq_offset {A} (f : nat → A) (a len s : nat) :
  map (λ r, f (a + r)) (seq s len) = map f (seq (a + s) len).
Proof.
  revert s. induction len as [|len IH]; intros s; [done|].
  simpl. f_equal. rewrite IH. by rewrite Nat.add_succ_r.
Qed.

(** Batching only groups the rows: row [i] is computed once, in order. *)
Lemma batches_cover {A} (f : nat → A) (B N : nat) :
  0 < B →
  flat_map (λ start, map (λ r, f (start + r))
                         (seq 0 (Nat.min (start + B) N - start)))
           (map (λ b, b * B) (seq 0 ((N + B - 1) / B)))
  = map f (seq 0 N).
Proof.
  intros HB.
  assert (Hgen : ∀ nb,
    flat_map (λ start, map (λ r, f (start + r))
                           (seq 0 (Nat.min (start + B) N - start)))
             (map (λ b, b * B) (seq 0 nb))
    = map f (seq 0 (Nat.min (nb * B) N))).
  { induction nb as [|nb IH]; [done|].
    rewrite seq_S, map_app, flat_map_app, IH. simpl.
    rewrite app_nil_r.
    replace (Nat.min (B + nb * B) N)
      with (Nat.min (nb * B) N + (Nat.min (nb * B + B) N - nb * B)) by lia.
    rewrite seq_app, map_app. f_equal. simpl.
    destruct (Nat.le_gt_cases N (nb * B)) as [Hge|Hlt].
    - by replace (Nat.min (nb * B + B) N - nb * B) with 0 by lia.
    - replace (Nat.min (nb * B) N) with (nb * B) by lia.
      rewrite (map_seq_offset f (nb * B) _ 0). by rewrite Nat.add_0_r. }
  rewrite Hgen. f_equal. f_equal.
  pose proof (Nat.div_mod_eq (N + B - 1) B) as Hdm.
  pose proof (Nat.mod_upper_bound (N + B - 1) B ltac:(lia)) as Hm.
  nia.
Qed.

Section NeighborRows.
Context `{NumPyContract}.

Lemma emit_top_spec (sims : list ext) (gidx : nat → nat) (k_eff : Z)
    (min_sim : Q) :
  (0 < k_eff ≤ Z.of_nat (length sims))%Z →
  (∀ x y, x < length sims → y < length sims → gidx x = gidx y → x = y) →
  let lst := emit_pairs min_sim sims gidx (top_indices sims k_eff) in
  length lst ≤ Z.to_nat k_eff ∧
  (∀ j s, (j, s) ∈ lst →
          ∃ jj, jj < length sims ∧ getx sims jj = Fin s ∧
                (min_sim <= s)%Q ∧ j = gidx jj) ∧
  StronglySorted (λ a b : nat * Q, (b.2 <= a.2)%Q) lst ∧
  NoDup lst.*1.
Proof.
  intros Hk Hinj.
  destruct (top_indices_spec sims k_eff Hk) as (Hnd & Hlen & Hrng & Hsort).
  simpl. repeat split.
  - etrans; [apply emit_pairs_length|]. lia.
  - intros j s (jj & Hjj & Hg & Hq & ->)%elem_of_emit_pairs.
    exists jj. repeat split; auto.
    unfold Qltb in Hq. apply negb_false_iff, Qle_bool_iff in Hq. done.
  - by apply emit_pairs_sorted.
  - apply emit_pairs_nodup; [done|]. intros x y Hx Hy. apply Hinj; auto.
Qed.

Lemma row_neighbors_spec (X : matrix) (top_k : Z) (min_sim : Q) (i : nat) :
  let lst := row_neighbors X top_k min_sim i in
  length lst ≤ Z.to_nat top_k ∧
  (∀ j s, (j, s) ∈ lst →
          j ≠ i ∧ j < length X ∧ s = dot (row X i) (row X j) ∧
          (min_sim <= s)%Q) ∧
  StronglySorted (λ a b : nat * Q, (b.2 <= a.2)%Q) lst ∧
  NoDup lst.*1.
Proof.
  unfold row_neighbors.
  destruct (Z.ltb_spec 0 (Z.min top_k (Z.of_nat (length X) - 1))) as [Hk|Hk];
    simpl.
  2: { split; [simpl; lia|].
       split; [intros j s Hin; by apply elem_of_nil in Hin|].
       split; constructor. }
  assert (Hls : length (sims_row X i) = length X).
  { unfold sims_row. by rewrite length_insert, length_map. }
  destruct (emit_top_spec (sims_row X i) id
              (Z.min top_k (Z.of_nat (length X) - 1)) min_sim)
    as (Hlen & Hmem & Hsort & Hnd); [lia|done|].
  split; [lia|]. split; [|done].
  intros j s Hin. destruct (Hmem _ _ Hin) as (jj & Hjj & Hg & Hq & ->).
  rewrite getx_sims_row in Hg. unfold id.
  destruct (decide (jj = i)); [done|].
  destruct (decide (jj < length X)); [|done].
  inversion Hg; subst. repeat split; done.
Qed.

Lemma row_neighbors_cluster_spec (X : matrix) (indices : list nat)
    (top_k : Z) (min_sim : Q) (i : nat) :
  NoDup indices →
  let lst := row_neighbors_cluster X indices top_k min_sim i in
  length lst ≤ Z.to_nat top_k ∧
  (∀ j s, (j, s) ∈ lst →
          j ≠ i ∧ j ∈ indices ∧ s = dot (row X i) (row X j) ∧
          (min_sim <= s)%Q) ∧
  StronglySorted (λ a b : nat * Q, (b.2 <= a.2)%Q) lst ∧
  NoDup lst.*1.
Proof.
  intros Hndi. unfold row_neighbors_cluster.
  set (sims := sims_cluster X indices i).
  assert (Hls : length sims = length indices).
  { unfold sims, sims_cluster. by rewrite length_map. }
  destruct (Z.ltb_spec 0 (Z.min top_k (Z.of_nat (length sims)))) as [Hk|Hk];
    simpl.
  2: { split; [simpl; lia|].
       split; [intros j s Hin; by apply elem_of_nil in Hin|].
       split; constructor. }
  destruct (emit_top_spec sims (λ jj, nth jj indices 0)
              (Z.min top_k (Z.of_nat (length sims))) min_sim)
    as (Hlen & Hmem & Hsort & Hnd); [lia| |].
  { intros x y Hx Hy Hxy. rewrite Hls in Hx, Hy.
    apply NoDup_ListNoDup in Hndi.
    by apply (proj1 (List.NoDup_nth indices 0) Hndi x y). }
  split; [lia|]. split; [|done].
  intros j s Hin. destruct (Hmem _ _ Hin) as (jj & Hjj & Hg & Hq & ->).
  rewrite Hls in Hjj. unfold sims in Hg.
  rewrite getx_sims_cluster in Hg by done.
  destruct (decide (nth jj indices 0 = i)); [done|].
  inversion Hg; subst. repeat split; try done.
  apply list_elem_of_In, nth_In. done.
Qed.

(** The selection is the best one: a position left out is no more
    similar than any position kept. *)
Lemma top_indices_dominate (sims : list ext) (k_eff : Z) (j j' : nat) :
  (0 < k_eff ≤ Z.of_nat (length sims))%Z →
  j ∈ top_indices sims k_eff → j' < length sims →
  j' ∉ top_indices sims k_eff →
  ext_leb (getx sims j') (getx sims j) = true.
Proof.
  intros Hk. unfold top_indices.
  set (part := np_argpartition sims (- k_eff)).
  set (top_idx := drop (length part - Z.to_nat k_eff) part).
  set (a := map ext_neg (map (getx sims) top_idx)).
  assert (Hnorm : norm_kth (length sims) (- k_eff)
                  = (Z.of_nat (length sims) - k_eff)%Z).
  { unfold norm_kth. destruct (Z.ltb_spec (- k_eff) 0); lia. }
  assert (Hrange : (0 ≤ norm_kth (length sims) (- k_eff)
                    < Z.of_nat (length sims))%Z) by lia.
  assert (Hperm : part ≡ₚ seq 0 (length sims))
    by (by apply argpartition_perm).
  assert (Hlen : length part = length sims) by (by rewrite Hperm, length_seq).
  assert (Hla : length a = length top_idx) by (unfold a; by rewrite !length_map).
  assert (Hti : map (λ p, nth p top_idx 0) (np_argsort a) ≡ₚ top_idx).
  { rewrite (argsort_perm a), Hla. by rewrite map_nth_seq. }
  rewrite !Hti. intros Hj Hj' Hnj'.
  set (kidx := length part - Z.to_nat k_eff).
  assert (Hkidx : Z.to_nat (norm_kth (length sims) (- k_eff)) = kidx)
    by (unfold kidx; lia).
  apply list_elem_of_lookup in Hj as [pj Hpj]. unfold top_idx in Hpj.
  rewrite lookup_drop in Hpj. fold kidx in Hpj.
  assert (Hin' : j' ∈ part).
  { rewrite Hperm. apply elem_of_seq. lia. }
  rewrite <- (take_drop kidx part) in Hin'.
  apply elem_of_app in Hin' as [Hin'|Hin']; [|done].
  apply elem_of_take in Hin' as (p' & Hp' & Hlt').
  pose proof (lookup_lt_Some _ _ _ Hpj) as Hltj.
  destruct (argpartition_pivot sims (- k_eff) p' Hrange ltac:(lia))
    as [Hlow _].
  destruct (argpartition_pivot sims (- k_eff) (kidx + pj) Hrange ltac:(lia))
    as [_ Hhigh].
  simpl in Hlow, Hhigh. fold part in Hlow, Hhigh.
  rewrite Hkidx in Hlow, Hhigh.
  rewrite (nth_lookup_Some _ _ _ _ Hp') in Hlow.
  rewrite (nth_lookup_Some _ _ _ _ Hpj) in Hhigh.
  eapply ext_leb_trans; [apply Hlow; lia | apply Hhigh; lia].
Qed.

(** In the global search a row that is not returned is no more similar
    to row [i] than any row that is. *)
Lemma row_neighbors_nearest (X : matrix) (top_k : Z) (min_sim : Q)
    (i j j' : nat) (s : Q) :
  (j, s) ∈ row_neighbors X top_k min_sim i →
  j' < length X → j' ≠ i →
  j' ∉ (row_neighbors X top_k min_sim i).*1 →
  (dot (row X i) (row X j') <= s)%Q.
Proof.
  unfold row_neighbors.
  destruct (Z.ltb_spec 0 (Z.min top_k (Z.of_nat (length X) - 1))) as [Hk|Hk];
    [|by intros ?%elem_of_nil].
  set (k_eff := Z.min top_k (Z.of_nat (length X) - 1)).
  assert (Hls : length (sims_row X i) = length X).
  { unfold sims_row. by rewrite length_insert, length_map. }
  intros (jj & Hjj & Hg & Hq & ->)%elem_of_emit_pairs Hj' Hne Hout.
  unfold Qltb in Hq. apply negb_false_iff, Qle_bool_iff in Hq.
  assert (Hg' : getx (sims_row X i) j' = Fin (dot (row X i) (row X j'))).
  { rewrite getx_sims_row. by rewrite decide_False, decide_True. }
  destruct (decide (j' ∈ top_indices (sims_row X i) k_eff)) as [Hin|Hnin].
  - destruct (Qltb (dot (row X i) (row X j')) min_sim) eqn:Hlt.
    + unfold Qltb in Hlt. apply negb_true_iff, Qle_bool_false in Hlt. lra.
    + exfalso. apply Hout, list_elem_of_fmap.
      exists (j', dot (row X i) (row X j')). split; [done|].
      apply elem_of_emit_pairs. by exists j'.
  - pose proof (top_indices_dominate (sims_row X i) k_eff jj j'
                  ltac:(unfold k_eff; lia) Hjj ltac:(lia) Hnin) as Hdom.
    rewrite Hg, Hg' in Hdom. simpl in Hdom. by apply Qle_bool_iff.
Qed.

Lemma BATCH_pos (N : nat) : 0 < BATCH N.
Proof. unfold BATCH. destruct (20000 <? N); lia. Qed.

Lemma neighbors_rows (X : matrix) (cids : list Z) (top_k : Z) (min_sim : Q)
    (sco : bool) :
  1 < length X →
  neighbors X cids top_k min_sim sco
  = map (λ i, if sco
              then row_neighbors_cluster X
                     (members_from 0 (nth i cids 0%Z) cids) top_k min_sim i
              else row_neighbors X top_k min_sim i)
        (seq 0 (length X)).
Proof.
  intros HN. unfold neighbors.
  destruct (Nat.ltb_spec 1 (length X)) as [_|?]; [|lia].
  destruct sco.
  - apply map_ext. intros i. unfold group_by_cid.
    by rewrite od_get_group_from.
  - unfold batch_starts.
    apply (batches_cover (row_neighbors X top_k min_sim)), BATCH_pos.
Qed.
End NeighborRows.

(** ** The reference NumPy meets the contract *)

Ltac ext_bool :=
  unfold pos_leb, ext_ltb in *;
  repeat match goal with
         | |- context [getx ?a ?i] => destruct (getx a i)
         | H : context [getx ?a ?i] |- _ => destruct (getx a i)
         end;
  simpl in *;
  repeat match goal with
         | b : bool |- _ => destruct b
         end;
  simpl in *;
  rewrite ?orb_true_iff, ?andb_true_iff, ?negb_true_iff, ?Qle_bool_iff,
          ?Qle_bool_false, ?Nat.leb_le in *.

Lemma pos_leb_total (desc : bool) (a : list ext) (i j : nat) :
  pos_leb desc a i j = true ∨ pos_leb desc a j i = true.
Proof.
  ext_bool; try (destruct (Qlt_le_dec q q0), (Qlt_le_dec q0 q),
                   (Nat.le_gt_cases i j)); intuition (first [lia | lra]).
Qed.

Lemma pos_leb_trans (desc : bool) (a : list ext) (i j k : nat) :
  pos_leb desc a i j = true → pos_leb desc a j k = true →
  pos_leb desc a i k = true.
Proof.
  ext_bool; intros; try (destruct (Qlt_le_dec q q1));
    intuition (first [lia | lra | discriminate]).
Qed.

Lemma pos_leb_ext_leb (desc : bool) (a : list ext) (i j : nat) :
  pos_leb desc a i j = true → ext_leb (getx a i) (getx a j) = true.
Proof. ext_bool; intros; intuition (first [lra | discriminate]). Qed.

Section InsertionSort.
Variable leb : nat → nat → bool.
Hypothesis leb_total : ∀ x y, leb x y = true ∨ leb y x = true.
Hypothesis leb_trans : ∀ x y z, leb x y = true → leb y z = true →
                                leb x z = true.

Lemma insert_pos_perm (x : nat) (l : list nat) : insert_pos leb x l ≡ₚ x :: l.
Proof.
  induction l as [|y l IH]; simpl; [done|].
  destruct (leb x y); [done|]. rewrite IH. apply perm_swap.
Qed.

Lemma sort_pos_perm (l : list nat) : sort_pos leb l ≡ₚ l.
Proof.
  induction l as [|x l IH]; simpl; [done|].
  by rewrite insert_pos_perm, IH.
Qed.

Lemma insert_pos_sorted (x : nat) (l : list nat) :
  StronglySorted (λ a b, leb a b = true) l →
  StronglySorted (λ a b, leb a b = true) (insert_pos leb x l).
Proof.
  induction 1 as [|y l Hs IH Hall]; simpl.
  - repeat constructor.
  - destruct (leb x y) eqn:Hxy.
    + constructor; [by constructor|]. constructor; [done|].
      eapply Forall_impl; [apply Hall|]. intros z Hz. simpl in Hz.
      by apply (leb_trans x y z).
    + constructor; [done|]. rewrite insert_pos_perm.
      constructor; [|done]. destruct (leb_total x y); congruence.
Qed.

Lemma sort_pos_sorted (l : list nat) :
  StronglySorted (λ a b, leb a b = true) (sort_pos leb l).
Proof.
  induction l as [|x l IH]; simpl; [constructor|].
  by apply insert_pos_sorted.
Qed.
End InsertionSort.

Lemma sorted_positions {A} (R : A → A → Prop) (l : list A) (d : A)
    (p q : nat) :
  StronglySorted R l → p < q → q < length l → R (nth p l d) (nth q l d).
Proof.
  intros Hs. revert p q. induction Hs as [|x l Hs IH Hall]; intros p q Hpq Hq.
  - simpl in Hq. lia.
  - destruct q as [|q]; [lia|]. simpl in Hq. destruct p as [|p]; simpl.
    + rewrite Forall_forall in Hall. apply Hall, list_elem_of_In, nth_In. lia.
    + apply IH; lia.
Qed.

Lemma sort_pos_nth (desc : bool) (a : list ext) (p q : nat) :
  let r := sort_pos (pos_leb desc a) (seq 0 (length a)) in
  p ≤ q → q < length a →
  ext_leb (getx a (nth p r 0)) (getx a (nth q r 0)) = true.
Proof.
  intros r Hpq Hq. destruct (decide (p = q)) as [->|Hne].
  - apply ext_leb_refl.
  - apply (pos_leb_ext_leb desc).
    apply (sorted_positions (λ i j, pos_leb desc a i j = true)).
    + apply sort_pos_sorted;
        [apply pos_leb_total | apply pos_leb_trans].
    + lia.
    + unfold r. by rewrite sort_pos_perm, length_seq.
Qed.

Lemma np_ref_contract : NumPyContract np_ref.
Proof.
  split; simpl.
  - intros a kth _. apply sort_pos_perm.
  - intros a kth p Hk Hp. simpl. split; intros Hle.
    + apply sort_pos_nth; lia.
    + apply sort_pos_nth; lia.
  - intros a. apply sort_pos_perm.
  - intros a p q Hpq Hq. by apply sort_pos_nth.
Qed.

Lemma neighbors_small (np : NumPy) (X : matrix) (cids : list Z) (top_k : Z)
    (min_sim : Q) (sco : bool) :
  length X ≤ 1 →
  neighbors X cids top_k min_sim sco = replicate (length X) [].
Proof.
  intros HN. unfold neighbors.
  by destruct (Nat.ltb_spec 1 (length X)); [lia|].
Qed.




(** ** ConnectivityAugmenter *)

(** *** Connectivity and cycles *)

Lemma connected_mono (E E' : list edge) (x y : nat) :
  (∀ e, e ∈ E → e ∈ E') → connected E x y → connected E' x y.
Proof.
  intros Hsub. unfold connected, rtsc.
  induction 1 as [|x y z Hxy _ IH]; [constructor|].
  eapply rtc_l; [|exact IH].
  destruct Hxy as [[w Hw]|[w Hw]]; [left|right]; exists w; auto.
Qed.

Lemma connected_edge (E : list edge) (u v : nat) (w : Q) :
  (u, v, w) ∈ E → connected E u v.
Proof. intros Hin. apply rtsc_lr. by exists w. Qed.

Lemma connected_isolated (E : list edge) (x y : nat) :
  connected E x y → ¬ touches E y → x = y.
Proof.
  unfold connected, rtsc.
  induction 1 as [|x y z Hxy _ IH]; [done|]. intros Hz.
  specialize (IH Hz). subst z. exfalso. apply Hz.
  destruct Hxy as [[w Hw]|[w Hw]]; exists x, w; auto.
Qed.

(** Hanging a new leaf [v] on [u] connects nothing that was apart. *)
Lemma connected_leaf (G : list edge) (u v : nat) (w : Q) (x y : nat) :
  ¬ touches G v → u ≠ v → x ≠ v → y ≠ v →
  connected (G ++ [(u, v, w)]) x y → connected G x y.
Proof.
  intros Hv Huv Hx Hy Hc.
  set (fold_leaf := λ z, if decide (z = v) then u else z).
  assert (Hgen : connected G (fold_leaf x) (fold_leaf y)).
  { clear Hx Hy. unfold connected, rtsc in Hc.
    induction Hc as [|x y z Hxy _ IH]; [reflexivity|].
    etrans; [|exact IH].
    assert (Hone : ∀ a b w', (a, b, w') ∈ G ++ [(u, v, w)] →
                     connected G (fold_leaf a) (fold_leaf b)).
    { intros a b w' [Hin|Hin]%elem_of_app.
      - unfold fold_leaf. repeat case_decide; subst.
        + reflexivity.
        + exfalso. apply Hv. exists b, w'. auto.
        + exfalso. apply Hv. exists a, w'. auto.
        + by apply (connected_edge _ _ _ w').
      - apply list_elem_of_singleton in Hin. inversion Hin; subst.
        unfold fold_leaf. repeat case_decide; try done; reflexivity. }
    destruct Hxy as [[w' Hw]|[w' Hw]].
    - by apply (Hone _ _ w').
    - symmetry. by apply (Hone _ _ w'). }
  unfold fold_leaf in Hgen. by repeat case_decide.
Qed.

Lemma acyclic_nil : acyclic [].
Proof. intros E1 e E2 Heq. by destruct E1. Qed.

Lemma acyclic_snoc (E : list edge) (u v : nat) (w : Q) :
  acyclic E → ¬ touches E v → u ≠ v → acyclic (E ++ [(u, v, w)]).
Proof.
  intros Hac Hv Huv E1 e E2 Heq.
  destruct (list_eq_nil_dec E2) as [->|Hne].
  - apply app_inj_tail in Heq as [-> <-]. simpl. rewrite app_nil_r.
    intros Hc. by apply connected_isolated in Hc.
  - destruct (exists_last Hne) as (E2' & e' & ->).
    rewrite app_comm_cons, app_assoc in Heq.
    apply app_inj_tail in Heq as [-> <-].
    rewrite app_assoc. intros Hc.
    assert (Hte : ∀ z, z = e.1.1 ∨ z = e.1.2 → z ≠ v).
    { intros z Hz ->. apply Hv. destruct e as [[a b] w']. simpl in *.
      destruct Hz as [->| ->]; [exists b, w'; left | exists a, w'; right];
        apply elem_of_app; right; apply list_elem_of_here. }
    apply connected_leaf in Hc; [by eapply Hac| |done|auto|auto].
    intros (y & w' & Hin). apply Hv. exists y, w'.
    rewrite !elem_of_app in Hin. rewrite !elem_of_app, !elem_of_cons.
    tauto.
Qed.

(** *** The heap and the frontier *)

Lemma heappop_perm (h : list heap_item) (x : heap_item)
    (h' : list heap_item) :
  heappop h = Some (x, h') → h ≡ₚ x :: h'.
Proof.
  revert x h'. induction h as [|y h IH]; intros x h' Hpop; [done|].
  simpl in Hpop. destruct (heappop h) as [[m r]|] eqn:Hh.
  - destruct (item_leb y m); injection Hpop as <- <-; [done|].
    rewrite (IH m r eq_refl). apply perm_swap.
  - injection Hpop as <- <-. destruct h; [done|].
    simpl in Hh. destruct (heappop h) as [[??]|]; [|done].
    by destruct (item_leb _ _).
Qed.

Lemma heappop_None (h : list heap_item) : heappop h = None → h = [].
Proof.
  destruct h as [|y h]; [done|]. simpl.
  destruct (heappop h) as [[m r]|]; [|done]. by destruct (item_leb y m).
Qed.

Lemma elem_of_push_frontier (X : matrix) (indices : list nat)
    (T : gset nat) (v : nat) (h : list heap_item) (x : heap_item) :
  x ∈ push_frontier X indices T v h ↔
  x ∈ h ∨ ∃ w, w ∈ indices ∧ (w ∉ T) ∧
               x = ((1 - dot (row X v) (row X w))%Q, v, w,
                    dot (row X v) (row X w)).
Proof.
  unfold push_frontier. revert h.
  induction indices as [|w0 l IH]; intros h; simpl.
  - split; [auto|]. intros [?|(w & Hw & _)]; [done|]. by apply elem_of_nil in Hw.
  - rewrite IH. case_decide as Hw0; unfold heappush.
    + split.
      * intros [?|(w & Hw & ? & ?)]; [auto|]. right. exists w.
        split; [by apply list_elem_of_further|done].
      * intros [?|(w & Hw & Hn & ?)]; [auto|].
        apply elem_of_cons in Hw as [->|Hw]; [done|]. right. by exists w.
    + rewrite elem_of_cons. split.
      * intros [[->|?]|(w & Hw & ? & ?)]; [|auto|].
        -- right. exists w0. split; [apply list_elem_of_here|done].
        -- right. exists w. split; [by apply list_elem_of_further|done].
      * intros [?|(w & Hw & Hn & ->)]; [auto|].
        apply elem_of_cons in Hw as [->|Hw]; [auto|]. right. by exists w.
Qed.

Lemma push_frontier_length (X : matrix) (indices : list nat)
    (T : gset nat) (v : nat) (h : list heap_item) :
  length (push_frontier X indices T v h) ≤ length h + length indices.
Proof.
  unfold push_frontier. revert h.
  induction indices as [|w0 l IH]; intros h; simpl; [lia|].
  etrans; [apply IH|]. case_decide; unfold heappush; simpl; lia.
Qed.

Lemma elem_of_mst_start (X : matrix) (i0 : nat) (rest : list nat)
    (x : heap_item) :
  x ∈ mst_start X i0 rest ↔
  ∃ j, j ∈ rest ∧ x = ((1 - dot (row X i0) (row X j))%Q, i0, j,
                       dot (row X i0) (row X j)).
Proof.
  unfold mst_start.
  assert (Hgen : ∀ h,
    x ∈ fold_left (λ h j, heappush h
           ((1 - dot (row X i0) (row X j))%Q, i0, j,
            dot (row X i0) (row X j))) rest h ↔
    x ∈ h ∨ ∃ j, j ∈ rest ∧
        x = ((1 - dot (row X i0) (row X j))%Q, i0, j,
             dot (row X i0) (row X j))).
  { induction rest as [|j0 l IH]; intros h; simpl.
    - split; [auto|]. intros [?|(j & Hj & _)]; [done|].
      by apply elem_of_nil in Hj.
    - rewrite IH. unfold heappush. rewrite elem_of_cons. split.
      + intros [[->|?]|(j & Hj & ?)]; [|auto|].
        * right. exists j0. split; [apply list_elem_of_here|done].
        * right. exists j. split; [by apply list_elem_of_further|done].
      + intros [?|(j & Hj & ->)]; [auto|].
        apply elem_of_cons in Hj as [->|Hj]; [auto|]. right. by exists j. }
  rewrite Hgen. split; [|auto]. intros [Hn|?]; [|done].
  by apply elem_of_nil in Hn.
Qed.

Lemma mst_start_length (X : matrix) (i0 : nat) (rest : list nat) :
  length (mst_start X i0 rest) = length rest.
Proof.
  unfold mst_start.
  assert (Hgen : ∀ h,
    length (fold_left (λ h j, heappush h
           ((1 - dot (row X i0) (row X j))%Q, i0, j,
            dot (row X i0) (row X j))) rest h) = length h + length rest).
  { induction rest as [|j0 l IH]; intros h; simpl; [lia|].
    rewrite IH. unfold heappush. simpl. lia. }
  by rewrite Hgen.
Qed.

(** *** The loop invariant *)

Section Prim.
Variable X : matrix.
Variable indices : list nat.
Variable i0 : nat.
Hypothesis indices_nodup : NoDup indices.

Lemma mst_inv_done (T : gset nat) (heap : list heap_item)
    (mst : list edge) :
  mst_inv X indices i0 T heap mst → length indices ≤ size T ∨ heap = [] →
  spanning_tree X indices mst.
Proof.
  intros (Hi0 & Hsub & Hsz & Hedges & Hconn & Hac & Hheap & Hwait) Hdone.
  assert (HT : T = list_to_set indices).
  { apply set_subseteq_size_eq; [done|].
    destruct Hdone as [Hle| ->].
    - by rewrite size_list_to_set.
    - apply subseteq_size. intros w Hw. apply elem_of_list_to_set in Hw.
      destruct (decide (w ∈ T)) as [|Hn]; [done|].
      destruct (Hwait w Hw Hn) as (d & u & s & Hin).
      by apply elem_of_nil in Hin. }
  assert (Hmem : ∀ x, x ∈ T ↔ x ∈ indices).
  { intros x. rewrite HT. apply elem_of_list_to_set. }
  split; [|split; [|split]].
  - rewrite <- Hsz, HT. by rewrite size_list_to_set.
  - intros u v w Hin. destruct (Hedges u v w Hin) as (Hu & Hv & Hw).
    by rewrite <- !Hmem.
  - intros x y Hx%Hmem Hy%Hmem. unfold connected.
    etrans; [symmetry; by apply Hconn | by apply Hconn].
  - done.
Qed.

Lemma mst_loop_spec (fuel : nat) (T : gset nat) (heap : list heap_item)
    (mst : list edge) :
  mst_inv X indices i0 T heap mst →
  length heap + (length indices - size T) * length indices < fuel →
  spanning_tree X indices (mst_loop fuel X indices T heap mst).
Proof.
  revert T heap mst. induction fuel as [|fuel IH]; intros T heap mst Hinv Hm;
    [by apply Nat.nlt_0_r in Hm|].
  simpl. destruct (Nat.ltb_spec (size T) (length indices)) as [Hlt|Hge].
  2: { eapply mst_inv_done; [done|]. by left. }
  destruct (heappop heap) as [[[[[d u] v] sim] heap']|] eqn:Hpop.
  2: { eapply mst_inv_done; [done|]. right. by apply heappop_None. }
  apply heappop_perm in Hpop.
  destruct Hinv as (Hi0 & Hsub & Hsz & Hedges & Hconn & Hac & Hheap & Hwait).
  assert (Hlen : length heap = S (length heap')) by (by rewrite Hpop).
  destruct (Hheap d u v sim) as (Hu & Hv & Hsim);
    [rewrite Hpop; apply list_elem_of_here|].
  case_decide as HvT.
  - apply IH; [|nia].
    repeat split; try done.
    + apply (Hedges _ _ _ H).
    + apply (Hedges _ _ _ H).
    + apply (Hedges _ _ _ H).
    + apply (Hheap d0 u0 v0 s). rewrite Hpop. by apply list_elem_of_further.
    + apply (Hheap d0 u0 v0 s). rewrite Hpop. by apply list_elem_of_further.
    + apply (Hheap d0 u0 v0 s). rewrite Hpop. by apply list_elem_of_further.
    + intros w Hw Hn. destruct (Hwait w Hw Hn) as (d' & u' & s' & Hin).
      rewrite Hpop in Hin. apply elem_of_cons in Hin as [Heq|Hin].
      * inversion Heq; subst. done.
      * by exists d', u', s'.
  - assert (Hsz' : size ({[v]} ∪ T) = S (size T)).
    { rewrite size_union by set_solver. by rewrite size_singleton. }
    assert (Hnt : ¬ touches mst v).
    { intros (y & w & [Hin|Hin]); apply Hedges in Hin; tauto. }
    assert (Huv : u ≠ v) by (intros ->; done).
    apply IH.
    + split; [set_solver|]. split.
      { apply union_subseteq. split; [|done].
        apply singleton_subseteq_l, elem_of_list_to_set. done. }
      split; [rewrite Hsz', length_app; simpl; lia|].
      split.
      { intros a b w [Hin|Hin]%elem_of_app.
        - apply Hedges in Hin as (? & ? & ?). set_solver.
        - apply list_elem_of_singleton in Hin. inversion Hin; subst.
          set_solver. }
      split.
      { intros x [Hx|Hx]%elem_of_union.
        - apply elem_of_singleton in Hx as ->. unfold connected.
          etrans; [apply (connected_mono mst); [|by apply Hconn]|].
          + intros e He. apply elem_of_app. by left.
          + apply (connected_edge _ _ _ sim), elem_of_app. right.
            apply list_elem_of_here.
        - apply (connected_mono mst); [|by apply Hconn].
          intros e He. apply elem_of_app. by left. }
      split; [by apply acyclic_snoc|].
      split.
      { intros d' u' v' s' [Hin|(w & Hw & Hn & Heq)]%elem_of_push_frontier.
        - destruct (Hheap d' u' v' s') as (? & ? & ?);
            [rewrite Hpop; by apply list_elem_of_further|].
          split; [set_solver|done].
        - inversion Heq; subst. split; [set_solver|done]. }
      intros w Hw Hn. eexists _, v, _. apply elem_of_push_frontier.
      right. exists w. done.
    + pose proof (push_frontier_length X indices ({[v]} ∪ T) v heap').
      rewrite Hsz'. nia.
Qed.
End Prim.

(** The loop always stops by its own condition: past the bound that
    [_cluster_mst] supplies, more fuel changes nothing. *)
Lemma mst_loop_fuel_mono (X : matrix) (indices : list nat)
    (fuel fuel' : nat) (T : gset nat) (heap : list heap_item)
    (mst : list edge) :
  length heap + (length indices - size T) * length indices < fuel →
  fuel ≤ fuel' →
  mst_loop fuel' X indices T heap mst = mst_loop fuel X indices T heap mst.
Proof.
  revert fuel' T heap mst.
  induction fuel as [|fuel IH]; intros fuel' T heap mst Hm Hle;
    [by apply Nat.nlt_0_r in Hm|].
  destruct fuel' as [|fuel']; [lia|]. simpl.
  destruct (Nat.ltb_spec (size T) (length indices)) as [Hlt|Hge]; [|done].
  destruct (heappop heap) as [[[[[d u] v] sim] heap']|] eqn:Hpop; [|done].
  apply heappop_perm in Hpop.
  assert (Hlen : length heap = S (length heap')) by (by rewrite Hpop).
  case_decide as HvT.
  - apply IH; [nia|lia].
  - apply IH; [|lia].
    assert (Hsz' : size ({[v]} ∪ T) = S (size T)).
    { rewrite size_union by set_solver. by rewrite size_singleton. }
    pose proof (push_frontier_length X indices ({[v]} ∪ T) v heap').
    rewrite Hsz'. nia.
Qed.

Lemma cluster_mst_fuel_irrelevant (X : matrix) (i0 i1 : nat)
    (rest : list nat) (fuel : nat) :
  let indices := i0 :: i1 :: rest in
  mst_fuel indices ≤ fuel →
  mst_loop fuel X indices {[i0]} (mst_start X i0 (i1 :: rest)) []
  = _cluster_mst X indices.
Proof.
  intros indices Hle. unfold _cluster_mst. fold indices.
  apply mst_loop_fuel_mono; [|done].
  rewrite mst_start_length, size_singleton. unfold mst_fuel, indices.
  simpl. lia.
Qed.

Lemma cluster_mst_spec (X : matrix) (indices : list nat) :
  NoDup indices →
  (2 ≤ length indices → spanning_tree X indices (_cluster_mst X indices)) ∧
  (length indices ≤ 1 → _cluster_mst X indices = []).
Proof.
  intros Hnd. split.
  - destruct indices as [|i0 [|i1 rest]]; [simpl; lia|simpl; lia|].
    intros _. unfold _cluster_mst.
    apply (mst_loop_spec X (i0 :: i1 :: rest) i0 Hnd).
    + split; [set_solver|]. split; [set_solver|].
      split; [by rewrite size_singleton|].
      split; [by intros u v w ?%elem_of_nil|].
      split; [intros x ->%elem_of_singleton; reflexivity|].
      split; [apply acyclic_nil|]. split.
      * intros d u v s (j & Hj & Heq)%elem_of_mst_start.
        inversion Heq; subst. split; [set_solver|].
        split; [by apply list_elem_of_further|done].
      * intros w Hw Hn. eexists _, i0, _. apply elem_of_mst_start.
        exists w. split; [|done].
        apply elem_of_cons in Hw as [->|Hw]; [set_solver|done].
    + rewrite mst_start_length, size_singleton. unfold mst_fuel.
      simpl. lia.
  - by destruct indices as [|i0 [|i1 rest]]; simpl; [| |lia].
Qed.

(** The dictionary [by_cluster] lists, under each cluster id, exactly
    the rows carrying it, in increasing order. *)
Lemma od_append_keys {K V : Type} `{EqDecision K} (k : K) (v : V)
    (d : list (K * list V)) :
  NoDup d.*1 → NoDup (od_append k v d).*1 ∧
               ∀ k', k' ∈ (od_append k v d).*1 ↔ k' = k ∨ k' ∈ d.*1.
Proof.
  induction d as [|[k0 vs] d IH]; simpl; intros Hnd.
  - split; [apply NoDup_singleton|]. intros k'.
    rewrite list_elem_of_singleton. set_solver.
  - apply NoDup_cons in Hnd as [Hk0 Hnd]. destruct (IH Hnd) as [IH1 IH2].
    case_decide as Hk; simpl.
    + subst k0. split; [by apply NoDup_cons|]. set_solver.
    + split.
      * apply NoDup_cons. split; [|done]. rewrite IH2. set_solver.
      * intros k'. rewrite !elem_of_cons, IH2. tauto.
Qed.

Lemma od_get_elem {K V : Type} `{EqDecision K} (c : K) (vs : list V)
    (d : list (K * list V)) :
  NoDup d.*1 → (c, vs) ∈ d → od_get c d = vs.
Proof.
  induction d as [|[k0 vs0] d IH]; simpl; intros Hnd Hin.
  - by apply elem_of_nil in Hin.
  - apply NoDup_cons in Hnd as [Hk0 Hnd].
    apply elem_of_cons in Hin as [Heq|Hin].
    + inversion Heq; subst. by case_decide.
    + case_decide as Hc; [|by apply IH]. subst k0. exfalso. apply Hk0.
      apply list_elem_of_fmap. by exists (c, vs).
Qed.

Lemma group_from_keys (i0 : nat) (cids : list Z) (d : list (Z * list nat)) :
  NoDup d.*1 → NoDup (group_from i0 cids d).*1.
Proof.
  revert i0 d. induction cids as [|c cs IH]; intros i0 d Hnd; simpl; [done|].
  apply IH. by apply od_append_keys.
Qed.

Lemma group_by_cid_members (cids : list Z) (c : Z) (idxs : list nat) :
  (c, idxs) ∈ group_by_cid cids → idxs = members_from 0 c cids.
Proof.
  intros Hin. unfold group_by_cid in *.
  rewrite <- (od_get_elem c idxs _ (group_from_keys 0 cids [] (NoDup_nil_2)) Hin).
  by rewrite od_get_group_from.
Qed.

(** C4.  Every entry of [by_cluster] lists the rows of one cluster, each
    once.  For a cluster of [M >= 2] rows [_cluster_mst] returns [M - 1]
    edges between rows of the cluster, each weighted by the similarity
    of its two ends, which connect every two rows of the cluster and
    contain no cycle; for a cluster of at most one row it returns no
    edge. *)
Theorem cluster_mst_spanning_tree (X : matrix) (cids : list Z) (c : Z)
    (idxs : list nat) :
  (c, idxs) ∈ group_by_cid cids →
  (∀ i, i ∈ idxs ↔ i < length cids ∧ nth i cids 0%Z = c) ∧
  NoDup idxs ∧
  (2 ≤ length idxs → spanning_tree X idxs (_cluster_mst X idxs)) ∧
  (length idxs ≤ 1 → _cluster_mst X idxs = []).
Proof.
  intros ->%group_by_cid_members. split; [|split].
  - intros i. rewrite elem_of_members_from, Nat.sub_0_r. simpl. lia.
  - apply members_from_nodup.
  - apply cluster_mst_spec, members_from_nodup.
Qed.

Lemma cluster_mst_spanning_tree_witness :
  (0%Z, [0; 1; 2]) ∈ group_by_cid [0; 0; 0]%Z ∧
  spanning_tree X_tie [0; 1; 2] (_cluster_mst X_tie [0; 1; 2]).
Proof.
  assert (Hin : (0%Z, [0; 1; 2]) ∈ group_by_cid [0; 0; 0]%Z)
    by (vm_compute; apply list_elem_of_here).
  split; [exact Hin|].
  apply (cluster_mst_spanning_tree X_tie [0; 0; 0]%Z 0%Z [0; 1; 2] Hin).
  simpl. lia.
Defined.

(** ** Precondition failures *)

Section Preconditions.
Context `{NumPy} `{Backends}.

Lemma rfoldl_embeddings (rows : list EmbRow)
    (st st' : gmap string (list Q) * option Z) :
  rfoldl (λ (st : gmap string (list Q) * option Z) e,
            v ← vec_from_bytes (e_vector e) (e_dim e);
            Ok (<[e_paper_id e := unit_norm v]> st.1, Some (e_dim e)))
         rows st = Ok st' →
  ∀ pid, is_Some (st'.1 !! pid) →
         is_Some (st.1 !! pid) ∨ ∃ e, e ∈ rows ∧ e_paper_id e = pid.
Proof.
  revert st. induction rows as [|e rows IH]; intros st Hr pid Hpid; simpl in Hr.
  - injection Hr as <-. by left.
  - destruct (vec_from_bytes (e_vector e) (e_dim e)) as [v|err] eqn:Hv;
      simpl in Hr; [|done].
    destruct (IH _ Hr pid Hpid) as [Hin|(e' & He' & Hid)].
    + simpl in Hin. destruct (decide (e_paper_id e = pid)) as [Heq|Hne].
      * right. exists e. split; [apply list_elem_of_here|done].
      * left. by rewrite lookup_insert_ne in Hin.
    + right. exists e'. split; [by apply list_elem_of_further|done].
Qed.

Lemma rfoldl_embeddings_error (rows : list EmbRow)
    (st : gmap string (list Q) * option Z) (err : error) :
  rfoldl (λ (st : gmap string (list Q) * option Z) e,
            v ← vec_from_bytes (e_vector e) (e_dim e);
            Ok (<[e_paper_id e := unit_norm v]> st.1, Some (e_dim e)))
         rows st = Raise err →
  err = ValueError_frombuffer.
Proof.
  revert st. induction rows as [|e rows IH]; intros st Hr; simpl in Hr; [done|].
  destruct (vec_from_bytes (e_vector e) (e_dim e)) as [v|err'] eqn:Hv;
    simpl in Hr.
  - by eapply IH.
  - injection Hr as <-. unfold vec_from_bytes in Hv.
    repeat case_match; congruence.
Qed.

Lemma load_embeddings_dom (db : Database) (ids : list string)
    (ve : gmap string (list Q) * option Z) (pid : string) :
  load_embeddings db ids = Ok ve → is_Some (ve.1 !! pid) →
  ∃ e, e ∈ db_embeddings db ∧ e_model e = EMB_MODEL ∧ e_paper_id e = pid.
Proof.
  unfold load_embeddings. intros Hr Hpid.
  destruct (rfoldl_embeddings _ _ _ Hr pid Hpid) as [Hin|(e & He & Hid)].
  - simpl in Hin. rewrite lookup_empty in Hin. by destruct Hin.
  - apply list_elem_of_In, filter_In in He as [He Hf].
    apply andb_true_iff in Hf as [Hm _]. apply bool_decide_eq_true in Hm.
    exists e. split; [by apply list_elem_of_In|done].
Qed.

(** Nothing is written unless the payload was built. *)
Lemma export_raise (db : Database) (cfg : Config) (amb : Ambient)
    (generated_at : string) (fs : gmap string json) (e : error) :
  build_payload db cfg amb generated_at = Raise e →
  export_json_graph db cfg amb generated_at fs = (fs, Raise e).
Proof. unfold export_json_graph. by intros ->. Qed.

(** C9.  When the first query returns no row, or some returned paper
    has no row in [embeddings] for the model, the export raises (the
    "no kept/clustered papers" error, respectively the "papers missing
    embeddings" error unless decoding a blob has already failed) and the
    file system is left as it was. *)
Theorem export_precondition_failure (db : Database) (cfg : Config)
    (amb : Ambient) (generated_at : string) (fs : gmap string json) :
  db_rows db = [] ∨
  (∃ r, r ∈ db_rows db ∧
        ∀ e, e ∈ db_embeddings db →
             ¬ (e_model e = EMB_MODEL ∧ e_paper_id e = p_id r)) →
  ∃ err, export_json_graph db cfg amb generated_at fs = (fs, Raise err) ∧
         (db_rows db = [] → err = RuntimeError_no_rows) ∧
         (db_rows db ≠ [] →
          err = ValueError_frombuffer ∨
          ∃ n, 1 ≤ n ∧ err = RuntimeError_missing n).
Proof.
  intros [Hrows|(r & Hr & Hnone)].
  - exists RuntimeError_no_rows. split; [|by split].
    apply export_raise. unfold build_payload. by rewrite Hrows.
  - destruct (db_rows db) as [|r0 rows] eqn:Hrows;
      [by apply elem_of_nil in Hr|].
    set (ids := map p_id (r0 :: rows)).
    destruct (load_embeddings db ids) as [ve|err] eqn:Hload.
    + set (missing := List.filter
             (λ pid, bool_decide (ve.1 !! pid = None)) ids).
      assert (Hmiss : p_id r ∈ missing).
      { apply list_elem_of_In, filter_In. split.
        - apply in_map, list_elem_of_In. done.
        - apply bool_decide_eq_true. apply eq_None_not_Some. intros Hsome.
          destruct (load_embeddings_dom _ _ _ _ Hload Hsome)
            as (e & He & Hm & Hid).
          by apply (Hnone e He). }
      exists (RuntimeError_missing (length missing)).
      split; [|split; [done|]].
      * apply export_raise. unfold build_payload. rewrite Hrows.
        fold ids. rewrite Hload. simpl. unfold embedding_matrix.
        fold missing. destruct missing; [by apply elem_of_nil in Hmiss|done].
      * intros _. right. exists (length missing). split; [|done].
        destruct missing; [by apply elem_of_nil in Hmiss|simpl; lia].
    + exists err. split; [|split; [done|]].
      * apply export_raise. unfold build_payload. rewrite Hrows.
        fold ids. by rewrite Hload.
      * intros _. left. unfold load_embeddings in Hload.
        by apply rfoldl_embeddings_error in Hload.
Qed.
End Preconditions.

Lemma export_precondition_failure_witness :
  ∃ err, export_json_graph (H:=np_ref) (H0:=backends_ok)
           db_gap cfg_default tt "2024-01-01T00:00:00+00:00" ∅
         = (∅, Raise err).
Proof.
  destruct (export_precondition_failure (H:=np_ref) (H0:=backends_ok)
              db_gap cfg_default tt "2024-01-01T00:00:00+00:00" ∅)
    as (err & Herr & _).
  - right. exists (paper_row "b" 0). split.
    + vm_compute. apply list_elem_of_further, list_elem_of_here.
    + intros e He [_ Hid]. vm_compute in He.
      apply list_elem_of_singleton in He. subst e. discriminate Hid.
  - by exists err.
Defined.

(** ** LayoutEngine: selection and fallback *)

Lemma Ok_inj {A} (a b : A) : Ok a = Ok b → a = b.
Proof. by intros [= ->]. Qed.

Lemma rbind_ok {A B} (m : result A) (k : A → result B) (b : B) :
  m ≫= k = Ok b → ∃ a, m = Ok a ∧ k a = Ok b.
Proof. destruct m as [a|e]; simpl; [|done]. intros Hk. by exists a. Qed.

Section LayoutProofs.
Context `{NumPy} `{Backends}.

(** What [build_payload] returns when it returns. *)
Lemma build_payload_ok (db : Database) (cfg : Config) (amb : Ambient)
    (generated_at : string) (payload : json) :
  build_payload db cfg amb generated_at = Ok payload →
  ∃ ve X xm nodes,
    db_rows db ≠ [] ∧
    load_embeddings db (map p_id (db_rows db)) = Ok ve ∧
    embedding_matrix ve.1 (map p_id (db_rows db)) = Ok X ∧
    compute_coords cfg X (build_edges cfg X (map p_cid (db_rows db))) amb
      = Ok xm ∧
    rmapM (λ ip : nat * Paper, make_node cfg xm.1 ip.1 ip.2)
          (imap (λ i p, (i, p)) (map (make_paper cfg) (db_rows db)))
      = Ok nodes ∧
    payload = JDict [
      ("meta", make_meta cfg ve.2 generated_at
                 (bool_decide (is_Some xm.1)) xm.2);
      ("clusters", JDict (make_clusters (labels_by_cid db)
                            (map p_cid (db_rows db))));
      ("nodes", JList nodes);
      ("links", JList (map (make_link cfg (map p_id (db_rows db)))
                           (build_edges cfg X (map p_cid (db_rows db)))))].
Proof.
  unfold build_payload. destruct (db_rows db) as [|r0 rows] eqn:Hrows; [done|].
  rewrite <- Hrows. intros Hp.
  apply rbind_ok in Hp as (ve & Hl & Hp).
  apply rbind_ok in Hp as (X & HX & Hp).
  apply rbind_ok in Hp as (xm & Hc & Hp).
  apply rbind_ok in Hp as (nodes & Hn & Hp).
  injection Hp as <-. exists ve, X, xm, nodes.
  split; [by rewrite Hrows|done].
Qed.

Lemma compute_coords_method (cfg : Config) (X : matrix)
    (edge_list : list edge) (amb : Ambient)
    (xm : option (list Z * list Z) * string) :
  compute_coords cfg X edge_list amb = Ok xm →
  (xm = (None, "none") ∧
   (include_coords cfg = false ∨ length X < 2 ∨
    lower (coords_method cfg) = "none")) ∨
  (∃ c, select_layout cfg X edge_list amb = Ok (c, xm.2) ∧
        (is_Some xm.1 ↔ is_Some c)).
Proof.
  unfold compute_coords.
  destruct (include_coords cfg) eqn:Hic; cbn [andb];
    [|intros <-%Ok_inj; left; auto].
  destruct (Nat.leb_spec 2 (length X)) as [HN|HN]; cbn [andb];
    [|intros <-%Ok_inj; left; split; [done|right; left; lia]].
  case_bool_decide; cbn [negb]; [intros <-%Ok_inj; left; auto|].
  destruct (select_layout cfg X edge_list amb) as [[c m]|] eqn:Hs;
    simpl; [|done].
  destruct c as [coords_arr|]; simpl.
  - destruct (normalize_and_spread coords_arr m) as [norm|]; simpl; [|done].
    intros <-%Ok_inj. right. exists (Some coords_arr). simpl.
    split; [done|]. split; eauto.
  - intros <-%Ok_inj. right. exists None. simpl. split; [done|].
    split; intros [? ?]; done.
Qed.

End LayoutProofs.



(** ** Reproducibility *)

Section Determinism.
Context `{NumPy} `{Backends}.

Lemma select_layout_ambient (cfg : Config) (X : matrix)
    (edge_list : list edge) (amb1 amb2 : Ambient) :
  lower (coords_method cfg) ≠ "fa2" ∨
  (∀ G it sc gr, fa2_layout G it sc gr amb1 = fa2_layout G it sc gr amb2) →
  select_layout cfg X edge_list amb1 = select_layout cfg X edge_list amb2.
Proof.
  intros Hdet. unfold select_layout, force_branch.
  destruct (decide (lower (coords_method cfg) = "fa2")) as [Hfa2|Hn].
  - destruct Hdet as [Hne|Hsame]; [done|]. by rewrite Hsame.
  - done.
Qed.

End Determinism.



(** ** A single item *)

Section SingleItem.
Context `{NumPy} `{Backends}.

Lemma build_edges_single (cfg : Config) (v : list Q) (c : Z) :
  build_edges cfg [v] [c] = [].
Proof.
  unfold build_edges, neighbors, cluster_mst_edges. simpl.
  by destruct (add_cluster_mst cfg).
Qed.

Lemma compute_coords_single (cfg : Config) (v : list Q)
    (edge_list : list edge) (amb : Ambient) :
  compute_coords cfg [v] edge_list amb = Ok (None, "none").
Proof. unfold compute_coords. simpl. by rewrite andb_false_r. Qed.

(** C8 (as amended).  When the first query returns exactly one paper
    and its embedding loads, the export builds a payload for every
    configuration: the edge list is empty, so there are no links; the
    layout step is skipped by its guard [N >= 2] whatever was requested,
    so the single node carries no "x" and no "y",
    [meta.coords.included] is false and [meta.coords.method] is
    "none". *)
Theorem export_single_item (db : Database) (cfg : Config) (amb : Ambient)
    (generated_at : string) (r : PaperRow)
    (ve : gmap string (list Q) * option Z) (v : list Q) :
  db_rows db = [r] →
  load_embeddings db [p_id r] = Ok ve →
  ve.1 !! p_id r = Some v →
  ∃ payload nd,
    build_payload db cfg amb generated_at = Ok payload ∧
    jfield "links" payload = Some (JList []) ∧
    jfield "nodes" payload = Some (JList [JDict nd]) ∧
    assoc "x" nd = None ∧ assoc "y" nd = None ∧
    meta_coords "included" payload = Some (JBool false) ∧
    meta_coords "method" payload = Some (JStr "none").
Proof.
  intros Hrows Hload Hv. unfold build_payload. rewrite Hrows.
  cbn [map]. rewrite Hload. cbn [mbind result_bind].
  unfold embedding_matrix. cbn [List.filter map].
  rewrite Hv. cbn [bool_decide decide_rel default vstack forallb].
  rewrite bool_decide_eq_false_2 by done.
  cbn [mbind result_bind].
  rewrite build_edges_single, compute_coords_single.
  cbn [mbind result_bind imap rmapM fst snd].
  unfold make_node. cbn [node_xy mbind result_bind].
  destruct (compact cfg).
  - eexists _, _. split; [reflexivity|].
    repeat split; try reflexivity;
      destruct (include_summaries cfg); try destruct (sm _); reflexivity.
  - eexists _, _. split; [reflexivity|]. repeat split; reflexivity.
Qed.
End SingleItem.

Lemma export_single_item_witness :
  ∃ payload nd,
    build_payload (H:=np_ref) (H0:=backends_ok) db_one cfg_default tt
      "2024-01-01T00:00:00+00:00" = Ok payload ∧
    jfield "links" payload = Some (JList []) ∧
    jfield "nodes" payload = Some (JList [JDict nd]) ∧
    assoc "x" nd = None ∧ assoc "y" nd = None ∧
    meta_coords "included" payload = Some (JBool false) ∧
    meta_coords "method" payload = Some (JStr "none").
Proof.
  eapply (export_single_item (H:=np_ref) (H0:=backends_ok) db_one cfg_default
            tt "2024-01-01T00:00:00+00:00" (paper_row "a" 0)).
  - reflexivity.
  - vm_compute. reflexivity.
  - vm_compute. reflexivity.
Defined.

(** C8, the part that fails: coordinates are requested
    ([include_coords], method "fr", every back-end working), yet for a
    single item no coordinate pair is produced: the node has neither
    "x" nor "y" and the metadata says that coordinates are not
    included. *)
Lemma single_item_gets_no_coordinates :
  include_coords cfg_default = true ∧
  coords_method cfg_default = "fr" ∧
  ∃ payload nd,
    build_payload (H:=np_ref) (H0:=backends_ok) db_one cfg_default tt
      "2024-01-01T00:00:00+00:00" = Ok payload ∧
    jfield "nodes" payload = Some (JList [JDict nd]) ∧
    assoc "x" nd = None ∧ assoc "y" nd = None ∧
    meta_coords "included" payload = Some (JBool false).
Proof.
  split; [reflexivity|]. split; [reflexivity|].
  eexists _, _. split; [vm_compute; reflexivity|].
  repeat split; reflexivity.
Qed.

(** ** Normalisation *)

Lemma Qmin_cases (x y : Q) : Qmin x y = x ∨ Qmin x y = y.
Proof.
  unfold Qmin, GenericMinMax.gmin. destruct (x ?= y)%Q; auto.
Qed.

Lemma Qmax_cases (x y : Q) : Qmax x y = x ∨ Qmax x y = y.
Proof.
  unfold Qmax, GenericMinMax.gmax. destruct (x ?= y)%Q; auto.
Qed.

Lemma fold_min_spec (l : list Q) (x : Q) :
  let m := fold_left Qmin l x in
  (m <= x)%Q ∧ (∀ y, y ∈ l → (m <= y)%Q) ∧ (m = x ∨ m ∈ l).
Proof.
  revert x. induction l as [|z l IH]; intros x; simpl.
  - split; [lra|]. split; [by intros y ?%elem_of_nil | by left].
  - destruct (IH (Qmin x z)) as (Hle & Hall & Hmem).
    pose proof (Q.le_min_l x z). pose proof (Q.le_min_r x z).
    split; [lra|]. split.
    + intros y [->|Hy]%elem_of_cons; [lra | by apply Hall].
    + destruct Hmem as [Hm|Hm].
      * rewrite Hm. destruct (Qmin_cases x z) as [->| ->]; [by left|].
        right. apply list_elem_of_here.
      * right. by apply list_elem_of_further.
Qed.

Lemma fold_max_spec (l : list Q) (x : Q) :
  let m := fold_left Qmax l x in
  (x <= m)%Q ∧ (∀ y, y ∈ l → (y <= m)%Q) ∧ (m = x ∨ m ∈ l).
Proof.
  revert x. induction l as [|z l IH]; intros x; simpl.
  - split; [lra|]. split; [by intros y ?%elem_of_nil | by left].
  - destruct (IH (Qmax x z)) as (Hle & Hall & Hmem).
    pose proof (Q.le_max_l x z). pose proof (Q.le_max_r x z).
    split; [lra|]. split.
    + intros y [->|Hy]%elem_of_cons; [lra | by apply Hall].
    + destruct Hmem as [Hm|Hm].
      * rewrite Hm. destruct (Qmax_cases x z) as [->| ->]; [by left|].
        right. apply list_elem_of_here.
      * right. by apply list_elem_of_further.
Qed.

Lemma col_min_spec (l : list Q) :
  l ≠ [] → col_min l ∈ l ∧ ∀ y, y ∈ l → (col_min l <= y)%Q.
Proof.
  destruct l as [|x l]; [done|]. intros _. simpl.
  destruct (fold_min_spec l x) as (Hle & Hall & Hmem). split.
  - destruct Hmem as [->|Hm]; [apply list_elem_of_here|].
    by apply list_elem_of_further.
  - intros y [->|Hy]%elem_of_cons; [done | by apply Hall].
Qed.

Lemma col_max_spec (l : list Q) :
  l ≠ [] → col_max l ∈ l ∧ ∀ y, y ∈ l → (y <= col_max l)%Q.
Proof.
  destruct l as [|x l]; [done|]. intros _. simpl.
  destruct (fold_max_spec l x) as (Hle & Hall & Hmem). split.
  - destruct Hmem as [->|Hm]; [apply list_elem_of_here|].
    by apply list_elem_of_further.
  - intros y [->|Hy]%elem_of_cons; [done | by apply Hall].
Qed.

Lemma axis_rng_pos (l : list Q) : (0 < axis_rng l)%Q.
Proof.
  unfold axis_rng.
  pose proof (Q.le_max_r (col_max l - col_min l) range_floor).
  assert (0 < range_floor)%Q by reflexivity. lra.
Qed.

(** One axis: the values [(x - min) / rng]. *)
Lemma normalize_axis (l : list Q) :
  l ≠ [] →
  let nl := map (λ x, ((x - col_min l) / axis_rng l)%Q) l in
  (∀ t, t ∈ nl → (0 <= t <= 1)%Q) ∧
  (col_min nl == 0)%Q ∧
  (col_max nl == (col_max l - col_min l) / axis_rng l)%Q.
Proof.
  intros Hne nl.
  destruct (col_min_spec l Hne) as [Hmin_in Hmin_le].
  destruct (col_max_spec l Hne) as [Hmax_in Hmax_le].
  pose proof (axis_rng_pos l) as Hpos.
  assert (Hrng : (col_max l - col_min l <= axis_rng l)%Q)
    by apply Q.le_max_l.
  assert (Hmono : ∀ x y, (x <= y)%Q →
            ((x - col_min l) / axis_rng l
             <= (y - col_min l) / axis_rng l)%Q).
  { intros x y Hxy. apply Qle_shift_div_l; [done|].
    unfold Qdiv. rewrite <- Qmult_assoc, (Qmult_comm (/ _)).
    rewrite Qmult_inv_r by lra. lra. }
  assert (Hzero : ((col_min l - col_min l) / axis_rng l == 0)%Q).
  { unfold Qdiv. ring. }
  assert (Hnl : nl ≠ []) by (unfold nl; by destruct l).
  assert (Hin : ∀ t, t ∈ nl ↔ ∃ x, x ∈ l ∧
             t = ((x - col_min l) / axis_rng l)%Q).
  { intros t. unfold nl. rewrite list_elem_of_In, in_map_iff.
    split; intros (x & ? & ?); exists x; rewrite ?list_elem_of_In in *; auto. }
  destruct (col_min_spec nl Hnl) as [Hnmin_in Hnmin_le].
  destruct (col_max_spec nl Hnl) as [Hnmax_in Hnmax_le].
  split; [|split].
  - intros t (x & Hx & ->)%Hin. split.
    + rewrite <- Hzero. by apply Hmono, Hmin_le.
    + apply Qle_shift_div_r; [done|].
      pose proof (Hmax_le x Hx). lra.
  - apply Qle_antisym.
    + rewrite <- Hzero. apply Hnmin_le, Hin. by exists (col_min l).
    + apply Hin in Hnmin_in as (x & Hx & ->).
      rewrite <- Hzero. by apply Hmono, Hmin_le.
  - apply Qle_antisym.
    + apply Hin in Hnmax_in as (x & Hx & ->). by apply Hmono, Hmax_le.
    + apply Hnmax_le, Hin. by exists (col_max l).
Qed.

Lemma normalize_fst (coords_arr : list point) :
  map fst (normalize coords_arr)
  = map (λ x, ((x - col_min (map fst coords_arr))
               / axis_rng (map fst coords_arr))%Q) (map fst coords_arr).
Proof. unfold normalize. by rewrite !map_map. Qed.

Lemma normalize_snd (coords_arr : list point) :
  map snd (normalize coords_arr)
  = map (λ y, ((y - col_min (map snd coords_arr))
               / axis_rng (map snd coords_arr))%Q) (map snd coords_arr).
Proof. unfold normalize. by rewrite !map_map. Qed.

Lemma axis_max_cases (l : list Q) (m : Q) :
  (m == (col_max l - col_min l) / axis_rng l)%Q →
  ((range_floor <= col_max l - col_min l)%Q → (m == 1)%Q) ∧
  ((col_max l - col_min l < range_floor)%Q →
   (m == (col_max l - col_min l) / range_floor)%Q ∧ (m < 1)%Q).
Proof.
  intros Hm. assert (Hfl : (0 < range_floor)%Q) by reflexivity. split.
  - intros Hge.
    assert (Hax : (axis_rng l == col_max l - col_min l)%Q).
    { unfold axis_rng. by apply Q.max_l. }
    rewrite Hm, Hax. field. lra.
  - intros Hlt.
    assert (Hax : (axis_rng l == range_floor)%Q).
    { unfold axis_rng. apply Q.max_r. lra. }
    rewrite Hm, Hax. split; [reflexivity|].
    apply Qlt_shift_div_r; [done|]. lra.
Qed.

Section NormalizeProofs.
Context `{NumPy}.

(** C6 (as amended).  Right after the normalisation of a non-empty
    layout every coordinate lies in [0,1] (all values of the model are
    rationals, hence finite) and the minimum of each axis is 0; the
    maximum of an axis is 1 when its raw range is at least 1e-9, and
    range / 1e-9 < 1 otherwise, the floor replacing the range.  These
    are the values the canvas mapping receives for every method other
    than "fa2" and "fr"; for those two the declutter pass runs in
    between and may move points out of the unit square. *)
Theorem normalize_unit_square (coords_arr : list point) :
  coords_arr ≠ [] →
  let norm := normalize coords_arr in
  let xs := map fst coords_arr in
  let ys := map snd coords_arr in
  length norm = length coords_arr ∧
  (∀ p, p ∈ norm → (0 <= p.1 <= 1)%Q ∧ (0 <= p.2 <= 1)%Q) ∧
  (col_min (map fst norm) == 0)%Q ∧
  (col_min (map snd norm) == 0)%Q ∧
  ((range_floor <= col_max xs - col_min xs)%Q →
   (col_max (map fst norm) == 1)%Q) ∧
  ((col_max xs - col_min xs < range_floor)%Q →
   (col_max (map fst norm) == (col_max xs - col_min xs) / range_floor)%Q ∧
   (col_max (map fst norm) < 1)%Q) ∧
  ((range_floor <= col_max ys - col_min ys)%Q →
   (col_max (map snd norm) == 1)%Q) ∧
  ((col_max ys - col_min ys < range_floor)%Q →
   (col_max (map snd norm) == (col_max ys - col_min ys) / range_floor)%Q ∧
   (col_max (map snd norm) < 1)%Q) ∧
  (∀ method_used, method_used ≠ "fa2" → method_used ≠ "fr" →
     normalize_and_spread coords_arr method_used = Ok norm).
Proof.
  intros Hne norm xs ys.
  assert (Hxs : xs ≠ []) by (unfold xs; by destruct coords_arr).
  assert (Hys : ys ≠ []) by (unfold ys; by destruct coords_arr).
  destruct (normalize_axis xs Hxs) as (Hx01 & Hxmin & Hxmax).
  destruct (normalize_axis ys Hys) as (Hy01 & Hymin & Hymax).
  unfold norm. rewrite normalize_fst, normalize_snd. fold xs ys.
  split; [unfold normalize; by rewrite length_map|].
  split.
  { intros p Hp. unfold normalize in Hp.
    apply list_elem_of_In, in_map_iff in Hp as ([x y] & <- & Hin). simpl.
    split; [apply Hx01|apply Hy01]; apply list_elem_of_In, in_map_iff.
    - exists x. split; [done|]. apply in_map_iff. by exists (x, y).
    - exists y. split; [done|]. apply in_map_iff. by exists (x, y). }
  split; [done|]. split; [done|].
  destruct (axis_max_cases xs _ Hxmax) as [Hx1 Hx2].
  destruct (axis_max_cases ys _ Hymax) as [Hy1 Hy2].
  repeat (split; [done|]).
  intros m Hfa2 Hfr. unfold normalize_and_spread.
  case_decide as Hm; [by destruct Hm|done].
Qed.
End NormalizeProofs.

Lemma normalize_unit_square_witness :
  length (normalize [(3, 4); (5, 4); (4, 7)]%Q) = 3.
Proof.
  apply (normalize_unit_square (H:=np_ref) [(3, 4); (5, 4); (4, 7)]%Q).
  discriminate.
Defined.

(** C6, the part that fails: on a force layout the declutter pass runs
    after the normalisation and before the canvas mapping.  Here the
    first two normalised points are 0.005 apart; the pass pushes the
    first one to x = -0.0025, outside the unit square, and the canvas
    mapping puts it at pixel 21, inside the padding of 24. *)
Lemma declutter_leaves_unit_square :
  ∃ P p, normalize_and_spread (H:=np_ref)
           [(0, 0); (1 # 200, 0); (1, 1)]%Q "fr" = Ok P ∧
         P !! 0 = Some p ∧ (p.1 < 0)%Q ∧
         canvas_xs cfg_default P !! 0 = Some 21%Z.
Proof.
  eexists _, _. split; [vm_compute; reflexivity|].
  split; [reflexivity|]. split; reflexivity.
Qed.

(** ** SpatialDeclutterer *)

Section SpreadProofs.
Context `{NumPy}.

Lemma push_pair_skip (r_min xi yi : Q) (ii jj : nat) (P : list point) :
  jj ≤ ii → push_pair r_min xi yi ii P jj = P.
Proof.
  intros Hle. unfold push_pair.
  by destruct (Nat.leb_spec jj ii); [|lia].
Qed.

Lemma push_pair_unpushable (r_min : Q) (pi pj : point) (ii jj : nat)
    (P : list point) :
  P !! jj = Some pj → pushable r_min pi pj = false →
  push_pair r_min pi.1 pi.2 ii P jj = P.
Proof.
  intros Hj Hp. unfold push_pair. destruct (jj <=? ii); [done|].
  rewrite Hj. unfold pushable, dist2 in Hp. by rewrite Hp.
Qed.

Lemma relax_point_settled (r_min : Q) (hot : list nat) (P : list point)
    (ii : nat) :
  settled r_min P → relax_point r_min hot P ii = P.
Proof.
  intros Hs. unfold relax_point.
  destruct (P !! ii) as [pi|] eqn:Hi; [|done].
  induction hot as [|jj hot IH]; [done|]. simpl.
  replace (push_pair r_min pi.1 pi.2 ii P jj) with P; [done|].
  symmetry. destruct (Nat.le_gt_cases jj ii) as [Hle|Hlt].
  - by apply push_pair_skip.
  - unfold push_pair. destruct (Nat.leb_spec jj ii); [lia|].
    destruct (P !! jj) as [pj|] eqn:Hj; [|done].
    pose proof (Hs ii jj pi pj Hlt Hi Hj) as Hp.
    unfold pushable, dist2 in Hp. by rewrite Hp.
Qed.

Lemma relax_bucket_settled (r_min : Q) (buckets : list ((Z * Z) * list nat))
    (P : list point) (b : (Z * Z) * list nat) :
  settled r_min P → relax_bucket r_min buckets P b = P.
Proof.
  intros Hs. unfold relax_bucket.
  induction b.2 as [|ii idxs IH]; [done|]. simpl.
  by rewrite relax_point_settled.
Qed.

Lemma spread_pass_settled (r_min : Q) (P : list point) :
  ¬ (r_min == 0)%Q → settled r_min P → spread_pass r_min P = Ok P.
Proof.
  intros Hr Hs. unfold spread_pass. destruct P as [|p P']; [done|].
  destruct (Qeq_bool r_min 0) eqn:Hq; [by apply Qeq_bool_iff in Hq|].
  f_equal. generalize (build_buckets r_min (p :: P')) at 2. intros bs.
  induction bs as [|b bs IH]; [done|]. simpl.
  by rewrite relax_bucket_settled.
Qed.

Lemma spread_settled (r_min : Q) (P : list point) (iters : nat) :
  ¬ (r_min == 0)%Q → settled r_min P → _spread P r_min iters = Ok P.
Proof.
  intros Hr Hs. induction iters as [|n IH]; [done|]. simpl.
  rewrite spread_pass_settled by done. simpl. done.
Qed.

End SpreadProofs.



(** *** The grid finds every close pair *)

Lemma Qfloor_near (a b r : Q) :
  (0 < r)%Q → (- r < b - a)%Q → (b - a < r)%Q →
  (Qfloor (a / r) - 1 ≤ Qfloor (b / r) ≤ Qfloor (a / r) + 1)%Z.
Proof.
  intros Hr Hlo Hhi.
  assert (Hba : (b / r == a / r + (b - a) / r)%Q) by (field; lra).
  assert (H1 : ((b - a) / r < 1)%Q) by (apply Qlt_shift_div_r; lra).
  assert (H2 : (-(1) < (b - a) / r)%Q) by (apply Qlt_shift_div_l; lra).
  pose proof (Qfloor_le (a / r)) as Ha1.
  pose proof (Qlt_floor (a / r)) as Ha2.
  pose proof (Qfloor_le (b / r)) as Hb1.
  pose proof (Qlt_floor (b / r)) as Hb2.
  rewrite inject_Z_plus in Ha2, Hb2.
  change (inject_Z 1) with 1%Q in *.
  assert (Hlt1 : (inject_Z (Qfloor (b / r))
                  < inject_Z (Qfloor (a / r) + 2))%Q).
  { rewrite inject_Z_plus. change (inject_Z 2) with 2%Q. lra. }
  assert (Hlt2 : (inject_Z (Qfloor (a / r))
                  < inject_Z (Qfloor (b / r) + 2))%Q).
  { rewrite inject_Z_plus. change (inject_Z 2) with 2%Q. lra. }
  rewrite <- Zlt_Qlt in Hlt1, Hlt2. lia.
Qed.

Lemma elem_of_neigh_keys (g g' : Z * Z) :
  (g.1 - 1 ≤ g'.1 ≤ g.1 + 1)%Z → (g.2 - 1 ≤ g'.2 ≤ g.2 + 1)%Z →
  g' ∈ neigh_keys g.
Proof.
  destruct g as [gx gy], g' as [gx' gy']. simpl. intros Hx Hy.
  assert (Hx' : gx' = (gx + -1)%Z ∨ gx' = (gx + 0)%Z ∨ gx' = (gx + 1)%Z)
    by lia.
  assert (Hy' : gy' = (gy + -1)%Z ∨ gy' = (gy + 0)%Z ∨ gy' = (gy + 1)%Z)
    by lia.
  unfold neigh_keys. simpl.
  destruct Hx' as [->|[->| ->]], Hy' as [->|[->| ->]];
    repeat first [apply list_elem_of_here | apply list_elem_of_further].
Qed.

Lemma cell_near (r : Q) (p q : point) :
  (0 < r)%Q → (dist2 p q < r * r)%Q →
  cell_of r q ∈ neigh_keys (cell_of r p).
Proof.
  intros Hr Hd. unfold dist2 in Hd.
  assert (Hsq : ∀ u v : Q, (u * u + v * v < r * r)%Q →
                           (- r < - u)%Q ∧ (- u < r)%Q).
  { intros u v Huv. assert (0 <= v * v)%Q by nra.
    split; apply Qnot_le_lt; intros Hle.
    - assert (0 <= (u - r) * (u + r))%Q
        by (apply Qmult_le_0_compat; lra). lra.
    - assert (0 <= (- u - r) * (- u + r))%Q
        by (apply Qmult_le_0_compat; lra). lra. }
  assert (Hx : (- r < q.1 - p.1 ∧ q.1 - p.1 < r)%Q).
  { destruct (Hsq (p.1 - q.1) (p.2 - q.2))%Q; [done|]. split; lra. }
  assert (Hy : (- r < q.2 - p.2 ∧ q.2 - p.2 < r)%Q).
  { destruct (Hsq (p.2 - q.2) (p.1 - q.1))%Q; [lra|]. split; lra. }
  apply elem_of_neigh_keys; unfold cell_of; simpl;
    apply Qfloor_near; tauto.
Qed.

Lemma elem_of_hot_set (buckets : list ((Z * Z) * list nat)) (g : Z * Z)
    (j : nat) :
  j ∈ hot_set buckets g ↔ ∃ k, k ∈ neigh_keys g ∧ j ∈ od_get k buckets.
Proof.
  unfold hot_set.
  assert (Hgen : ∀ (keys : list (Z * Z)) (S0 : gset nat),
    j ∈ fold_left (λ hot k, hot ∪ list_to_set (od_get k buckets)) keys S0 ↔
    j ∈ S0 ∨ ∃ k, k ∈ keys ∧ j ∈ od_get k buckets).
  { induction keys as [|k keys IH]; intros S0; simpl.
    - split; [auto|]. intros [?|(k & Hk & _)]; [done|].
      by apply elem_of_nil in Hk.
    - rewrite IH, elem_of_union, elem_of_list_to_set. split.
      + intros [[?|?]|(k' & Hk' & ?)]; [auto| |].
        * right. exists k. split; [apply list_elem_of_here|done].
        * right. exists k'. split; [by apply list_elem_of_further|done].
      + intros [?|(k' & Hk' & ?)]; [auto|].
        apply elem_of_cons in Hk' as [->|Hk']; [auto|].
        right. by exists k'. }
  rewrite Hgen. split; [|auto]. intros [Hn|?]; [|done].
  by apply elem_of_empty in Hn.
Qed.

Lemma elem_of_build_buckets (cell : Q) (P : list point) (k : Z * Z)
    (j : nat) :
  j ∈ od_get k (build_buckets cell P) ↔
  ∃ p, P !! j = Some p ∧ cell_of cell p = k.
Proof.
  unfold build_buckets.
  assert (Hgen : ∀ (L : list (nat * point)) (d : list ((Z * Z) * list nat)),
    j ∈ od_get k (fold_left (λ d ip, od_append (cell_of cell ip.2) ip.1 d)
                            L d) ↔
    j ∈ od_get k d ∨ ∃ p, (j, p) ∈ L ∧ cell_of cell p = k).
  { induction L as [|[i p] L IH]; intros d; simpl.
    - split; [auto|]. intros [?|(p & Hp & _)]; [done|].
      by apply elem_of_nil in Hp.
    - rewrite IH, od_get_append. split.
      + intros [Hin|(p' & Hp' & ?)].
        * case_decide as Hk; [|auto].
          apply elem_of_app in Hin as [?|Hin]; [auto|].
          apply list_elem_of_singleton in Hin as ->.
          right. exists p. split; [apply list_elem_of_here|done].
        * right. exists p'. split; [by apply list_elem_of_further|done].
      + intros [Hin|(p' & Hp' & Hc)].
        * left. case_decide; [|done]. apply elem_of_app. by left.
        * apply elem_of_cons in Hp' as [Heq|Hp'].
          -- inversion Heq; subst. left. rewrite decide_True by done.
             apply elem_of_app. right. apply list_elem_of_here.
          -- right. by exists p'. }
  rewrite Hgen. split.
  - intros [Hn|(p & Hp & Hc)]; [by apply elem_of_nil in Hn|].
    apply elem_of_lookup_imap in Hp as (i & p' & Heq & Hlk).
    inversion Heq; subst. by exists p'.
  - intros (p & Hp & Hc). right. exists p. split; [|done].
    apply elem_of_lookup_imap. by exists j, p.
Qed.

(** *** Two points *)

Lemma hot_list_two (S : gset nat) :
  0 ∈ S → 1 ∈ S → hot_list 2 S = [0; 1].
Proof.
  intros H0 H1. unfold hot_list. simpl.
  by rewrite !bool_decide_eq_true_2.
Qed.

Lemma hot_list_bound (n : nat) (S : gset nat) (j : nat) :
  j ∈ hot_list n S → j < n.
Proof.
  unfold hot_list. intros [Hj _]%list_elem_of_In%filter_In.
  apply in_seq in Hj. lia.
Qed.

Section TwoPoints.
Context `{NumPy}.
Variable r : Q.
Variables p q : point.
Hypothesis r_pos : (0 < r)%Q.
Hypothesis close : pushable r p q = true.

Lemma relax_point_top (hot : list nat) (P : list point) (ii : nat) :
  (∀ jj, jj ∈ hot → jj ≤ ii) → relax_point r hot P ii = P.
Proof.
  intros Hhot. unfold relax_point. destruct (P !! ii) as [pi|]; [|done].
  induction hot as [|jj hot IH]; [done|]. simpl.
  rewrite push_pair_skip by (apply Hhot, list_elem_of_here).
  apply IH. intros jj' Hjj'. by apply Hhot, list_elem_of_further.
Qed.

Lemma push_pair_length (xi yi : Q) (ii jj : nat) (P : list point) :
  length (push_pair r xi yi ii P jj) = length P.
Proof.
  unfold push_pair. destruct (jj <=? ii); [done|].
  destruct (P !! jj); [|done].
  destruct (_ && _); [|done]. by rewrite !length_alter.
Qed.

Lemma relax_first (buckets : list ((Z * Z) * list nat)) :
  0 ∈ hot_set buckets (cell_of r p) →
  1 ∈ hot_set buckets (cell_of r p) →
  relax_point r (hot_list 2 (hot_set buckets (cell_of r p))) [p; q] 0
  = push_pair r p.1 p.2 0 [p; q] 1.
Proof.
  intros H0 H1. rewrite hot_list_two by done.
  unfold relax_point. simpl.
  by rewrite (push_pair_skip r p.1 p.2 0 0 [p; q]) by lia.
Qed.

Lemma relax_second (S : gset nat) (P : list point) :
  length P = 2 → relax_point r (hot_list (length P) S) P 1 = P.
Proof.
  intros Hlen. apply relax_point_top. intros jj Hjj%hot_list_bound. lia.
Qed.

Lemma build_buckets_two :
  build_buckets r [p; q]
  = if decide (cell_of r q = cell_of r p)
    then [(cell_of r p, [0; 1])]
    else [(cell_of r p, [0]); (cell_of r q, [1])].
Proof. reflexivity. Qed.

Lemma spread_pass_two :
  spread_pass r [p; q] = Ok (push_pair r p.1 p.2 0 [p; q] 1).
Proof.
  unfold spread_pass.
  destruct (Qeq_bool r 0) eqn:Hq; [apply Qeq_bool_iff in Hq; lra|].
  f_equal.
  assert (Hd : (dist2 p q < r * r)%Q).
  { unfold pushable in close. apply andb_true_iff in close as [Hc _].
    unfold Qltb in Hc. apply negb_true_iff, Qle_bool_false in Hc. done. }
  assert (H0 : 0 ∈ hot_set (build_buckets r [p; q]) (cell_of r p)).
  { apply elem_of_hot_set. exists (cell_of r p). split.
    - apply elem_of_neigh_keys; lia.
    - apply elem_of_build_buckets. by exists p. }
  assert (H1 : 1 ∈ hot_set (build_buckets r [p; q]) (cell_of r p)).
  { apply elem_of_hot_set. exists (cell_of r q). split.
    - by apply cell_near.
    - apply elem_of_build_buckets. by exists q. }
  pose proof (relax_first _ H0 H1) as Hfirst.
  assert (Hlen : length (push_pair r p.1 p.2 0 [p; q] 1) = 2)
    by (by rewrite push_pair_length).
  revert Hfirst. generalize (build_buckets r [p; q]) at 1 2.
  intros buckets Hfirst. rewrite build_buckets_two.
  case_decide as Hcell; unfold relax_bucket; cbn [fold_left fst snd length].
  - rewrite Hfirst. rewrite <- Hlen at 1. by apply relax_second.
  - rewrite Hfirst. by apply relax_second.
Qed.

Lemma push_pair_distance :
  let d := np_sqrt (dist2 p q) in
  (0 < d)%Q → (d * d == dist2 p q)%Q →
  ∃ p' q', push_pair r p.1 p.2 0 [p; q] 1 = [p'; q'] ∧
           (dist2 p' q' == r * r)%Q.
Proof.
  intros d Hd Hdd. unfold push_pair. simpl.
  unfold pushable, dist2 in close. rewrite close.
  eexists _, _. split; [reflexivity|].
  fold (dist2 p q). fold d. unfold dist2 at 1. simpl.
  set (push := ((1 # 2) * (r - d) / d)%Q).
  assert (Ha : ((1 + 2 * push) * d == r)%Q) by (unfold push; field; lra).
  transitivity (((1 + 2 * push) * d) * ((1 + 2 * push) * d))%Q;
    [|rewrite Ha; reflexivity].
  transitivity ((1 + 2 * push) * (1 + 2 * push) * (d * d))%Q; [|ring].
  rewrite Hdd. unfold dist2. ring.
Qed.
End TwoPoints.

Section SeparationProofs.
Context `{NumPy}.

End SeparationProofs.



(* ================================================================== *)
(** * Part IV: further properties of the export and its callers        *)
(* ================================================================== *)

(** ** The neighbor search *)

Section NeighborSearch.
Context `{NumPyContract}.

(** In the same-cluster search a member of the cluster that is not
    returned is no more similar to row [i] than any row that is. *)
Lemma row_neighbors_cluster_nearest (X : matrix) (indices : list nat)
    (top_k : Z) (min_sim : Q) (i j j' : nat) (s : Q) :
  (j, s) ∈ row_neighbors_cluster X indices top_k min_sim i →
  j' ∈ indices → j' ≠ i →
  j' ∉ (row_neighbors_cluster X indices top_k min_sim i).*1 →
  (dot (row X i) (row X j') <= s)%Q.
Proof.
  unfold row_neighbors_cluster.
  set (sims := sims_cluster X indices i).
  assert (Hls : length sims = length indices).
  { unfold sims, sims_cluster. by rewrite length_map. }
  destruct (Z.ltb_spec 0 (Z.min top_k (Z.of_nat (length sims)))) as [Hk|Hk];
    [|by intros ?%elem_of_nil].
  set (k_eff := Z.min top_k (Z.of_nat (length sims))).
  intros (jj & Hjj & Hg & Hq & ->)%elem_of_emit_pairs Hj' Hne Hout.
  unfold Qltb in Hq. apply negb_false_iff, Qle_bool_iff in Hq.
  apply list_elem_of_lookup in Hj' as [jj' Hjj'].
  pose proof (lookup_lt_Some _ _ _ Hjj') as Hlt.
  assert (Hnth : nth jj' indices 0 = j') by (by apply nth_lookup_Some).
  assert (Hg' : getx sims jj' = Fin (dot (row X i) (row X j'))).
  { unfold sims. rewrite getx_sims_cluster by done. rewrite Hnth.
    by rewrite decide_False. }
  destruct (decide (jj' ∈ top_indices sims k_eff)) as [Hin|Hnin].
  - destruct (Qltb (dot (row X i) (row X j')) min_sim) eqn:Hltb.
    + unfold Qltb in Hltb. apply negb_true_iff, Qle_bool_false in Hltb. lra.
    + exfalso. apply Hout, list_elem_of_fmap.
      exists (j', dot (row X i) (row X j')). split; [done|].
      apply elem_of_emit_pairs. by exists jj'.
  - pose proof (top_indices_dominate sims k_eff jj jj'
                  ltac:(unfold k_eff; lia) Hjj ltac:(lia) Hnin) as Hdom.
    rewrite Hg, Hg' in Hdom. simpl in Hdom. by apply Qle_bool_iff.
Qed.

(** X2.  The lists of [neigh_pairs] hold the nearest rows: a row [j']
    other than [i] (of the cluster of [i] in same-cluster mode) that is
    missing from the list of row [i] is no more similar to [i] than any
    row listed there. *)
Theorem neighbors_nearest (X : matrix) (cids : list Z) (top_k : Z)
    (min_sim : Q) (sco : bool) (i j j' : nat) (lst : list (nat * Q))
    (s : Q) :
  length cids = length X →
  neighbors X cids top_k min_sim sco !! i = Some lst →
  (j, s) ∈ lst →
  j' < length X → j' ≠ i →
  (sco = true → nth j' cids 0%Z = nth i cids 0%Z) →
  j' ∉ lst.*1 →
  (dot (row X i) (row X j') <= s)%Q.
Proof.
  intros Hcids Hlk Hjs Hj' Hne Hsame Hout.
  destruct (Nat.le_gt_cases (length X) 1) as [HN|HN].
  - rewrite neighbors_small in Hlk by done.
    apply lookup_replicate in Hlk as [-> _]. by apply elem_of_nil in Hjs.
  - rewrite neighbors_rows in Hlk by done.
    rewrite list_lookup_fmap in Hlk.
    destruct (seq 0 (length X) !! i) as [i'|] eqn:Hi; [|done].
    apply lookup_seq in Hi as [-> Hi]. simpl in Hlk, Hi.
    injection Hlk as <-. destruct sco.
    + eapply row_neighbors_cluster_nearest; [exact Hjs| |done|done].
      apply elem_of_members_from. rewrite Nat.sub_0_r.
      split; [lia|]. split; [lia|]. by apply Hsame.
    + by eapply row_neighbors_nearest.
Qed.
End NeighborSearch.

Lemma neighbors_nearest_witness :
  ∃ lst, neighbors (H:=np_ref) X_tie [0; 0; 0]%Z 1 (1 # 2) false !! 1
           = Some lst ∧
         ∀ s, (0, s) ∈ lst → (dot (row X_tie 1) (row X_tie 2) <= s)%Q.
Proof.
  eexists. split; [vm_compute; reflexivity|]. intros s Hs.
  eapply (neighbors_nearest (np:=np_ref) (H:=np_ref_contract) X_tie
            [0; 0; 0]%Z 1 (1 # 2) false 1 0 2 _ s).
  - reflexivity.
  - vm_compute. reflexivity.
  - exact Hs.
  - simpl. lia.
  - lia.
  - discriminate.
  - simpl. intros Hin. apply list_elem_of_singleton in Hin. lia.
Defined.

Section Batching.
Context `{NumPy}.

(** X1.  Batching is invisible: whatever [BATCH] is chosen for [N],
    [neigh_pairs] holds, for the rows 0 to N-1 in this order, the list
    that the body of the loop computes for that row alone. *)
Theorem neighbors_row_by_row (X : matrix) (cids : list Z) (top_k : Z)
    (min_sim : Q) (sco : bool) (i : nat) :
  1 < length X → i < length X →
  neighbors X cids top_k min_sim sco !! i
  = Some (if sco
          then row_neighbors_cluster X
                 (od_get (nth i cids 0%Z) (group_by_cid cids))
                 top_k min_sim i
          else row_neighbors X top_k min_sim i).
Proof.
  intros HN Hi. rewrite neighbors_rows by done.
  rewrite list_lookup_fmap, lookup_seq_lt by done. simpl.
  destruct sco; [|done]. unfold group_by_cid.
  by rewrite od_get_group_from.
Qed.
End Batching.

Lemma neighbors_row_by_row_witness :
  neighbors (H:=np_ref) X_tie [0; 0; 0]%Z 2 (1 # 2) false !! 2
  = Some (row_neighbors (H:=np_ref) X_tie 2 (1 # 2) 2).
Proof.
  apply (neighbors_row_by_row (H:=np_ref) X_tie [0; 0; 0]%Z 2 (1 # 2)
           false 2); simpl; lia.
Defined.

(** ** The spanning tree is grown greedily *)

Lemma item_leb_fst (a b : heap_item) :
  item_leb a b = true → (a.1.1.1 <= b.1.1.1)%Q.
Proof.
  destruct a as [[[da ua] va] sa], b as [[[db ub] vb] sb]. simpl.
  destruct (da ?= db)%Q eqn:Hc; [| |done]; intros _.
  - apply Qeq_alt in Hc. lra.
  - apply Qlt_alt in Hc. lra.
Qed.

Lemma item_leb_fst_false (a b : heap_item) :
  item_leb a b = false → (b.1.1.1 <= a.1.1.1)%Q.
Proof.
  destruct a as [[[da ua] va] sa], b as [[[db ub] vb] sb]. simpl.
  destruct (da ?= db)%Q eqn:Hc; [|done|]; intros _.
  - apply Qeq_alt in Hc. lra.
  - apply Qgt_alt in Hc. lra.
Qed.

(** [heappop] hands out an entry of least distance. *)
Lemma heappop_least (h : list heap_item) (x : heap_item)
    (h' : list heap_item) :
  heappop h = Some (x, h') → ∀ y, y ∈ h → (x.1.1.1 <= y.1.1.1)%Q.
Proof.
  revert x h'. induction h as [|a h IH]; intros x h'; [done|]. simpl.
  destruct (heappop h) as [[m r]|] eqn:Hp.
  - specialize (IH m r eq_refl).
    destruct (item_leb a m) eqn:Hle; intros [= <- <-] y Hy.
    + apply elem_of_cons in Hy as [->|Hy]; [apply Qle_refl|].
      apply item_leb_fst in Hle. specialize (IH y Hy). lra.
    + apply elem_of_cons in Hy as [->|Hy]; [|by apply IH].
      by apply item_leb_fst_false.
  - apply heappop_None in Hp as ->. intros [= <- <-] y Hy.
    apply list_elem_of_singleton in Hy as ->. lra.
Qed.

Lemma mst_loop_acc (fuel : nat) (X : matrix) (indices : list nat)
    (T : gset nat) (heap : list heap_item) (mst : list edge) :
  mst_loop fuel X indices T heap mst
  = mst ++ mst_loop fuel X indices T heap [].
Proof.
  revert T heap mst. induction fuel as [|fuel IH]; intros T heap mst; simpl.
  { by rewrite app_nil_r. }
  destruct (size T <? length indices); [|by rewrite app_nil_r].
  destruct (heappop heap) as [[[[[d u] v] s] heap']|]; [|by rewrite app_nil_r].
  destruct (decide (v ∈ T)); [apply IH|].
  rewrite (IH _ _ (mst ++ _)), (IH _ _ [_]).
  by rewrite <- app_assoc.
Qed.

Section PrimGreedy.
Variables (X : matrix) (indices : list nat).

Lemma mst_loop_greedy (fuel : nat) (T : gset nat) (heap : list heap_item)
    (E1 E2 : list edge) (u v : nat) (s : Q) :
  frontier_inv X indices T heap →
  mst_loop fuel X indices T heap [] = E1 ++ (u, v, s) :: E2 →
  let T' := T ∪ list_to_set (map (λ e : edge, e.1.2) E1) in
  u ∈ T' ∧ (v ∉ T') ∧ v ∈ indices ∧ s = dot (row X u) (row X v) ∧
  ∀ u' w, u' ∈ T' → w ∈ indices → w ∉ T' →
          (dot (row X u') (row X w) <= s)%Q.
Proof.
  revert T heap E1. induction fuel as [|fuel IH]; intros T heap E1 Hinv; simpl.
  { by destruct E1. }
  destruct (size T <? length indices); [|by destruct E1].
  destruct (heappop heap) as [[[[[d0 u0] v0] s0] heap']|] eqn:Hp;
    [|by destruct E1].
  pose proof (heappop_perm _ _ _ Hp) as Hperm.
  pose proof (heappop_least _ _ _ Hp) as Hleast.
  destruct Hinv as [Hh Hall].
  assert (Hx : (d0, u0, v0, s0) ∈ heap).
  { rewrite Hperm. apply elem_of_cons. by left. }
  destruct (Hh _ _ _ _ Hx) as (Hu0 & Hv0 & Hs0 & Hd0).
  destruct (decide (v0 ∈ T)) as [Hin|Hout].
  - apply IH. split.
    + intros d' u' v' s' Hy. apply Hh. rewrite Hperm.
      apply elem_of_cons. by right.
    + intros u' w Hu' Hw Hwt. specialize (Hall u' w Hu' Hw Hwt).
      rewrite Hperm in Hall. apply elem_of_cons in Hall as [Heq|Hy]; [|done].
      injection Heq as _ _ -> _. done.
  - rewrite mst_loop_acc. simpl. destruct E1 as [|e0 E1]; simpl.
    + intros [= <- <- <- _]. replace (T ∪ ∅) with T by set_solver.
      split; [done|]. split; [done|]. split; [done|]. split; [done|].
      intros u' w Hu' Hw Hwt.
      specialize (Hleast _ (Hall u' w Hu' Hw Hwt)). simpl in Hleast.
      rewrite Hd0 in Hleast. lra.
    + intros [= <- Hrest].
      replace (T ∪ ({[v0]} ∪ list_to_set (map (λ e : edge, e.1.2) E1)))
        with (({[v0]} ∪ T) ∪ list_to_set (map (λ e : edge, e.1.2) E1))
        by set_solver.
      eapply IH; [|exact Hrest]. split.
      * intros d' u' v' s' [Hy|(w & Hw & Hwt & [= -> -> -> ->])]%elem_of_push_frontier.
        -- destruct (Hh d' u' v' s') as (? & ? & ? & ?).
           { rewrite Hperm. apply elem_of_cons. by right. }
           split; [set_solver|done].
        -- split; [set_solver|done].
      * intros u' w Hu' Hw Hwt. apply elem_of_push_frontier.
        destruct (decide (u' = v0)) as [->|Hne].
        -- right. by exists w.
        -- left. assert (Hu'' : u' ∈ T) by set_solver.
           assert (Hwt' : w ∉ T) by set_solver.
           pose proof (Hall u' w Hu'' Hw Hwt') as Hall'.
           rewrite Hperm in Hall'.
           apply elem_of_cons in Hall' as [Heq|Hy]; [|done].
           injection Heq as _ _ -> _. set_solver.
Qed.
End PrimGreedy.

(** X3.  Prim's choice: when [_cluster_mst] appends the edge
    [(u, v, s)], [u] is a row already reached, [v] one not yet reached,
    and no pair of a reached and an unreached row of the cluster is more
    similar than [s]. *)
Theorem cluster_mst_greedy (X : matrix) (i0 : nat) (rest : list nat)
    (E1 E2 : list edge) (u v : nat) (s : Q) :
  _cluster_mst X (i0 :: rest) = E1 ++ (u, v, s) :: E2 →
  let T := reached i0 E1 in
  u ∈ T ∧ (v ∉ T) ∧ v ∈ rest ∧ s = dot (row X u) (row X v) ∧
  ∀ u' w, u' ∈ T → w ∈ rest → w ∉ T →
          (dot (row X u') (row X w) <= s)%Q.
Proof.
  destruct rest as [|i1 rest]; [by destruct E1|].
  unfold _cluster_mst, reached. intros Hrun.
  eapply mst_loop_greedy in Hrun as (Hu & Hv & Hvi & Hs & Hbest).
  - split; [done|]. split; [done|]. split; [set_solver|]. split; [done|].
    intros u' w Hu' Hw Hwt. apply Hbest; [done|set_solver|done].
  - split.
    + intros d u' v' s' (j & Hj & [= -> -> -> ->])%elem_of_mst_start.
      split; [set_solver|]. split; [set_solver|done].
    + intros u' w ->%elem_of_singleton Hw Hwt. apply elem_of_mst_start.
      exists w. split; [set_solver|done].
Qed.

Lemma cluster_mst_greedy_witness :
  ∃ e1 s, _cluster_mst X_tie [0; 1; 2] = [e1] ++ (0, 2, s) :: [] ∧
          (2 ∉ reached 0 [e1]) ∧
          (dot (row X_tie 1) (row X_tie 2) <= s)%Q.
Proof.
  eexists _, _. split; [vm_compute; reflexivity|].
  pose proof (cluster_mst_greedy X_tie 0 [1; 2] _ [] 0 2 _ eq_refl)
    as (_ & Hv & _ & _ & Hbest).
  split; [exact Hv|]. apply Hbest.
  - vm_compute. set_solver.
  - set_solver.
  - exact Hv.
Defined.

(** ** The edge list as a whole *)

Lemma Qmult_comm_eq (x y : Q) : (x * y)%Q = (y * x)%Q.
Proof. unfold Qmult. f_equal; [apply Z.mul_comm|apply Pos.mul_comm]. Qed.

(** The similarity does not depend on the side it is computed from. *)
Lemma dot_comm (a b : vec) : dot a b = dot b a.
Proof.
  unfold dot. f_equal. revert b.
  induction a as [|x a IH]; intros [|y b]; simpl; [done..|].
  by rewrite Qmult_comm_eq, IH.
Qed.

Lemma canon_lt (u v a b : nat) : u ≠ v → canon u v = (a, b) → a < b.
Proof.
  unfold canon. intros Hne.
  destruct (Nat.ltb_spec u v); intros [= <- <-]; lia.
Qed.

Lemma canon_cases (u v a b : nat) :
  canon u v = (a, b) → (u = a ∧ v = b) ∨ (u = b ∧ v = a).
Proof. unfold canon. destruct (u <? v); intros [= <- <-]; auto. Qed.

(** *** The groups of [by_cluster] *)

Lemma od_append_total {K V : Type} `{EqDecision K} (k : K) (v : V)
    (d : list (K * list V)) :
  length (concat (od_append k v d).*2) = S (length (concat d.*2)).
Proof.
  induction d as [|[k0 vs] d IH]; [done|].
  cbn [od_append]. case_decide; rewrite !fmap_cons; cbn [concat snd];
    rewrite !length_app; [simpl; lia|].
  rewrite IH. lia.
Qed.

Lemma od_append_nonempty {K V : Type} `{EqDecision K} (k : K) (v : V)
    (d : list (K * list V)) :
  Forall (λ kv, kv.2 ≠ []) d → Forall (λ kv, kv.2 ≠ []) (od_append k v d).
Proof.
  induction 1 as [|[k0 vs] d Hvs Hd IH]; simpl.
  - by repeat constructor.
  - case_decide; constructor; simpl in *; try done. by destruct vs.
Qed.

Lemma group_from_total (i0 : nat) (cids : list Z) (d : list (Z * list nat)) :
  length (concat (group_from i0 cids d).*2)
  = length (concat d.*2) + length cids.
Proof.
  revert i0 d. induction cids as [|c cs IH]; intros i0 d; simpl; [lia|].
  rewrite IH, od_append_total. lia.
Qed.

Lemma group_from_nonempty (i0 : nat) (cids : list Z)
    (d : list (Z * list nat)) :
  Forall (λ kv, kv.2 ≠ []) d →
  Forall (λ kv, kv.2 ≠ []) (group_from i0 cids d).
Proof.
  revert i0 d. induction cids as [|c cs IH]; intros i0 d Hd; simpl; [done|].
  by apply IH, od_append_nonempty.
Qed.

Lemma od_get_in {K V : Type} `{EqDecision K} (k : K)
    (d : list (K * list V)) :
  od_get k d ≠ [] → (k, od_get k d) ∈ d.
Proof.
  induction d as [|[k0 vs] d IH]; simpl; [done|].
  case_decide as Hk; intros Hne.
  - subst. apply list_elem_of_here.
  - apply list_elem_of_further. by apply IH.
Qed.

(** The group of row [i] is in [by_cluster], and row [i] is in it. *)
Lemma group_by_cid_lookup (cids : list Z) (i : nat) :
  i < length cids →
  (nth i cids 0%Z, members_from 0 (nth i cids 0%Z) cids) ∈ group_by_cid cids
  ∧ i ∈ members_from 0 (nth i cids 0%Z) cids.
Proof.
  intros Hi.
  assert (Hin : i ∈ members_from 0 (nth i cids 0%Z) cids).
  { apply elem_of_members_from. rewrite Nat.sub_0_r. split; [lia|]. by split. }
  split; [|done].
  pose proof (od_get_group_from (nth i cids 0%Z) cids 0 []) as Hget.
  simpl in Hget. unfold group_by_cid. rewrite <- Hget. apply od_get_in.
  rewrite Hget. intros Hnil. rewrite Hnil in Hin. by apply elem_of_nil in Hin.
Qed.

(** *** The edges the augmenter proposes *)

Lemma acyclic_no_loop (E : list edge) (u v : nat) (w : Q) :
  acyclic E → (u, v, w) ∈ E → u ≠ v.
Proof.
  intros Hac (E1 & E2 & ->)%list_elem_of_split ->.
  apply (Hac E1 (v, v, w) E2 eq_refl). simpl. unfold connected, rtsc.
  apply rtc_refl.
Qed.

Lemma cluster_tree_size (X : matrix) (idxs : list nat) :
  NoDup idxs → idxs ≠ [] → length (_cluster_mst X idxs) + 1 = length idxs.
Proof.
  intros Hnd Hne. destruct (cluster_mst_spec X idxs Hnd) as [Hbig Hsmall].
  destruct (Nat.le_gt_cases (length idxs) 1) as [Hl|Hl].
  - rewrite Hsmall by done. destruct idxs; [done|]. simpl in *. lia.
  - by destruct (Hbig Hl) as (Hlen & _).
Qed.

Lemma cluster_trees_size (X : matrix) (d : list (Z * list nat)) :
  Forall (λ kv, NoDup kv.2 ∧ kv.2 ≠ []) d →
  length (flat_map (λ kv, _cluster_mst X kv.2) d) + length d
  = length (concat d.*2).
Proof.
  induction 1 as [|[c idxs] d [Hnd Hne] _ IH]; [done|].
  cbn [flat_map fmap list_fmap concat length snd]. rewrite !length_app.
  pose proof (cluster_tree_size X idxs Hnd Hne). simpl in *. lia.
Qed.

Lemma group_by_cid_groups (cids : list Z) :
  Forall (λ kv : Z * list nat, NoDup kv.2 ∧ kv.2 ≠ []) (group_by_cid cids).
Proof.
  apply Forall_forall. intros [c idxs] Hin. simpl. split.
  - apply group_by_cid_members in Hin as ->. apply members_from_nodup.
  - pose proof (group_from_nonempty 0 cids [] (Forall_nil_2 _)) as Hall.
    rewrite Forall_forall in Hall. by apply (Hall (c, idxs)).
Qed.

Lemma cluster_mst_edges_length (X : matrix) (cids : list Z) :
  length (cluster_mst_edges X cids true) + length (group_by_cid cids)
  = length cids.
Proof.
  unfold cluster_mst_edges.
  rewrite cluster_trees_size by apply group_by_cid_groups.
  unfold group_by_cid. by rewrite group_from_total.
Qed.

Lemma elem_of_cluster_mst_edges (X : matrix) (cids : list Z) (e : edge) :
  e ∈ cluster_mst_edges X cids true ↔
  ∃ c, e ∈ _cluster_mst X (members_from 0 c cids) ∧
       (c, members_from 0 c cids) ∈ group_by_cid cids.
Proof.
  unfold cluster_mst_edges. rewrite list_elem_of_In, in_flat_map. split.
  - intros ([c idxs] & Hin%list_elem_of_In & He%list_elem_of_In).
    pose proof (group_by_cid_members _ _ _ Hin) as ->. by exists c.
  - intros (c & He & Hin). exists (c, members_from 0 c cids).
    by rewrite <- !list_elem_of_In.
Qed.

(** A proposed tree edge joins two different rows of one cluster and
    carries their similarity. *)
Lemma cluster_mst_edges_spec (X : matrix) (cids : list Z) (flag : bool)
    (u v : nat) (w : Q) :
  (u, v, w) ∈ cluster_mst_edges X cids flag →
  u ≠ v ∧ u < length cids ∧ v < length cids ∧
  nth u cids 0%Z = nth v cids 0%Z ∧ w = dot (row X u) (row X v).
Proof.
  destruct flag; [|by intros ?%elem_of_nil].
  intros (c & He & _)%elem_of_cluster_mst_edges.
  destruct (cluster_mst_spec X (members_from 0 c cids)
              (members_from_nodup _ _ _)) as [Hbig Hsmall].
  destruct (Nat.le_gt_cases (length (members_from 0 c cids)) 1) as [Hl|Hl].
  { rewrite Hsmall in He by done. by apply elem_of_nil in He. }
  destruct (Hbig Hl) as (_ & Hends & _ & Hac).
  destruct (Hends _ _ _ He) as (Hu & Hv & Hw).
  apply elem_of_members_from in Hu as (_ & Hu & Hcu).
  apply elem_of_members_from in Hv as (_ & Hv & Hcv).
  rewrite Nat.sub_0_r in Hcu, Hcv. simpl in Hu, Hv.
  split; [by eapply acyclic_no_loop|]. repeat split; try done. congruence.
Qed.

Lemma connected_sub (E E' : list edge) (x y : nat) :
  (∀ u v w, (u, v, w) ∈ E → ∃ w', (u, v, w') ∈ E' ∨ (v, u, w') ∈ E') →
  connected E x y → connected E' x y.
Proof.
  intros Hsub. unfold connected, rtsc.
  induction 1 as [|x y z Hxy _ IH]; [constructor|].
  eapply rtc_l; [|exact IH].
  destruct Hxy as [[w Hw]|[w Hw]]; destruct (Hsub _ _ _ Hw) as [w' [H'|H']];
    (by left; exists w') || (by right; exists w').
Qed.

Section EdgeList.
Context `{NumPy}.

(** Where an edge of [edge_list] comes from. *)
Lemma build_edges_origin (cfg : Config) (X : matrix) (cids : list Z)
    (a b : nat) (w : Q) :
  (a, b, w) ∈ build_edges cfg X cids →
  (∃ i j lst,
     neighbors X cids (top_k cfg) (min_sim cfg) (same_cluster_only cfg) !! i
       = Some lst ∧ (j, w) ∈ lst ∧ canon i j = (a, b)) ∨
  (∃ u v, (u, v, w) ∈ cluster_mst_edges X cids (add_cluster_mst cfg) ∧
          (min_sim cfg * (1 # 2) <= w)%Q ∧ canon u v = (a, b)).
Proof.
  unfold build_edges. rewrite dedup_edges_unfold.
  intros [_ (s1 & [[u v] s] & s2 & Hs & Hc & He & _)]%dedup_from_first_seen.
  simpl in Hc, He. subst s.
  assert (Hin : (u, v, w) ∈ s1 ++ (u, v, w) :: s2).
  { apply elem_of_app. right. apply list_elem_of_here. }
  rewrite <- Hs in Hin. unfold proposals in Hin.
  apply elem_of_app in Hin as [Hn|Hm].
  - left. apply elem_of_neighbor_stream in Hn as (lst & Hlk & Hjs).
    by exists u, v, lst.
  - right. unfold mst_stream in Hm.
    apply list_elem_of_In, filter_In in Hm as [Hm Hq].
    exists u, v. split; [by apply list_elem_of_In|].
    split; [by apply Qle_bool_iff|done].
Qed.

(** Every proposal leaves its pair in [edge_list]. *)
Lemma build_edges_complete (cfg : Config) (X : matrix) (cids : list Z)
    (e : edge) :
  e ∈ proposals
        (neighbors X cids (top_k cfg) (min_sim cfg) (same_cluster_only cfg))
        (cluster_mst_edges X cids (add_cluster_mst cfg)) (min_sim cfg) →
  ∃ w, (canon e.1.1 e.1.2, w) ∈ build_edges cfg X cids.
Proof.
  intros He. unfold build_edges. rewrite dedup_edges_unfold.
  apply dedup_from_complete; [done|set_solver].
Qed.

Lemma concat_length_bound {A} (ls : list (list A)) (k : nat) :
  Forall (λ l, length l ≤ k) ls → length (concat ls) ≤ length ls * k.
Proof.
  induction 1 as [|l ls Hl _ IH]; simpl; [lia|]. rewrite length_app. lia.
Qed.

Lemma neighbors_length (X : matrix) (cids : list Z) (top_k : Z)
    (min_sim : Q) (sco : bool) :
  length (neighbors X cids top_k min_sim sco) = length X.
Proof.
  destruct (Nat.le_gt_cases (length X) 1) as [HN|HN].
  - rewrite neighbors_small by done. apply length_replicate.
  - rewrite neighbors_rows by done. by rewrite length_map, length_seq.
Qed.
End EdgeList.

Section EdgeListContract.
Context `{NumPyContract}.

(** What a list of [neigh_pairs] holds. *)
Lemma neighbors_lookup_spec (X : matrix) (cids : list Z) (top_k : Z)
    (min_sim : Q) (sco : bool) (i : nat) (lst : list (nat * Q)) :
  length cids = length X →
  neighbors X cids top_k min_sim sco !! i = Some lst →
  i < length X ∧ length lst ≤ Z.to_nat top_k ∧
  ∀ j s, (j, s) ∈ lst →
    j ≠ i ∧ j < length X ∧ s = dot (row X i) (row X j) ∧
    (min_sim <= s)%Q ∧ (sco = true → nth j cids 0%Z = nth i cids 0%Z).
Proof.
  intros Hcids Hlk.
  pose proof (lookup_lt_Some _ _ _ Hlk) as Hi.
  rewrite neighbors_length in Hi. split; [done|].
  destruct (Nat.le_gt_cases (length X) 1) as [HN|HN].
  - rewrite neighbors_small in Hlk by done.
    apply lookup_replicate in Hlk as [-> _]. simpl.
    split; [lia|]. by intros j s ?%elem_of_nil.
  - rewrite neighbors_rows in Hlk by done.
    rewrite list_lookup_fmap, lookup_seq_lt in Hlk by done.
    simpl in Hlk. injection Hlk as <-. destruct sco.
    + destruct (row_neighbors_cluster_spec X
                  (members_from 0 (nth i cids 0%Z) cids) top_k min_sim i
                  (members_from_nodup _ _ _)) as (Hl & Hm & _).
      split; [done|].
      intros j s Hjs. destruct (Hm j s Hjs) as (Hne & Hj & Hd & Hq).
      apply elem_of_members_from in Hj as (_ & Hj & Hc).
      rewrite Nat.sub_0_r in Hc. repeat split; try done. lia.
    + destruct (row_neighbors_spec X top_k min_sim i) as (Hl & Hm & _).
      split; [done|].
      intros j s Hjs. destruct (Hm j s Hjs) as (Hne & Hj & Hd & Hq).
      repeat split; done.
Qed.

(** A link carries the similarity of its two ends. *)
Lemma build_edges_weight (cfg : Config) (X : matrix) (cids : list Z)
    (a b : nat) (w : Q) :
  length cids = length X →
  (a, b, w) ∈ build_edges cfg X cids →
  w = dot (row X a) (row X b).
Proof.
  intros Hcids [(i & j & lst & Hlk & Hjs & Hc)|(u & v & Hm & _ & Hc)]
    %build_edges_origin.
  - destruct (neighbors_lookup_spec _ _ _ _ _ _ _ Hcids Hlk) as (_ & _ & Hm).
    destruct (Hm _ _ Hjs) as (_ & _ & -> & _).
    apply canon_cases in Hc as [[-> ->]|[-> ->]]; [done|apply dot_comm].
  - apply cluster_mst_edges_spec in Hm as (_ & _ & _ & _ & ->).
    apply canon_cases in Hc as [[-> ->]|[-> ->]]; [done|apply dot_comm].
Qed.

(** A link joins a row to a later one. *)
Lemma build_edges_range (cfg : Config) (X : matrix) (cids : list Z)
    (a b : nat) (w : Q) :
  length cids = length X →
  (a, b, w) ∈ build_edges cfg X cids → a < b ∧ b < length X.
Proof.
  intros Hcids [(i & j & lst & Hlk & Hjs & Hc)|(u & v & Hm & _ & Hc)]
    %build_edges_origin.
  - destruct (neighbors_lookup_spec _ _ _ _ _ _ _ Hcids Hlk) as (Hi & _ & Hm).
    destruct (Hm _ _ Hjs) as (Hne & Hj & _).
    split; [eapply canon_lt; [|exact Hc]; done|].
    apply canon_cases in Hc as [[-> ->]|[-> ->]]; done.
  - apply cluster_mst_edges_spec in Hm as (Hne & Hu & Hv & _).
    split; [by eapply canon_lt|].
    apply canon_cases in Hc as [[-> ->]|[-> ->]]; lia.
Qed.


(** X6.  Which links may cross clusters or fall below the floor: in
    same-cluster mode every link joins two rows of one cluster; in any
    mode a link between rows of different clusters, and every link the
    neighbor search proposed, reaches [min_sim]; a weaker link is a tree
    edge inside one cluster and reaches half of [min_sim]. *)
Theorem build_edges_floor (cfg : Config) (X : matrix) (cids : list Z)
    (a b : nat) (w : Q) :
  length cids = length X →
  (a, b, w) ∈ build_edges cfg X cids →
  (same_cluster_only cfg = true → nth a cids 0%Z = nth b cids 0%Z) ∧
  (nth a cids 0%Z ≠ nth b cids 0%Z → (min_sim cfg <= w)%Q) ∧
  ((w < min_sim cfg)%Q →
     add_cluster_mst cfg = true ∧ nth a cids 0%Z = nth b cids 0%Z ∧
     (min_sim cfg * (1 # 2) <= w)%Q).
Proof.
  intros Hcids [(i & j & lst & Hlk & Hjs & Hc)|(u & v & Hm & Hq & Hc)]
    %build_edges_origin.
  - destruct (neighbors_lookup_spec _ _ _ _ _ _ _ Hcids Hlk) as (_ & _ & Hm).
    destruct (Hm _ _ Hjs) as (_ & _ & _ & Hq & Hsame).
    split; [|split].
    + intros Hsco. specialize (Hsame Hsco).
      apply canon_cases in Hc as [[-> ->]|[-> ->]]; done.
    + done.
    + intros Hlt. lra.
  - assert (Hflag : add_cluster_mst cfg = true).
    { destruct (add_cluster_mst cfg); [done|]. by apply elem_of_nil in Hm. }
    apply cluster_mst_edges_spec in Hm as (_ & _ & _ & Hsame & _).
    assert (Hab : nth a cids 0%Z = nth b cids 0%Z).
    { apply canon_cases in Hc as [[-> ->]|[-> ->]]; done. }
    split; [done|]. split; [done|]. done.
Qed.

(** X8.  The payload has at most [N * top_k + (N - C)] links, [C] the
    number of clusters. *)
Theorem build_edges_length (cfg : Config) (X : matrix) (cids : list Z) :
  length cids = length X →
  length (build_edges cfg X cids)
  ≤ length X * Z.to_nat (top_k cfg)
    + (length X - length (group_by_cid cids)).
Proof.
  intros Hcids. unfold build_edges. rewrite dedup_edges_unfold.
  etrans; [apply dedup_from_length|]. unfold proposals.
  rewrite length_app, neighbor_stream_length. apply Nat.add_le_mono.
  - rewrite <- (neighbors_length X cids (top_k cfg) (min_sim cfg)
                  (same_cluster_only cfg)).
    apply concat_length_bound, Forall_forall. intros lst Hin.
    apply list_elem_of_lookup in Hin as [i Hlk].
    by destruct (neighbors_lookup_spec _ _ _ _ _ _ _ Hcids Hlk) as (_ & ? & _).
  - etrans; [apply mst_stream_length|].
    destruct (add_cluster_mst cfg); [|simpl; lia].
    pose proof (cluster_mst_edges_length X cids). lia.
Qed.
End EdgeListContract.


Lemma build_edges_floor_witness :
  ∃ w, (0, 1, w) ∈ build_edges (H:=np_ref) cfg_default X_tie [0; 0; 0]%Z ∧
       ((w < min_sim cfg_default)%Q →
        (min_sim cfg_default * (1 # 2) <= w)%Q).
Proof.
  eexists. split; [vm_compute; apply list_elem_of_here|]. intros Hlt.
  eapply (build_edges_floor (np:=np_ref) (H:=np_ref_contract) cfg_default
            X_tie [0; 0; 0]%Z 0 1 _ eq_refl); [|exact Hlt].
  vm_compute. apply list_elem_of_here.
Defined.

Lemma build_edges_length_witness :
  length (build_edges (H:=np_ref) cfg_default X_tie [0; 0; 0]%Z)
  ≤ 3 * 8 + (3 - 1).
Proof.
  apply (build_edges_length (np:=np_ref) (H:=np_ref_contract) cfg_default
           X_tie [0; 0; 0]%Z eq_refl).
Defined.

(** X4.  With the augmenter switched on, the trees of all clusters
    together have as many edges as there are rows less the number of
    clusters; switched off, there is none. *)
Theorem cluster_mst_edge_count (X : matrix) (cids : list Z) :
  length (cluster_mst_edges X cids true) + length (group_by_cid cids)
  = length cids ∧
  length (group_by_cid cids) ≤ length cids ∧
  cluster_mst_edges X cids false = [].
Proof.
  pose proof (cluster_mst_edges_length X cids) as Hlen.
  split; [done|]. split; [lia|done].
Qed.

(** *** Connectivity of the clusters *)

Section ClusterConnectivity.
Context `{NumPy}.

(** X7.  With the augmenter on, if any two rows of one cluster are at
    least half of [min_sim] similar, then in the exported graph every
    two rows of one cluster are joined by a path of links. *)
Theorem clusters_connected (cfg : Config) (X : matrix) (cids : list Z) :
  add_cluster_mst cfg = true →
  (∀ i j, i < length cids → j < length cids →
          nth i cids 0%Z = nth j cids 0%Z →
          (min_sim cfg * (1 # 2) <= dot (row X i) (row X j))%Q) →
  ∀ i j, i < length cids → j < length cids →
         nth i cids 0%Z = nth j cids 0%Z →
         connected (build_edges cfg X cids) i j.
Proof.
  intros Hflag Hsim i j Hi Hj Hc.
  destruct (group_by_cid_lookup cids i Hi) as [Hgrp Hii].
  destruct (group_by_cid_lookup cids j Hj) as [_ Hjj].
  rewrite <- Hc in Hjj. set (c := nth i cids 0%Z) in *.
  set (idxs := members_from 0 c cids) in *.
  destruct (cluster_mst_spec X idxs (members_from_nodup _ _ _))
    as [Hbig Hsmall].
  destruct (Nat.le_gt_cases (length idxs) 1) as [Hl|Hl].
  { destruct idxs as [|x [|y idxs']]; [by apply elem_of_nil in Hii| |].
    - apply list_elem_of_singleton in Hii as ->.
      apply list_elem_of_singleton in Hjj as ->. reflexivity.
    - simpl in Hl. lia. }
  destruct (Hbig Hl) as (_ & Hends & Hconn & _).
  eapply connected_sub; [|exact (Hconn i j Hii Hjj)].
  intros u v w Huv. destruct (Hends _ _ _ Huv) as (Hu & Hv & Hw).
  apply elem_of_members_from in Hu as (_ & Hu & Hcu).
  apply elem_of_members_from in Hv as (_ & Hv & Hcv).
  rewrite Nat.sub_0_r in Hcu, Hcv. simpl in Hu, Hv.
  destruct (build_edges_complete cfg X cids (u, v, w)) as [w' Hin].
  - unfold proposals. apply elem_of_app. right. unfold mst_stream.
    apply list_elem_of_In, filter_In. split.
    + apply list_elem_of_In. rewrite Hflag.
      apply elem_of_cluster_mst_edges. by exists c.
    + simpl. apply Qle_bool_iff. rewrite Hw. apply Hsim; [done..|congruence].
  - exists w'. simpl in Hin. unfold canon in Hin.
    destruct (u <? v); auto.
Qed.
End ClusterConnectivity.

Lemma clusters_connected_witness :
  connected (build_edges (H:=np_ref) cfg_default [[1; 0]; [3 # 5; 4 # 5]]%Q
               [0; 0]%Z) 0 1.
Proof.
  apply (clusters_connected (H:=np_ref) cfg_default [[1; 0]; [3 # 5; 4 # 5]]%Q
           [0; 0]%Z eq_refl).
  - intros [|[|i]] [|[|j]] Hi Hj _; simpl in Hi, Hj; try lia;
      vm_compute; discriminate.
  - simpl. lia.
  - simpl. lia.
  - reflexivity.
Defined.

(** *** No row with an eligible neighbor stays isolated *)

Section NearestLinked.
Context `{NumPyContract}.

(** If some entry of [sims] reaches the floor, the first index of
    [top_idx] is emitted and is at least as similar. *)
Lemma emit_top_best (sims : list ext) (gidx : nat → nat) (k_eff : Z)
    (min_sim : Q) (jj : nat) (s : Q) :
  (0 < k_eff ≤ Z.of_nat (length sims))%Z →
  (∀ p, getx sims p ≠ PosInf) →
  jj < length sims → getx sims jj = Fin s → (min_sim <= s)%Q →
  ∃ h s', (gidx h, s')
            ∈ emit_pairs min_sim sims gidx (top_indices sims k_eff) ∧
          (s <= s')%Q.
Proof.
  intros Hk Hfin Hjj Hg Hq.
  destruct (top_indices_spec sims k_eff Hk) as (Hnd & Hlen & Hrange & Hsorted).
  pose proof (top_indices_dominate sims k_eff) as Hdom.
  destruct (top_indices sims k_eff) as [|h tl] eqn:Hti. { simpl in Hlen. lia. }
  assert (Hle : ext_leb (getx sims jj) (getx sims h) = true).
  { destruct (decide (jj ∈ h :: tl)) as [Hin|Hnin].
    - apply elem_of_cons in Hin as [->|Hin]; [apply ext_leb_refl|].
      apply StronglySorted_inv in Hsorted as [_ Hall].
      rewrite Forall_forall in Hall. by apply Hall.
    - apply (Hdom h jj Hk); [apply list_elem_of_here|done|done]. }
  rewrite Hg in Hle.
  destruct (getx sims h) as [|s'|] eqn:Hh; [done| |by destruct (Hfin h)].
  simpl in Hle. apply Qle_bool_iff in Hle.
  exists h, s'. split; [|done]. apply elem_of_emit_pairs. exists h.
  split; [apply list_elem_of_here|]. split; [done|]. split; [|done].
  unfold Qltb. apply negb_false_iff, Qle_bool_iff. lra.
Qed.

Lemma neighbors_row_best (X : matrix) (cids : list Z) (top_k : Z)
    (min_sim : Q) (sco : bool) (i j : nat) :
  length cids = length X → (0 < top_k)%Z →
  i < length X → j < length X → j ≠ i →
  (min_sim <= dot (row X i) (row X j))%Q →
  (sco = true → nth j cids 0%Z = nth i cids 0%Z) →
  ∃ lst j' s', neighbors X cids top_k min_sim sco !! i = Some lst ∧
               (j', s') ∈ lst ∧ (dot (row X i) (row X j) <= s')%Q.
Proof.
  intros Hcids Hk Hi Hj Hne Hq Hsame.
  rewrite neighbors_rows by lia.
  rewrite list_lookup_fmap, lookup_seq_lt by done. simpl.
  destruct sco; eexists.
  - set (idxs := members_from 0 (nth i cids 0%Z) cids).
    assert (Hin : j ∈ idxs).
    { apply elem_of_members_from. rewrite Nat.sub_0_r.
      split; [lia|]. split; [simpl; lia|]. by apply Hsame. }
    apply list_elem_of_lookup in Hin as [jj Hjj].
    pose proof (lookup_lt_Some _ _ _ Hjj) as Hlt.
    assert (Hnth : nth jj idxs 0 = j) by (by apply nth_lookup_Some).
    assert (Hls : length (sims_cluster X idxs i) = length idxs).
    { unfold sims_cluster. by rewrite length_map. }
    destruct (emit_top_best (sims_cluster X idxs i) (λ jj, nth jj idxs 0)
                (Z.min top_k (Z.of_nat (length (sims_cluster X idxs i))))
                min_sim jj (dot (row X i) (row X j)))
      as (h & s' & Hin & Hle).
    + lia.
    + apply sims_cluster_no_posinf.
    + lia.
    + rewrite getx_sims_cluster by done. rewrite Hnth. by rewrite decide_False.
    + done.
    + exists (nth h idxs 0), s'. split; [reflexivity|]. split; [|done].
      unfold row_neighbors_cluster. cbv zeta. fold idxs.
      destruct (Z.ltb_spec 0 (Z.min top_k
                  (Z.of_nat (length (sims_cluster X idxs i))))); [done|lia].
  - assert (Hls : length (sims_row X i) = length X).
    { unfold sims_row. by rewrite length_insert, length_map. }
    destruct (emit_top_best (sims_row X i) id
                (Z.min top_k (Z.of_nat (length X) - 1))
                min_sim j (dot (row X i) (row X j)))
      as (h & s' & Hin & Hle).
    + lia.
    + apply sims_row_no_posinf.
    + lia.
    + rewrite getx_sims_row. rewrite decide_False by done.
      by rewrite decide_True.
    + done.
    + exists h, s'. split; [reflexivity|]. split; [|done].
      unfold row_neighbors. cbv zeta.
      destruct (Z.ltb_spec 0 (Z.min top_k (Z.of_nat (length X) - 1)));
        [done|lia].
Qed.

(** X9.  A row with an eligible neighbor is not left isolated: if
    [top_k >= 1] and some other row [j] (of the same cluster in
    same-cluster mode) is at least [min_sim] similar to row [i], then
    row [i] has a link to a row at least as similar to it as [j]. *)
Theorem nearest_is_linked (cfg : Config) (X : matrix) (cids : list Z)
    (i j : nat) :
  length cids = length X → (0 < top_k cfg)%Z →
  i < length X → j < length X → j ≠ i →
  (min_sim cfg <= dot (row X i) (row X j))%Q →
  (same_cluster_only cfg = true → nth j cids 0%Z = nth i cids 0%Z) →
  ∃ j' w, ((i, j', w) ∈ build_edges cfg X cids ∨
           (j', i, w) ∈ build_edges cfg X cids) ∧
          w = dot (row X i) (row X j') ∧
          (dot (row X i) (row X j) <= w)%Q.
Proof.
  intros Hcids Hk Hi Hj Hne Hq Hsame.
  destruct (neighbors_row_best X cids (top_k cfg) (min_sim cfg)
              (same_cluster_only cfg) i j Hcids Hk Hi Hj Hne Hq Hsame)
    as (lst & j' & s' & Hlk & Hin & Hle).
  destruct (neighbors_lookup_spec _ _ _ _ _ _ _ Hcids Hlk) as (_ & _ & Hm).
  destruct (Hm _ _ Hin) as (_ & _ & Hs' & _).
  destruct (build_edges_complete cfg X cids (i, j', s')) as [w Hw].
  { unfold proposals. apply elem_of_app. left.
    apply elem_of_neighbor_stream. by exists lst. }
  simpl in Hw. exists j', w.
  assert (Hwd : w = dot (row X i) (row X j')).
  { unfold canon in Hw. destruct (i <? j');
      apply (build_edges_weight _ _ _ _ _ _ Hcids) in Hw as ->;
      [done|apply dot_comm]. }
  split; [|split; [done|by rewrite Hwd, <- Hs']].
  unfold canon in Hw. destruct (i <? j'); auto.
Qed.
End NearestLinked.

Lemma nearest_is_linked_witness :
  ∃ j' w, ((0, j', w) ∈ build_edges (H:=np_ref) cfg_default
                          [[1; 0]; [1; 0]; [3 # 5; 4 # 5]]%Q [0; 0; 1]%Z ∨
           (j', 0, w) ∈ build_edges (H:=np_ref) cfg_default
                          [[1; 0]; [1; 0]; [3 # 5; 4 # 5]]%Q [0; 0; 1]%Z) ∧
          (1 <= w)%Q.
Proof.
  destruct (nearest_is_linked (np:=np_ref) (H:=np_ref_contract) cfg_default
              [[1; 0]; [1; 0]; [3 # 5; 4 # 5]]%Q [0; 0; 1]%Z 0 1)
    as (j' & w & Hin & _ & Hle).
  - reflexivity.
  - reflexivity.
  - simpl. lia.
  - simpl. lia.
  - lia.
  - vm_compute. discriminate.
  - discriminate.
  - exists j', w. split; [exact Hin|].
    change (dot (row [[1; 0]; [1; 0]; [3 # 5; 4 # 5]]%Q 0)
                (row [[1; 0]; [1; 0]; [3 # 5; 4 # 5]]%Q 1) <= w)%Q in Hle.
    exact Hle.
Defined.

(** ** The canvas *)

Lemma trunc_bounds (lo hi : Z) (q : Q) :
  (inject_Z lo <= q)%Q → (q <= inject_Z hi)%Q → (lo ≤ trunc q ≤ hi)%Z.
Proof.
  intros Hlo Hhi. unfold trunc. destruct (Qle_bool 0 q).
  - split.
    + rewrite <- (Qfloor_Z lo). by apply Qfloor_resp_le.
    + rewrite <- (Qfloor_Z hi). by apply Qfloor_resp_le.
  - split.
    + rewrite <- (Qceiling_Z lo). by apply Qceiling_resp_le.
    + rewrite <- (Qceiling_Z hi). by apply Qceiling_resp_le.
Qed.

(** A coordinate of the unit interval lands between the paddings. *)
Lemma to_canvas_bounds (pad size : Z) (t : Q) :
  (2 * pad ≤ size)%Z → (0 <= t <= 1)%Q →
  (pad ≤ to_canvas pad size t ≤ size - pad)%Z.
Proof.
  intros Hp [H0 H1]. unfold to_canvas.
  assert (Hs : (0 <= inject_Z (size - 2 * pad))%Q).
  { change 0%Q with (inject_Z 0). rewrite <- Zle_Qle. lia. }
  apply trunc_bounds.
  - nra.
  - replace (size - pad)%Z with (pad + (size - 2 * pad))%Z by lia.
    rewrite inject_Z_plus. nra.
Qed.

Lemma normalize_bounds (coords_arr : list point) (p : point) :
  p ∈ normalize coords_arr → (0 <= p.1 <= 1)%Q ∧ (0 <= p.2 <= 1)%Q.
Proof.
  intros Hp.
  assert (Hne : coords_arr ≠ []).
  { intros ->. by apply elem_of_nil in Hp. }
  split.
  - destruct (normalize_axis (map fst coords_arr)) as (Hb & _).
    { by destruct coords_arr. }
    apply Hb. rewrite <- normalize_fst.
    apply list_elem_of_In, in_map, list_elem_of_In, Hp.
  - destruct (normalize_axis (map snd coords_arr)) as (Hb & _).
    { by destruct coords_arr. }
    apply Hb. rewrite <- normalize_snd.
    apply list_elem_of_In, in_map, list_elem_of_In, Hp.
Qed.

Section Canvas.
Context `{NumPy} `{Backends}.

End Canvas.


(** ** The declutter pass keeps the count and the centre of mass *)

Lemma Qsum_alter_fst (f : point → point) (c : Q) (i : nat) (P : list point) :
  i < length P → (∀ p, ((f p).1 == p.1 + c)%Q) →
  (Qsum (map fst (alter f i P)) == Qsum (map fst P) + c)%Q.
Proof.
  intros Hi Hf. revert i Hi.
  induction P as [|p P IH]; intros [|i] Hi; simpl in Hi; try lia.
  - cbn. specialize (Hf p). fold (Qsum (map fst P)).
    generalize dependent (Qsum (map fst P)). intros. lra.
  - cbn. fold (Qsum (map fst (alter f i P))). fold (Qsum (map fst P)).
    specialize (IH i ltac:(lia)).
    generalize dependent (Qsum (map fst (alter f i P))).
    generalize dependent (Qsum (map fst P)). intros. lra.
Qed.

Lemma Qsum_alter_snd (f : point → point) (c : Q) (i : nat) (P : list point) :
  i < length P → (∀ p, ((f p).2 == p.2 + c)%Q) →
  (Qsum (map snd (alter f i P)) == Qsum (map snd P) + c)%Q.
Proof.
  intros Hi Hf. revert i Hi.
  induction P as [|p P IH]; intros [|i] Hi; simpl in Hi; try lia.
  - cbn. specialize (Hf p). fold (Qsum (map snd P)).
    generalize dependent (Qsum (map snd P)). intros. lra.
  - cbn. fold (Qsum (map snd (alter f i P))). fold (Qsum (map snd P)).
    specialize (IH i ltac:(lia)).
    generalize dependent (Qsum (map snd (alter f i P))).
    generalize dependent (Qsum (map snd P)). intros. lra.
Qed.

Section SpreadInvariants.
Context `{NumPy}.

Lemma same_mass_refl (P : list point) : same_mass P P.
Proof. by split; [|split]. Qed.

Lemma same_mass_trans (P P' P'' : list point) :
  same_mass P P' → same_mass P' P'' → same_mass P P''.
Proof.
  intros (Hl & Hx & Hy) (Hl' & Hx' & Hy'). split; [congruence|].
  split; [by rewrite Hx'|by rewrite Hy'].
Qed.

Lemma push_pair_mass (r_min xi yi : Q) (ii jj : nat) (P : list point) :
  ii < length P → same_mass P (push_pair r_min xi yi ii P jj).
Proof.
  intros Hii. split; [apply push_pair_length|].
  unfold push_pair. destruct (Nat.leb_spec jj ii) as [Hle|Hlt]; [done|].
  destruct (P !! jj) as [pj|] eqn:Hjj; [|done].
  pose proof (lookup_lt_Some _ _ _ Hjj) as Hjl.
  destruct (Qltb _ _ && Qltb _ _); [|done].
  set (dx := (xi - pj.1)%Q). set (dy := (yi - pj.2)%Q).
  set (push := ((1 # 2) * (r_min - np_sqrt (dx * dx + dy * dy))
                / np_sqrt (dx * dx + dy * dy))%Q).
  split.
  - etrans; [apply (Qsum_alter_fst _ (- (dx * push))%Q);
             [by rewrite length_alter|intros p; simpl; ring]|].
    match goal with
    | |- context [alter ?f ii P] =>
        pose proof (Qsum_alter_fst f (dx * push)%Q ii P Hii) as E
    end.
    rewrite E by (intros p; simpl; ring). ring.
  - etrans; [apply (Qsum_alter_snd _ (- (dy * push))%Q);
             [by rewrite length_alter|intros p; simpl; ring]|].
    match goal with
    | |- context [alter ?f ii P] =>
        pose proof (Qsum_alter_snd f (dy * push)%Q ii P Hii) as E
    end.
    rewrite E by (intros p; simpl; ring). ring.
Qed.

Lemma relax_point_mass (r_min : Q) (hot : list nat) (P : list point)
    (ii : nat) :
  same_mass P (relax_point r_min hot P ii).
Proof.
  unfold relax_point. destruct (P !! ii) as [pi|] eqn:Hii;
    [|apply same_mass_refl].
  apply lookup_lt_Some in Hii. revert P Hii.
  induction hot as [|jj hot IH]; intros P Hii; simpl; [apply same_mass_refl|].
  eapply same_mass_trans; [by apply push_pair_mass|].
  apply IH. by rewrite push_pair_length.
Qed.

Lemma fold_mass {A} (f : list point → A → list point) (l : list A)
    (P : list point) :
  (∀ P a, same_mass P (f P a)) → same_mass P (fold_left f l P).
Proof.
  intros Hf. revert P. induction l as [|a l IH]; intros P; simpl;
    [apply same_mass_refl|].
  eapply same_mass_trans; [apply Hf|apply IH].
Qed.

(** X11.  [_spread] moves points but neither adds nor drops one, and
    since it pushes the two points of a pair by opposite amounts, the
    sums of the x and of the y coordinates stay what they were. *)
Theorem spread_keeps_mass (P P' : list point) (r_min : Q) (iters : nat) :
  _spread P r_min iters = Ok P' →
  length P' = length P ∧
  (Qsum (map fst P') == Qsum (map fst P))%Q ∧
  (Qsum (map snd P') == Qsum (map snd P))%Q.
Proof.
  change (_spread P r_min iters = Ok P' → same_mass P P').
  revert P. induction iters as [|n IH]; intros P; simpl.
  { intros <-%Ok_inj. apply same_mass_refl. }
  intros (P1 & Hpass & Hrest)%rbind_ok.
  eapply same_mass_trans; [|by apply IH].
  unfold spread_pass in Hpass. destruct P as [|p P].
  { apply Ok_inj in Hpass as <-. apply same_mass_refl. }
  destruct (Qeq_bool r_min 0); [done|]. apply Ok_inj in Hpass as <-.
  apply fold_mass. intros P0 b. unfold relax_bucket.
  apply fold_mass. intros P1 ii. apply relax_point_mass.
Qed.
End SpreadInvariants.

Lemma spread_keeps_mass_witness :
  ∃ P', _spread (H:=np_ref) [(0, 0); (6 # 1000, 0); (1, 1)]%Q (1 # 100) 1
          = Ok P' ∧
        length P' = 3 ∧ (Qsum (map fst P') == 1 + (6 # 1000))%Q.
Proof.
  eexists. split; [vm_compute; reflexivity|].
  destruct (spread_keeps_mass (H:=np_ref)
              [(0, 0); (6 # 1000, 0); (1, 1)]%Q _ (1 # 100) 1 eq_refl)
    as (Hl & Hx & _).
  split; [exact Hl|]. rewrite Hx. reflexivity.
Defined.

(** ** The command line *)

Lemma lower_choice (m : string) : m ∈ coords_choices → lower m = m.
Proof.
  unfold coords_choices. rewrite !elem_of_cons, elem_of_nil.
  intros [->|[->|[->|[->|[]]]]]; reflexivity.
Qed.

Section CommandProofs.
Context `{NumPy} `{Backends}.

Lemma build_payload_ambient (db : Database) (cfg : Config)
    (amb1 amb2 : Ambient) (generated_at : string) :
  lower (coords_method cfg) ≠ "fa2" →
  build_payload db cfg amb1 generated_at
  = build_payload db cfg amb2 generated_at.
Proof.
  intros Hne. unfold build_payload, compute_coords.
  destruct (db_rows db) as [|r0 rows]; [done|].
  destruct (load_embeddings db _) as [ve|]; [|done]. cbn [mbind result_bind].
  destruct (embedding_matrix _ _) as [X|]; [|done]. cbn [mbind result_bind].
  by rewrite (select_layout_ambient cfg X _ amb1 amb2 (or_introl Hne)).
Qed.

(** The matrix has one row per paper. *)
Lemma embedding_matrix_length (vec_by_id : gmap string vec)
    (ids : list string) (X : matrix) :
  embedding_matrix vec_by_id ids = Ok X → length X = length ids.
Proof.
  unfold embedding_matrix. destruct (List.filter _ ids); [|done].
  unfold vstack. destruct (map _ ids) as [|r rs] eqn:Hmap; [done|].
  destruct (forallb _ rs); [|done]. intros <-%Ok_inj.
  by rewrite <- Hmap, length_map.
Qed.

(** What the selection returns for the names the parser lets through. *)
Lemma select_layout_choice (cfg : Config) (X : matrix)
    (edge_list : list edge) (amb : Ambient) (c : option (list point))
    (used : string) :
  coords_method cfg ∈ coords_choices → coords_method cfg ≠ "none" →
  select_layout cfg X edge_list amb = Ok (c, used) →
  is_Some c ∧
  (used = coords_method cfg ∨ (coords_method cfg = "umap" ∧ used = "pca")).
Proof.
  intros Hin Hnone. unfold select_layout.
  rewrite (lower_choice _ Hin).
  unfold coords_choices in Hin. rewrite !elem_of_cons, elem_of_nil in Hin.
  destruct Hin as [Hm|[Hm|[Hm|[Hm|[]]]]]; [| |done|]; rewrite Hm.
  - rewrite decide_False by (by intros [?|?]). rewrite decide_True by done.
    cbn [mbind result_bind]. unfold umap_branch.
    destruct (umap_fit_transform _ _ _ _) as [cu|].
    + intros [= <- <-]. split; [by eexists|by left].
    + rewrite decide_True by done.
      destruct (pca_fit_transform _ _) as [cp|]; [|done].
      intros [= <- <-]. split; [by eexists|by right].
  - rewrite decide_False by (by intros [?|?]). rewrite decide_False by done.
    cbn [mbind result_bind]. rewrite decide_True by done.
    destruct (pca_fit_transform _ _) as [cp|]; [|done].
    intros [= <- <-]. split; [by eexists|by left].
  - rewrite decide_True by (by right). unfold force_branch.
    destruct networkx_available; [|done]. cbn [negb].
    rewrite decide_False by done. rewrite decide_True by done.
    destruct (spring_layout _ _ _ ≫= gather_pos _) as [cf|]; [|done].
    cbn [mbind result_bind]. intros [= <- <-]. split; [by eexists|by left].
Qed.


(** X13.  What the command writes says whether it holds coordinates:
    when [cmd_export_graph] returns a path, the file at this path has
    [meta.coords.included] true exactly when [--coords] is not "none"
    and there are at least two papers, and [meta.coords.method] is then
    the requested layout, or "pca" for a "umap" that failed. *)
Theorem cmd_export_coords (connect : string → Database) (args : Args)
    (amb : Ambient) (generated_at : string) (fs fs' : gmap string json)
    (path : string) :
  arg_coords args ∈ coords_choices →
  cmd_export_graph connect args amb generated_at fs = (fs', Ok path) →
  let with_coords :=
    negb (bool_decide (arg_coords args = "none"))
    && (2 <=? length (db_rows (connect (arg_db args)))) in
  ∃ payload used,
    fs' !! path = Some payload ∧
    meta_coords "included" payload = Some (JBool with_coords) ∧
    meta_coords "method" payload = Some (JStr used) ∧
    (with_coords = false → used = "none") ∧
    (with_coords = true →
       used = arg_coords args ∨ (arg_coords args = "umap" ∧ used = "pca")).
Proof.
  intros Hin. unfold cmd_export_graph, export_json_graph.
  set (db := connect (arg_db args)). set (cfg := args_config args).
  destruct (build_payload db cfg amb generated_at) as [payload|] eqn:Hp;
    [|done].
  intros [= <- <-]. cbv zeta. exists payload.
  apply build_payload_ok in Hp
    as (ve & X & xm & nodes & Hrows & Hload & HX & Hxm & Hnodes & ->).
  apply embedding_matrix_length in HX as HN. rewrite length_map in HN.
  exists xm.2. split; [apply lookup_insert_eq|].
  assert (Hsel : xm = (None, "none") ∧
                 negb (bool_decide (arg_coords args = "none"))
                 && (2 <=? length (db_rows db)) = false ∨
                 is_Some xm.1 ∧
                 negb (bool_decide (arg_coords args = "none"))
                 && (2 <=? length (db_rows db)) = true ∧
                 (xm.2 = arg_coords args ∨
                  arg_coords args = "umap" ∧ xm.2 = "pca")).
  { unfold compute_coords in Hxm. cbn [include_coords coords_method cfg
      args_config] in Hxm.
    rewrite (lower_choice _ Hin), HN in Hxm.
    destruct (bool_decide (arg_coords args = "none")) eqn:Hnone;
      cbn [negb andb] in Hxm; [apply Ok_inj in Hxm as <-; by left|].
    destruct (2 <=? length (db_rows db)); cbn [negb andb] in Hxm;
      [|apply Ok_inj in Hxm as <-; by left].
    right. apply rbind_ok in Hxm as ([c used] & Hs & Hxm).
    apply select_layout_choice in Hs as [[coords_arr ->] Hused];
      [|done|by apply bool_decide_eq_false in Hnone].
    cbn [fst snd] in Hxm.
    apply rbind_ok in Hxm as (norm & _ & <-%Ok_inj). cbn.
    split; [by eexists|]. split; [done|]. exact Hused. }
  cbv zeta. destruct Hsel as [[-> ->]|(Hsome & -> & Hused)];
    unfold meta_coords; cbn.
  - split; [done|]. split; [done|]. split; [done|]. done.
  - rewrite bool_decide_eq_true_2 by done.
    split; [done|]. split; [done|]. split; [done|]. by intros _.
Qed.
End CommandProofs.


Lemma cmd_export_coords_witness :
  ∃ payload,
    (cmd_export_graph (H:=np_ref) (H0:=backends_ok) (λ _, db_two)
       (default_args "papers.db" "graph.json") tt
       "2024-01-01T00:00:00+00:00" ∅).1 !! "graph.json" = Some payload ∧
    meta_coords "included" payload = Some (JBool true).
Proof.
  destruct (cmd_export_coords (H:=np_ref) (H0:=backends_ok) (λ _, db_two)
              (default_args "papers.db" "graph.json") tt
              "2024-01-01T00:00:00+00:00" ∅
              (cmd_export_graph (H:=np_ref) (H0:=backends_ok) (λ _, db_two)
                 (default_args "papers.db" "graph.json") tt
                 "2024-01-01T00:00:00+00:00" ∅).1 "graph.json")
    as (payload & used & Hfile & Hinc & _).
  - vm_compute. set_solver.
  - vm_compute. reflexivity.
  - exists payload. split; [exact Hfile|exact Hinc].
Defined.

(** ** The payload *)

Section PayloadProofs.
Context `{NumPy} `{Backends}.

Lemma select_layout_case (cfg : Config) (m : string) (X : matrix)
    (edge_list : list edge) (amb : Ambient) :
  lower m = lower (coords_method cfg) →
  select_layout (with_method cfg m) X edge_list amb
  = select_layout cfg X edge_list amb.
Proof.
  intros Hm. unfold select_layout. cbn [coords_method with_method].
  rewrite Hm. reflexivity.
Qed.

(** X14.  The layout name is matched without regard to letter case: a
    configuration whose [coords_method] differs from another only in
    the case of its letters yields the same payload. *)
Theorem coords_method_case (db : Database) (cfg : Config) (m : string)
    (amb : Ambient) (generated_at : string) :
  lower m = lower (coords_method cfg) →
  build_payload db (with_method cfg m) amb generated_at
  = build_payload db cfg amb generated_at.
Proof.
  intros Hm. unfold build_payload, compute_coords.
  destruct (db_rows db) as [|r0 rows]; [done|].
  change (make_paper (with_method cfg m)) with (make_paper cfg).
  destruct (load_embeddings db _) as [ve|]; [|done]. cbn [mbind result_bind].
  destruct (embedding_matrix _ _) as [X|]; [|done]. cbn [mbind result_bind].
  change (build_edges (with_method cfg m)) with (build_edges cfg).
  rewrite select_layout_case by done.
  cbn [coords_method include_coords with_method]. rewrite Hm.
  reflexivity.
Qed.

Lemma rmapM_lookup {A B} (f : A → result B) (l : list A) (l' : list B) :
  rmapM f l = Ok l' →
  length l' = length l ∧
  ∀ i b, l' !! i = Some b → ∃ a, l !! i = Some a ∧ f a = Ok b.
Proof.
  revert l'. induction l as [|a l IH]; intros l'; simpl.
  { intros <-%Ok_inj. split; [done|]. by intros i b ?. }
  intros (b0 & Hb0 & (bs & Hbs & <-%Ok_inj)%rbind_ok)%rbind_ok.
  destruct (IH _ Hbs) as [Hlen Hlk]. split; [simpl; lia|].
  intros [|i] b; simpl.
  - intros [= <-]. by exists a.
  - apply Hlk.
Qed.

(** One node of the payload. *)
Lemma make_node_fields (cfg : Config) (xy : option (list Z * list Z))
    (i : nat) (p : Paper) (n : json) :
  make_node cfg xy i p = Ok n →
  ∃ nd, n = JDict nd ∧
    assoc "id" nd
      = Some (if compact cfg then JInt (Z.of_nat i) else JStr (aid p)) ∧
    assoc "cid" nd = Some (JInt (cid p)) ∧
    match xy with
    | None => assoc "x" nd = None ∧ assoc "y" nd = None
    | Some (xs, ys) =>
        ∃ x y, xs !! i = Some x ∧ ys !! i = Some y ∧
               assoc "x" nd = Some (JInt x) ∧ assoc "y" nd = Some (JInt y)
    end.
Proof.
  unfold make_node. intros (c & Hc & Hn)%rbind_ok.
  assert (Hxy : match xy with
                | None => c = []
                | Some (xs, ys) =>
                    ∃ x y, xs !! i = Some x ∧ ys !! i = Some y ∧
                           c = [("x", JInt x); ("y", JInt y)]
                end).
  { unfold node_xy in Hc. destruct xy as [[xs ys]|].
    - destruct (xs !! i) as [x|]; [|done]. destruct (ys !! i) as [y|]; [|done].
      apply Ok_inj in Hc as <-. by exists x, y.
    - by apply Ok_inj in Hc as <-. }
  destruct (compact cfg); apply Ok_inj in Hn as <-; eexists; (split; [done|]).
  - split; [done|]. split; [done|].
    destruct xy as [[xs ys]|].
    + destruct Hxy as (x & y & Hx & Hy & ->). exists x, y.
      split; [done|]. split; [done|].
      by destruct (include_summaries cfg); [destruct (sm p)|].
    + subst c. by destruct (include_summaries cfg); [destruct (sm p)|].
  - split; [done|]. split; [done|].
    destruct xy as [[xs ys]|].
    + destruct Hxy as (x & y & Hx & Hy & ->). by exists x, y.
    + by subst c.
Qed.

(** X16.  Coordinates come for all nodes or for none, as
    [meta.coords.included] says: when it is true every node has an
    integer "x" and "y", when it is false no node has either. *)
Theorem payload_coords_all_or_none (db : Database) (cfg : Config)
    (amb : Ambient) (generated_at : string) (payload : json) :
  build_payload db cfg amb generated_at = Ok payload →
  ∃ nodes included,
    jfield "nodes" payload = Some (JList nodes) ∧
    meta_coords "included" payload = Some (JBool included) ∧
    ∀ n, n ∈ nodes →
      ∃ nd, n = JDict nd ∧
        if included
        then ∃ x y, assoc "x" nd = Some (JInt x) ∧ assoc "y" nd = Some (JInt y)
        else assoc "x" nd = None ∧ assoc "y" nd = None.
Proof.
  intros (ve & X & xm & nodes & _ & _ & _ & _ & Hnodes & ->)%build_payload_ok.
  exists nodes, (bool_decide (is_Some xm.1)).
  split; [done|]. split; [done|].
  intros n [i Hi]%list_elem_of_lookup.
  destruct (rmapM_lookup _ _ _ Hnodes) as [_ Hlk].
  destruct (Hlk i n Hi) as ([i' p] & _ & Hmk). simpl in Hmk.
  apply make_node_fields in Hmk as (nd & -> & _ & _ & Hxy).
  exists nd. split; [done|]. destruct (xm.1) as [[xs ys]|].
  - rewrite bool_decide_eq_true_2 by (by eexists).
    destruct Hxy as (x & y & _ & _ & Hx & Hy). by exists x, y.
  - rewrite bool_decide_eq_false_2 by (by intros [? ?]). done.
Qed.
End PayloadProofs.

Section PayloadLinks.
Context `{NumPyContract} `{Backends}.

End PayloadLinks.

(** ** The legend *)

Lemma count_sum_cons (D : list Z) (x : Z) (cids : list Z) :
  NoDup D →
  Zsum (map (λ c, Z.of_nat (length (List.filter (Z.eqb c) (x :: cids)))) D)
  = ((if decide (x ∈ D) then 1 else 0)
     + Zsum (map (λ c, Z.of_nat (length (List.filter (Z.eqb c) cids))) D))%Z.
Proof.
  induction 1 as [|d D Hd HD IH].
  { destruct (decide (x ∈ [])) as [Hx%elem_of_nil|]; [done|]. reflexivity. }
  cbn [map Zsum fold_right]. unfold Zsum in IH. rewrite IH.
  cbn [List.filter].
  destruct (Z.eqb_spec d x) as [->|Hne]; cbn [length];
    destruct (decide (x ∈ D)) as [Hx|Hx];
    match goal with
    | |- context [decide (x ∈ ?l)] => destruct (decide (x ∈ l)) as [Hx'|Hx']
    end; try lia; exfalso; set_solver.
Qed.

Lemma count_sum (D cids : list Z) :
  NoDup D → (∀ c, c ∈ cids → c ∈ D) →
  Zsum (map (λ c, Z.of_nat (length (List.filter (Z.eqb c) cids))) D)
  = Z.of_nat (length cids).
Proof.
  intros HD. induction cids as [|x cids IH]; intros Hsub.
  - simpl. clear. induction D as [|d D IHD]; [done|].
    cbn [map Zsum fold_right]. unfold Zsum in IHD. by rewrite IHD.
  - rewrite count_sum_cons by done. rewrite IH by set_solver.
    rewrite decide_True by set_solver. cbn [length]. lia.
Qed.

(** X17.  The legend lists every cluster that has a paper once, by
    increasing cluster id, under the decimal key of the id, with the
    label found for it (or null); the sizes add up to the number of
    nodes. *)
Theorem clusters_legend (labels : gmap Z (option string))
    (cluster_ids : list Z) :
  let legend := make_clusters labels cluster_ids in
  (∃ cs, legend.*1 = map pretty cs ∧ StronglySorted Z.le cs ∧ NoDup cs ∧
         ∀ c, c ∈ cs ↔ c ∈ cluster_ids) ∧
  NoDup legend.*1 ∧
  (∀ c entry, (pretty c, entry) ∈ legend →
     jfield "label" entry = Some (JOptStr (default None (labels !! c))) ∧
     (1 ≤ legend_size entry)%Z ∧
     legend_size entry
     = Z.of_nat (length (List.filter (Z.eqb c) cluster_ids))) ∧
  Zsum (map (λ kv, legend_size kv.2) legend)
  = Z.of_nat (length cluster_ids).
Proof.
  intros legend. unfold legend, make_clusters.
  set (cs := merge_sort Z.le (remove_dups cluster_ids)).
  assert (Hperm : cs ≡ₚ remove_dups cluster_ids)
    by apply merge_sort_Permutation.
  assert (Hnd : NoDup cs).
  { rewrite Hperm. apply NoDup_remove_dups. }
  assert (Hmem : ∀ c, c ∈ cs ↔ c ∈ cluster_ids).
  { intros c. rewrite Hperm. apply elem_of_remove_dups. }
  split; [|split; [|split]].
  - exists cs. split.
    { rewrite <- list_fmap_compose. by apply list_fmap_ext. }
    split; [|done]. apply StronglySorted_merge_sort; apply _.
  - rewrite <- list_fmap_compose.
    apply (NoDup_fmap_2 (pretty : Z → string)), Hnd.
  - intros c entry
      (c' & [= ->%(inj pretty) <-] & Hc%list_elem_of_In)
      %list_elem_of_In%in_map_iff.
    split; [done|]. unfold legend_size. cbn. split; [|done].
    apply Hmem, list_elem_of_In in Hc.
    assert (Hf : In c (List.filter (Z.eqb c) cluster_ids)).
    { apply filter_In. split; [done|apply Z.eqb_refl]. }
    destruct (List.filter (Z.eqb c) cluster_ids); [done|]. simpl. lia.
  - rewrite map_map. cbn. apply count_sum; [done|]. intros c. apply Hmem.
Qed.

(** ** Cluster labels *)

Lemma fold_labels_lookup (rows : list MetaRow) (m0 : gmap Z (option string))
    (c : Z) :
  fold_left (λ m r, <[m_cluster_id r := m_label r]> m) rows m0 !! c
  = match last (List.filter (λ r, bool_decide (m_cluster_id r = c)) rows) with
    | Some r => Some (m_label r)
    | None => m0 !! c
    end.
Proof.
  revert m0. induction rows as [|r rows IH]; intros m0; [done|].
  cbn [fold_left List.filter]. rewrite IH.
  case_bool_decide as Hc; cbn.
  - destruct (List.filter _ rows) as [|r' l] eqn:Hf; cbn [last].
    + subst c. apply lookup_insert_eq.
    + assert (is_Some (last (r' :: l))) as [? ->] by (by apply last_is_Some).
      done.
  - destruct (last _); [done|]. by apply lookup_insert_ne.
Qed.

(** X18.  Labels of the method "default" shadow all others: as soon as
    [cluster_meta] has one row of method "default", every label the
    export uses comes from such a row, and a cluster labelled only by
    other methods has none.  In either case the label of a cluster is
    that of the last row read for it, and without the table there are
    no labels. *)
Theorem labels_prefer_default (db : Database) (c : Z) :
  let labels := labels_by_cid db in
  (db_cluster_meta db = None → labels = ∅) ∧
  (∀ rows, db_cluster_meta db = Some rows →
     let used :=
       if existsb (λ r, bool_decide (m_method r = "default")) rows
       then List.filter (λ r, bool_decide (m_method r = "default")) rows
       else rows in
     labels !! c
     = m_label <$>
         last (List.filter (λ r, bool_decide (m_cluster_id r = c)) used)).
Proof.
  intros labels. unfold labels, labels_by_cid. split.
  - by intros ->.
  - intros rows ->. cbv zeta. destruct rows as [|r0 rows]; [done|].
    rewrite fold_labels_lookup. by destruct (last _).
Qed.

Lemma coords_method_case_witness :
  build_payload (H:=np_ref) (H0:=backends_ok) db_two
    (with_method cfg_default "FR") tt "2024-01-01T00:00:00+00:00"
  = build_payload (H:=np_ref) (H0:=backends_ok) db_two cfg_default tt
      "2024-01-01T00:00:00+00:00".
Proof.
  apply (coords_method_case (H:=np_ref) (H0:=backends_ok) db_two cfg_default
           "FR" tt "2024-01-01T00:00:00+00:00").
  reflexivity.
Defined.

Lemma payload_coords_all_or_none_witness :
  ∃ payload nodes included,
    build_payload (H:=np_ref) (H0:=backends_ok) db_two cfg_default tt
      "2024-01-01T00:00:00+00:00" = Ok payload ∧
    jfield "nodes" payload = Some (JList nodes) ∧
    meta_coords "included" payload = Some (JBool included).
Proof.
  assert (Hrun : ∃ payload,
            build_payload (H:=np_ref) (H0:=backends_ok) db_two cfg_default tt
              "2024-01-01T00:00:00+00:00" = Ok payload)
    by (vm_compute; eexists; reflexivity).
  destruct Hrun as [payload Hrun].
  destruct (payload_coords_all_or_none (H:=np_ref) (H0:=backends_ok) db_two
              cfg_default tt "2024-01-01T00:00:00+00:00" payload Hrun)
    as (nodes & included & Hn & Hi & _).
  by exists payload, nodes, included.
Defined.


(** ** [_to_jsonable] *)

Lemma pyval_ind_nested (P : pyval → Prop) :
  P PNone → (∀ b, P (PBool b)) → (∀ z, P (PInt z)) → (∀ q, P (PFloat q)) →
  (∀ s, P (PStr s)) →
  (∀ l, Forall P l → P (PList l)) →
  (∀ l, Forall P l → P (PTuple l)) →
  (∀ items, Forall (λ kv : pykey * pyval, P kv.2) items → P (PDict items)) →
  (∀ z, P (NpInteger z)) → (∀ q, P (NpFloating q)) → (∀ a, P (NpArray a)) →
  ∀ v, P v.
Proof.
  intros HN HB HI HF HS HL HT HD HNI HNF HNA. fix IH 1.
  intros [ |b|z|q|s|l|l|items|z|q|a];
    [apply HN|apply HB|apply HI|apply HF|apply HS| | |
    |apply HNI|apply HNF|apply HNA].
  - apply HL. induction l as [|x l IHl]; constructor; [apply IH|exact IHl].
  - apply HT. induction l as [|x l IHl]; constructor; [apply IH|exact IHl].
  - apply HD. induction items as [|[k x] items IHi]; constructor;
      [apply IH|exact IHi].
Qed.

Lemma ndarray_ind_nested (P : ndarray → Prop) :
  (∀ z, P (NdInt z)) → (∀ q, P (NdFloat q)) →
  (∀ items, Forall P items → P (NdArr items)) → ∀ a, P a.
Proof.
  intros HI HF HA. fix IH 1. intros [z|q|items]; [apply HI|apply HF|].
  apply HA. induction items as [|x l IHl]; constructor; [apply IH|exact IHl].
Qed.

Lemma json_ind_nested (P : json → Prop) :
  P JNull → (∀ b, P (JBool b)) → (∀ z, P (JInt z)) → (∀ q, P (JFloat q)) →
  (∀ s, P (JStr s)) → (∀ l, Forall P l → P (JList l)) →
  (∀ items, Forall (λ kv : string * json, P kv.2) items → P (JDict items)) →
  ∀ j, P j.
Proof.
  intros HN HB HI HF HS HL HD. fix IH 1.
  intros [ |b|z|q|s|l|items];
    [apply HN|apply HB|apply HI|apply HF|apply HS| |].
  - apply HL. induction l as [|x l IHl]; constructor; [apply IH|exact IHl].
  - apply HD. induction items as [|[k x] items IHi]; constructor;
      [apply IH|exact IHi].
Qed.

Lemma native_list (l : list pyval) : native (PList l) ↔ Forall native l.
Proof.
  induction l as [|x l IH]; simpl; [by split; [constructor|]|].
  simpl in IH. rewrite Forall_cons, IH. done.
Qed.

Lemma native_dict (items : list (pykey * pyval)) :
  native (PDict items) ↔
  NoDup items.*1 ∧
  Forall (λ kv : pykey * pyval, (∃ s, kv.1 = KStr s) ∧ native kv.2) items.
Proof.
  cbn [native]. apply and_iff_compat_l.
  induction items as [|kv items IH]; simpl; [by split; [constructor|]|].
  rewrite Forall_cons, IH. tauto.
Qed.

Lemma dict_set_fresh (k : pykey) (v : pyval) (d : list (pykey * pyval)) :
  k ∉ d.*1 → dict_set k v d = d ++ [(k, v)].
Proof.
  induction d as [|[k' v'] d IH]; simpl; [done|]. intros Hk.
  rewrite decide_False by set_solver. rewrite IH by set_solver. done.
Qed.

Lemma dict_set_keys (k : pykey) (v : pyval) (d : list (pykey * pyval)) :
  (dict_set k v d).*1 = if decide (k ∈ d.*1) then d.*1 else d.*1 ++ [k].
Proof.
  induction d as [|[k' v'] d IH].
  { destruct (decide (k ∈ [].*1)) as [Hin|]; [|done].
    by apply elem_of_nil in Hin. }
  cbn [dict_set]. rewrite !fmap_cons. cbn [fst].
  destruct (decide (k = k')) as [->|Hne].
  - rewrite fmap_cons. cbn [fst].
    destruct (decide (k' ∈ k' :: d.*1)) as [|Hout]; [done|].
    exfalso. apply Hout, list_elem_of_here.
  - rewrite fmap_cons, IH. cbn [fst].
    destruct (decide (k ∈ d.*1)) as [Hin|Hout];
      destruct (decide (k ∈ k' :: d.*1)) as [Hin'|Hout']; try done.
    + exfalso. apply Hout'. by apply list_elem_of_further.
    + exfalso. by apply elem_of_cons in Hin' as [?|?].
Qed.

Lemma dict_set_nodup (k : pykey) (v : pyval) (d : list (pykey * pyval)) :
  NoDup d.*1 → NoDup (dict_set k v d).*1.
Proof.
  intros Hnd. rewrite dict_set_keys. case_decide; [done|].
  apply NoDup_app. split; [done|]. split; [|apply NoDup_singleton].
  by intros x Hx ->%list_elem_of_singleton.
Qed.

Lemma dict_set_forall (Q : pykey * pyval → Prop) (k : pykey) (v : pyval)
    (d : list (pykey * pyval)) :
  Q (k, v) → Forall Q d → (∀ k' v', k = k' → Q (k', v') → Q (k', v)) →
  Forall Q (dict_set k v d).
Proof.
  intros Hkv Hd Hrep. induction Hd as [|[k' v'] d Hx Hd IH]; simpl.
  - by repeat constructor.
  - case_decide; constructor; auto. by apply (Hrep k' v').
Qed.

Lemma dict_of_native (items : list (pykey * pyval))
    (d : list (pykey * pyval)) :
  Forall (λ kv : pykey * pyval, (∃ s, kv.1 = KStr s) ∧ native kv.2) items →
  native (PDict d) →
  native (PDict (fold_left (λ d kv, dict_set kv.1 kv.2 d) items d)).
Proof.
  intros Hitems. revert d.
  induction Hitems as [|[k v] items [Hk Hv] _ IH]; intros d Hd; [done|].
  cbn [fold_left fst snd]. apply IH. apply native_dict in Hd as [Hnd Hall].
  apply native_dict. split; [by apply dict_set_nodup|].
  apply dict_set_forall; [done|done|]. intros k' v' -> [Hk' _]. done.
Qed.

Lemma dict_of_distinct (items d : list (pykey * pyval)) :
  NoDup (d ++ items).*1 →
  fold_left (λ d kv, dict_set kv.1 kv.2 d) items d = d ++ items.
Proof.
  revert d. induction items as [|[k v] items IH]; intros d Hnd.
  { by rewrite app_nil_r. }
  cbn [fold_left fst snd]. rewrite dict_set_fresh.
  - rewrite IH; rewrite <- app_assoc; done.
  - rewrite fmap_app, fmap_cons in Hnd.
    apply NoDup_app in Hnd as (_ & Hdis & _). intros Hin.
    apply (Hdis k Hin). apply list_elem_of_here.
Qed.

Lemma tolist_native (a : ndarray) : native (tolist a).
Proof.
  induction a as [z|q|items IH] using ndarray_ind_nested; [done..|].
  cbn [tolist]. apply native_list. by apply Forall_fmap.
Qed.

Lemma to_jsonable_native (v : pyval) : native (_to_jsonable v).
Proof.
  induction v as [ |b|z|q|s|l IH|l IH|items IH|z|q|a] using pyval_ind_nested;
    try done.
  - cbn [_to_jsonable]. apply native_list. by apply Forall_fmap.
  - cbn [_to_jsonable]. apply native_list. by apply Forall_fmap.
  - cbn [_to_jsonable]. apply dict_of_native; [|by split; [constructor|]].
    apply Forall_fmap. eapply Forall_impl; [exact IH|].
    intros [k x] Hx. simpl. split; [by eexists|done].
  - apply tolist_native.
Qed.

Lemma to_jsonable_fixes (v : pyval) : native v → _to_jsonable v = v.
Proof.
  induction v as [ |b|z|q|s|l IH|l IH|items IH|z|q|a] using pyval_ind_nested;
    try done.
  - intros Hl%native_list. cbn [_to_jsonable]. f_equal.
    rewrite <- (map_id l) at 2. apply map_ext_Forall.
    rewrite Forall_forall in IH. rewrite Forall_forall in Hl.
    apply Forall_forall. intros x Hx. by apply IH, Hl.
  - intros [Hnd Hall]%native_dict. cbn [_to_jsonable]. f_equal.
    assert (Hmap : map (λ kv : pykey * pyval,
                          (KStr (key_str kv.1), _to_jsonable kv.2)) items
                   = items).
    { rewrite <- (map_id items) at 2. apply map_ext_Forall.
      rewrite Forall_forall in IH. rewrite Forall_forall in Hall.
      apply Forall_forall. intros [k x] Hkx.
      destruct (Hall _ Hkx) as [[s Hs] Hn]. simpl in Hs, Hn. subst k.
      specialize (IH _ Hkx Hn). cbn [fst snd key_str id] in *.
      by rewrite IH. }
    rewrite Hmap. unfold dict_of. by rewrite dict_of_distinct.
Qed.


(** *** The payload needs no conversion *)

Lemma py_native_dict (items : list (string * json)) :
  NoDup items.*1 →
  Forall (λ kv : string * json, native (py_of_json kv.2)) items →
  native (py_of_json (JDict items)).
Proof.
  intros Hnd Hall. cbn [py_of_json]. apply native_dict. split.
  - rewrite <- list_fmap_compose.
    assert (Heq : (fst ∘ (λ kv : string * json, (KStr kv.1, py_of_json kv.2)))
                  <$> items = KStr <$> items.*1).
    { rewrite <- list_fmap_compose. by apply list_fmap_ext. }
    rewrite Heq. apply NoDup_fmap_2; [|done]. by intros s1 s2 [= ->].
  - apply Forall_fmap. eapply Forall_impl; [exact Hall|].
    intros [k j] Hj. simpl. split; [by eexists|done].
Qed.

Lemma py_native_list (l : list json) :
  Forall (λ j, native (py_of_json j)) l → native (py_of_json (JList l)).
Proof. intros Hall. cbn [py_of_json]. apply native_list. by apply Forall_fmap. Qed.

Ltac native_fixed :=
  apply py_native_dict;
  [apply (bool_decide_unpack _); vm_compute; exact I
  |repeat (apply Forall_cons; split; [cbn [snd]; try exact I|]);
   try apply Forall_nil_2].

Lemma JOptStr_native (o : option string) : native (py_of_json (JOptStr o)).
Proof. by destruct o. Qed.

Lemma make_link_native (cfg : Config) (ids : list string) (e : edge) :
  native (py_of_json (make_link cfg ids e)).
Proof. unfold make_link. destruct (compact cfg); native_fixed. Qed.

Lemma make_meta_native (cfg : Config) (dim : option Z)
    (generated_at : string) (included : bool) (used : string) :
  native (py_of_json (make_meta cfg dim generated_at included used)).
Proof.
  unfold make_meta. native_fixed; cbn [snd]; native_fixed.
  cbn [snd]. native_fixed.
Qed.

Lemma make_clusters_native (labels : gmap Z (option string))
    (cluster_ids : list Z) :
  native (py_of_json (JDict (make_clusters labels cluster_ids))).
Proof.
  unfold make_clusters. apply py_native_dict.
  - rewrite <- list_fmap_compose.
    apply (NoDup_fmap_2 (pretty : Z → string)).
    rewrite merge_sort_Permutation. apply NoDup_remove_dups.
  - apply Forall_forall.
    intros [k j] (c & [= <- <-] & _)%list_elem_of_In%in_map_iff. cbn [snd].
    native_fixed. cbn [snd]. apply JOptStr_native.
Qed.

Section PayloadNative.
Context `{NumPy} `{Backends}.

Lemma make_node_native (cfg : Config) (xy : option (list Z * list Z))
    (i : nat) (p : Paper) (n : json) :
  make_node cfg xy i p = Ok n → native (py_of_json n).
Proof.
  unfold make_node. intros (c & Hc & Hn)%rbind_ok.
  assert (Hxy : c = [] ∨ ∃ x y, c = [("x", JInt x); ("y", JInt y)]).
  { unfold node_xy in Hc. destruct xy as [[xs ys]|].
    - destruct (xs !! i) as [x|]; [|done]. destruct (ys !! i) as [y|]; [|done].
      apply Ok_inj in Hc as <-. right. by exists x, y.
    - apply Ok_inj in Hc as <-. by left. }
  destruct (compact cfg); apply Ok_inj in Hn as <-.
  - destruct (include_summaries cfg); [destruct (sm p)|];
      destruct Hxy as [->|(x & y & ->)]; cbn [app]; native_fixed.
  - destruct Hxy as [->|(x & y & ->)]; cbn [app]; native_fixed;
      cbn [snd]; apply JOptStr_native.
Qed.

End PayloadNative.

